(** * deep.new: workflow engine and edge-pattern handlers

    A shallow embedding of [packages/ai/graph/edge-pattern-handlers.ts]:
    the JavaScript values the engine stores and persists, the
    [ExecutionContext] and [WorkflowEngine] classes with the retry loop of
    [executeTask], the state deserializer, and the [condition] and [loop]
    edge handlers of the agent graph. *)

From Stdlib Require Import ZArith String List Bool Lia.
From stdpp Require Import base option list strings pretty gmap.
Import ListNotations.
Local Open Scope string_scope.
Local Open Scope list_scope.

(** ** JavaScript values *)

Module Js.

(** The values a task can receive, return and store.  Numbers are the
    integers among the JS numbers.  An object is the list of its own
    enumerable properties in enumeration order (its prototype is not
    part of the value), a [Set] the list of its elements in insertion
    order, a [Map] (string keys, as in [Map<string, any>]) the list of
    its entries in insertion order.  [JPromise v] is a promise that
    resolves to [v]. *)
#[warnings="-register-all"]
Inductive JsVal : Type :=
| JUndef
| JNull
| JBool (b : bool)
| JNum (n : Z)
| JStr (s : string)
| JArr (items : list JsVal)
| JObj (props : list (string * JsVal))
| JSet (elems : list JsVal)
| JMap (entries : list (string * JsVal))
| JPromise (resolved : JsVal).

(** The induction principle that reaches inside arrays, objects, sets,
    maps and promises. *)
Section JsVal_nested_ind.
Variable P : JsVal → Prop.
Hypothesis HUndef : P JUndef.
Hypothesis HNull : P JNull.
Hypothesis HBool : ∀ b, P (JBool b).
Hypothesis HNum : ∀ n, P (JNum n).
Hypothesis HStr : ∀ s, P (JStr s).
Hypothesis HArr : ∀ l, Forall P l → P (JArr l).
Hypothesis HObj : ∀ l, Forall (λ kv, P kv.2) l → P (JObj l).
Hypothesis HSet : ∀ l, Forall P l → P (JSet l).
Hypothesis HMap : ∀ l, Forall (λ kv, P kv.2) l → P (JMap l).
Hypothesis HPromise : ∀ v, P v → P (JPromise v).

Fixpoint JsVal_nested_ind (v : JsVal) : P v :=
  match v with
  | JUndef => HUndef
  | JNull => HNull
  | JBool b => HBool b
  | JNum n => HNum n
  | JStr s => HStr s
  | JArr l =>
      HArr l ((fix go (l : list JsVal) : Forall P l :=
                 match l with
                 | [] => Forall_nil_2 P
                 | x :: l' => Forall_cons_2 P x l' (JsVal_nested_ind x) (go l')
                 end) l)
  | JObj l =>
      HObj l ((fix go (l : list (string * JsVal)) : Forall (λ kv, P kv.2) l :=
                 match l with
                 | [] => Forall_nil_2 _
                 | x :: l' => Forall_cons_2 _ x l' (JsVal_nested_ind x.2) (go l')
                 end) l)
  | JSet l =>
      HSet l ((fix go (l : list JsVal) : Forall P l :=
                 match l with
                 | [] => Forall_nil_2 P
                 | x :: l' => Forall_cons_2 P x l' (JsVal_nested_ind x) (go l')
                 end) l)
  | JMap l =>
      HMap l ((fix go (l : list (string * JsVal)) : Forall (λ kv, P kv.2) l :=
                 match l with
                 | [] => Forall_nil_2 _
                 | x :: l' => Forall_cons_2 _ x l' (JsVal_nested_ind x.2) (go l')
                 end) l)
  | JPromise w => HPromise w (JsVal_nested_ind w)
  end.
End JsVal_nested_ind.

(** [Boolean(v)]: what [if (v)] and [v && ...] test. *)
Definition truthy (v : JsVal) : bool :=
  match v with
  | JUndef | JNull => false
  | JBool b => b
  | JNum n => negb (n =? 0)%Z
  | JStr s => negb (String.eqb s "")
  | JArr _ | JObj _ | JSet _ | JMap _ | JPromise _ => true
  end.

(** [typeof v === 'object'] ([null] included, as in JS). *)
Definition typeofObject (v : JsVal) : bool :=
  match v with
  | JNull | JArr _ | JObj _ | JSet _ | JMap _ | JPromise _ => true
  | _ => false
  end.

(** [Array.isArray(v)]. *)
Definition isArray (v : JsVal) : bool :=
  match v with JArr _ => true | _ => false end.

(** [v === undefined]. *)
Definition isUndefined (v : JsVal) : bool :=
  match v with JUndef => true | _ => false end.

(** [v === s] for a string literal [s]. *)
Definition strictEqStr (v : JsVal) (s : string) : bool :=
  match v with JStr t => String.eqb t s | _ => false end.

(** Lookup of an own property in a property list. *)
Fixpoint lookupProp (k : string) (props : list (string * JsVal)) : option JsVal :=
  match props with
  | [] => None
  | (k', v) :: rest => if String.eqb k' k then Some v else lookupProp k rest
  end.

(** [v.k].  [None] is the [TypeError] of reading a property of
    [undefined] or [null]; a property that is absent reads as
    [undefined].  (Only the named own properties of plain objects are
    modelled; [length], [size] and the like are not read this way by
    the code.) *)
Definition getProp (v : JsVal) (k : string) : option JsVal :=
  match v with
  | JUndef | JNull => None
  | JObj props => Some (default JUndef (lookupProp k props))
  | _ => Some JUndef
  end.

(** [k in v], for a [v] with [typeof v === 'object'].  [None] is the
    [TypeError] of [k in null]. *)
Definition hasProp (k : string) (v : JsVal) : option bool :=
  match v with
  | JNull => None
  | JObj props => Some (bool_decide (is_Some (lookupProp k props)))
  | _ => Some false
  end.

(** A primitive value: compared by value, anything else by reference. *)
Definition isPrimitive (v : JsVal) : bool :=
  match v with
  | JUndef | JNull | JBool _ | JNum _ | JStr _ => true
  | _ => false
  end.

(** SameValueZero on values that were built independently of each other
    (the elements of a freshly parsed array): primitives are the same
    when equal, two objects never are. *)
Definition sameValueZero (a b : JsVal) : bool :=
  match a, b with
  | JUndef, JUndef => true
  | JNull, JNull => true
  | JBool x, JBool y => Bool.eqb x y
  | JNum x, JNum y => (x =? y)%Z
  | JStr x, JStr y => String.eqb x y
  | _, _ => false
  end.

(** [new Set(iterable)] over the elements of an array: later elements
    that are the same as an earlier one are dropped. *)
Fixpoint newSetFrom (seen : list JsVal) (l : list JsVal) : list JsVal :=
  match l with
  | [] => []
  | x :: rest =>
      if existsb (sameValueZero x) seen then newSetFrom seen rest
      else x :: newSetFrom (x :: seen) rest
  end.

Definition newSet (l : list JsVal) : list JsVal := newSetFrom [] l.

(** The invariant of a [Set]: no element is the same as an earlier one. *)
Fixpoint distinctFrom (seen : list JsVal) (l : list JsVal) : bool :=
  match l with
  | [] => true
  | x :: rest =>
      negb (existsb (sameValueZero x) seen) && distinctFrom (x :: seen) rest
  end.

Definition distinct (l : list JsVal) : bool := distinctFrom [] l.

(** The characters of a string, as one-character strings. *)
Fixpoint chars (s : string) : list string :=
  match s with
  | EmptyString => []
  | String c rest => String c EmptyString :: chars rest
  end.

(** Pairs each element with its index, printed in decimal. *)
Fixpoint indexed {A} (i : nat) (l : list A) : list (string * A) :=
  match l with
  | [] => []
  | x :: rest => (pretty i, x) :: indexed (S i) rest
  end.

(** [Object.entries(v)] for a [v] that is not [undefined] or [null]. *)
Definition objectEntries (v : JsVal) : list (string * JsVal) :=
  match v with
  | JObj props => props
  | JArr items => indexed 0 items
  | JStr s => indexed 0 (JStr <$> chars s)
  | _ => []
  end.

(** The separator of two line feeds. *)
Definition blankLine : string :=
  String (Ascii.ascii_of_nat 10) (String (Ascii.ascii_of_nat 10) "").

(** [parts.join(sep)] on an array of strings. *)
Fixpoint join (sep : string) (parts : list string) : string :=
  match parts with
  | [] => ""
  | [x] => x
  | x :: rest => x ++ sep ++ join sep rest
  end.

End Js.
Export Js.

(** ** Snapshots: [deserializeState] and the serializer it reverses *)

Module Snapshot.

(** [data.type === 'Set' && Array.isArray(data.value)], for an object. *)
Definition isSetEnvelope (props : list (string * JsVal)) : bool :=
  strictEqStr (default JUndef (lookupProp "type" props)) "Set"
  && isArray (default JUndef (lookupProp "value" props)).

(** [data.type === 'Map' && data.value], for an object. *)
Definition isMapEnvelope (props : list (string * JsVal)) : bool :=
  strictEqStr (default JUndef (lookupProp "type" props)) "Map"
  && truthy (default JUndef (lookupProp "value" props)).

(** [result[key] = value] for a key other than [__proto__], on the own
    properties of a plain object: a key that is there keeps its place
    and takes the value, a new key comes last (the keys arrive in the
    enumeration order of the object they are read from, integer keys
    first, so last is where the new key belongs). *)
Fixpoint setOwn (key : string) (value : JsVal) (props : list (string * JsVal))
  : list (string * JsVal) :=
  match props with
  | [] => [(key, value)]
  | (k, v) :: rest =>
      if String.eqb k key then (k, value) :: rest else (k, v) :: setOwn key value rest
  end.

(** [result[key] = value] on an object made by [{}].  The key
    [__proto__] is the accessor of [Object.prototype]: the assignment
    calls its setter, which changes the prototype of [result] (or does
    nothing, for a value that is no object) and adds no own property. *)
Definition assignProp (key : string) (value : JsVal) (result : list (string * JsVal))
  : list (string * JsVal) :=
  if String.eqb key "__proto__" then result else setOwn key value result.

(** [WorkflowEngine.deserializeState].  Only a plain object can carry
    the [type] and [value] properties of an envelope; an array is
    mapped element by element; a plain object is rebuilt by one
    assignment per entry; any other object ([Set], [Map], promise) has
    no own enumerable property, so the last branch rebuilds it as the
    empty object. *)
Fixpoint deserializeState (data : JsVal) : JsVal :=
  match data with
  | JNull | JUndef => data
  | JObj props =>
      if isSetEnvelope props then
        match default JUndef (lookupProp "value" props) with
        | JArr items => JSet (newSet items)
        | _ => JUndef
        end
      else if isMapEnvelope props then
        JMap (objectEntries (default JUndef (lookupProp "value" props)))
      else
        JObj ((fix each (l result : list (string * JsVal)) : list (string * JsVal) :=
                 match l with
                 | [] => result
                 | (key, value) :: rest =>
                     each rest (assignProp key (deserializeState value) result)
                 end) props [])
  | JArr items => JArr (map deserializeState items)
  | JSet _ | JMap _ | JPromise _ => JObj []
  | JBool _ | JNum _ | JStr _ => data
  end.

(** The [for] loop of the last branch, named: the entries [l] assigned
    one after the other to [result]. *)
Definition deserializeInto (result l : list (string * JsVal)) : list (string * JsVal) :=
  foldl (λ acc kv, assignProp kv.1 (deserializeState kv.2) acc) result l.

Definition deserializeProps (l : list (string * JsVal)) : list (string * JsVal) :=
  deserializeInto [] l.

(** Modelled from the spec: the serializer of the persistence adapter
    ([./persistence], not part of this file).  Sets serialize to
    [{type:"Set", value:[...]}], maps to [{type:"Map", value:{...}}],
    arrays and plain objects recurse, primitives pass through. *)
Fixpoint serializeState (data : JsVal) : JsVal :=
  match data with
  | JSet elems => JObj [("type", JStr "Set"); ("value", JArr elems)]
  | JMap entries => JObj [("type", JStr "Map"); ("value", JObj entries)]
  | JArr items => JArr (map serializeState items)
  | JObj props =>
      JObj ((fix each (l : list (string * JsVal)) : list (string * JsVal) :=
               match l with
               | [] => []
               | (key, value) :: rest => (key, serializeState value) :: each rest
               end) props)
  | _ => data
  end.

Definition serializeProps (l : list (string * JsVal)) : list (string * JsVal) :=
  map (λ kv, (kv.1, serializeState kv.2)) l.

(** What a JSON store gives back as it was given: [null], booleans,
    numbers, strings, and the arrays and plain objects made of these.
    ([undefined] is dropped or turned into [null], a [Set], a [Map] or
    a promise is stored as an empty object.) *)
Fixpoint jsonData (v : JsVal) : bool :=
  match v with
  | JNull | JBool _ | JNum _ | JStr _ => true
  | JArr items => forallb jsonData items
  | JObj props =>
      (fix each (l : list (string * JsVal)) : bool :=
         match l with
         | [] => true
         | (_, value) :: rest => jsonData value && each rest
         end) props
  | JUndef | JSet _ | JMap _ | JPromise _ => false
  end.

(** The keys of [props] are not among [seen], and no two of them are
    the same. *)
Fixpoint distinctKeysFrom (seen : list string) (props : list (string * JsVal)) : bool :=
  match props with
  | [] => true
  | (key, _) :: rest =>
      negb (existsb (String.eqb key) seen) && distinctKeysFrom (key :: seen) rest
  end.

Definition distinctKeys (props : list (string * JsVal)) : bool :=
  distinctKeysFrom [] props.

(** The entries whose key is not [__proto__]. *)
Definition withoutProto (props : list (string * JsVal)) : list (string * JsVal) :=
  List.filter (λ kv, negb (String.eqb kv.1 "__proto__")) props.

(** No key twice, and no key [__proto__]. *)
Definition ownKeys (props : list (string * JsVal)) : bool :=
  distinctKeys props && forallb (λ kv, negb (String.eqb kv.1 "__proto__")) props.

(** Modelled from the spec: the state fields are JSON-encoded in the
    store.  What comes back from the store for a value that went in:
    in an array [undefined] has become [null], in an object a property
    that was [undefined] is gone, and a [Set], a [Map] or a promise has
    become an empty object. *)
Fixpoint jsonStored (v : JsVal) : JsVal :=
  match v with
  | JArr items =>
      JArr (map (λ item, match item with
                         | JUndef => JNull
                         | _ => jsonStored item
                         end) items)
  | JObj props =>
      JObj ((fix each (l : list (string * JsVal)) : list (string * JsVal) :=
               match l with
               | [] => []
               | (key, value) :: rest =>
                   match value with
                   | JUndef => each rest
                   | _ => (key, jsonStored value) :: each rest
                   end
               end) props)
  | JSet _ | JMap _ | JPromise _ => JObj []
  | JUndef | JNull | JBool _ | JNum _ | JStr _ => v
  end.

(** A string of decimal digits: such a key of an object is listed
    before the other keys, whenever it was added. *)
Definition isDigits (key : string) : bool :=
  match key with
  | EmptyString => false
  | _ => forallb (λ c, (48 <=? c)%nat && (c <=? 57)%nat)
                 (Ascii.nat_of_ascii <$> list_ascii_of_string key)
  end.

(** The keys of a [Map] that comes back entry for entry from the
    object it is stored as: keys an object can hold as own properties
    in the order they were added. *)
Definition storableKeys (entries : list (string * JsVal)) : bool :=
  ownKeys entries && forallb (λ kv, negb (isDigits kv.1)) entries.

(** A snapshot the serializer is meant for.  On the way down through
    arrays and plain objects there is no [undefined] and no promise,
    no plain object has the shape of an envelope, an own key
    [__proto__] or the same key twice; every [Set] holds each element
    once and every [Map] has keys an object can store; and what the
    [Set]s and [Map]s hold, which the deserializer returns as it finds
    it, is data a JSON store gives back as it was given. *)
Fixpoint roundTrips (v : JsVal) : bool :=
  match v with
  | JArr items => forallb roundTrips items
  | JObj props =>
      negb (isSetEnvelope props) && negb (isMapEnvelope props) && ownKeys props
      && (fix each (l : list (string * JsVal)) : bool :=
            match l with
            | [] => true
            | (_, value) :: rest => roundTrips value && each rest
            end) props
  | JSet elems => distinct elems && forallb jsonData elems
  | JMap entries => storableKeys entries && forallb (λ kv, jsonData kv.2) entries
  | JUndef | JPromise _ => false
  | JNull | JBool _ | JNum _ | JStr _ => true
  end.

(** *** Two snapshots *)

(** A plain object that happens to look like a serialized [Set]: the
    breakpoint data a task handed to [interrupt]. *)
Definition lookalike : JsVal :=
  JObj [("breakpointTask", JStr "H");
        ("breakpointData", JObj [("type", JStr "Set"); ("value", JArr [JNum 1; JNum 2])])].

(** A serialized [Map] with a serialized [Set] among its values. *)
Definition nestedEnvelope : JsVal :=
  JObj [("type", JStr "Map");
        ("value", JObj [("A", JObj [("type", JStr "Set"); ("value", JArr [JNum 1])])])].

(** The own properties of an object as [JSON.parse] makes it of the
    text [{"a":1,"__proto__":{"x":2},"b":3}]. *)
Definition protoKeyed : list (string * JsVal) :=
  [("a", JNum 1); ("__proto__", JObj [("x", JNum 2)]); ("b", JNum 3)].

(** A snapshot of the engine's state, with its sets and its map. *)
Definition sampleSnapshot : JsVal :=
  JObj [("completedTasks", JSet [JStr "A"; JStr "B"]);
        ("runningTasks", JSet []);
        ("taskData", JMap [("A", JNum 1); ("B", JArr [JStr "x"; JNull])]);
        ("breakpointTask", JStr "B");
        ("breakpointData", JObj [("q", JStr "continue?")])].

End Snapshot.

(** ** The workflow engine *)

(** [ExecutionContext] and [WorkflowEngine], as functions on the state
    of one workflow.  A promise is settled by the time it is awaited:
    user code runs from its call to its return or throw without another
    task in between, and the branches of a fan-out run one after the
    other.  The clock is left out of the timing records; a timeout is
    decided by the time the body says it awaits.  The typed event bus,
    the typed context and the trace handle are not touched by the code
    modelled here. *)

Module Workflow.

(** What can be thrown.  [BreakpointError] is the exported class; the
    next three are the errors the engine itself raises or meets;
    [UserError] stands for every other value thrown by user code. *)
Inductive Err : Type :=
| BreakpointError
| TaskNotFound (task : JsVal)
| TimeoutExceeded
| TypeError
| UserError (msg : string).

(** [error instanceof BreakpointError]. *)
Definition isBreakpointError (e : Err) : bool :=
  match e with BreakpointError => true | _ => false end.

Inductive TimingStatus : Type := success | failed.

(** [TaskTiming], without the clock readings: whether [endTime] has been
    set, the status, and the error. *)
Record TaskTiming : Type := mkTiming {
  ended : bool;
  status : TimingStatus;
  error : option Err
}.

(** [WorkflowState]. *)
Record WorkflowState : Type := mkState {
  completedTasks : gset string;
  runningTasks : gset string;
  taskData : gmap string JsVal;
  breakpointId : option nat;
  breakpointData : JsVal;
  breakpointTask : option string
}.

(** The fields of [ExecutionContext] (its event emitter is the trace of
    the [World] below). *)
Record ExecutionContext : Type := mkContext {
  state : WorkflowState;
  aborted : bool;
  gracefulShutdown : bool;
  taskExecutionCounts : gmap string nat;
  taskTimings : gmap string (list TaskTiming)
}.

(** What an observer of the engine sees, in order: the events emitted on
    the engine's emitter, the calls into user code, and the snapshots
    handed to [persistence.saveWorkflow]. *)
Inductive Obs : Type :=
| TaskExecutionEvent (taskName : string) (count : nat)
| ExecuteCalled (taskName : string) (data : JsVal)
| RouteCalled (taskName : string) (result : JsVal)
| OnErrorCalled (taskName : string) (e : Err)
| WorkflowSaved (snapshot : ExecutionContext).

(** Everything one workflow mutates: the execution context, the trace,
    and the supply of [uuidv4()] identifiers. *)
Record World : Type := mkWorld {
  ctx : ExecutionContext;
  trace : list Obs;
  uuids : nat
}.

(** User code ([execute], [route], [onError]) as the sequence of calls
    it makes on its parameter bundle before it returns or throws.
    [Inspect] reads the execution context; [Await ms] is a suspension of
    [ms] milliseconds.  An exception raised by a callback propagates:
    user code that catches the [BreakpointError] of its own [interrupt]
    call is not modelled. *)
Inductive TaskBody : Type :=
| Return (v : JsVal)
| Throw (e : Err)
| RedirectTo (nextTask : JsVal) (k : TaskBody)
| Interrupt (data : JsVal) (k : TaskBody)
| Abort (graceful : bool) (k : TaskBody)
| Await (ms : Z) (k : TaskBody)
| Inspect (k : ExecutionContext → TaskBody).

(** [TaskConfig].  [retryCount] and [timeoutMs] are optional numbers,
    [dependencies] an optional array. *)
Record TaskConfig : Type := mkTask {
  execute : JsVal → TaskBody;
  route : JsVal → TaskBody;
  dependencies : option (list string);
  retryCount : option nat;
  timeoutMs : option Z;
  onError : option (Err → JsVal → TaskBody)
}.

(** The immutable part of a [WorkflowEngine]: the task registry and
    whether a persistence layer was supplied. *)
Record Engine : Type := mkEngine {
  tasks : gmap string TaskConfig;
  persistence : bool
}.

(** *** Field updates *)

Definition withState (f : WorkflowState → WorkflowState) (c : ExecutionContext)
  : ExecutionContext :=
  mkContext (f (state c)) (aborted c) (gracefulShutdown c)
            (taskExecutionCounts c) (taskTimings c).

Definition withCtx (f : ExecutionContext → ExecutionContext) (w : World) : World :=
  mkWorld (f (ctx w)) (trace w) (uuids w).

Definition observe (o : Obs) (w : World) : World :=
  mkWorld (ctx w) (trace w ++ [o]) (uuids w).

(** *** [ExecutionContext] *)

Definition initialState : WorkflowState :=
  mkState ∅ ∅ ∅ None JUndef None.

Definition initialContext : ExecutionContext :=
  mkContext initialState false false ∅ ∅.

Definition initialWorld : World := mkWorld initialContext [] 0.

(** [this.aborted && !this.gracefulShutdown]. *)
Definition hardAborted (c : ExecutionContext) : bool :=
  aborted c && negb (gracefulShutdown c).

Definition getTaskExecutionCount (taskName : string) (c : ExecutionContext) : nat :=
  default 0 (taskExecutionCounts c !! taskName).

Definition emitTaskExecutionEvent (taskName : string) (count : nat) (w : World) : World :=
  observe (TaskExecutionEvent taskName count) w.

Definition markTaskComplete (taskName : string) (data : JsVal) (w : World) : World :=
  if hardAborted (ctx w) then w
  else
    let currentCount := getTaskExecutionCount taskName (ctx w) in
    let newCount := currentCount + 1 in
    let w1 :=
      withCtx (λ c, mkContext (state c) (aborted c) (gracefulShutdown c)
                              (<[taskName := newCount]> (taskExecutionCounts c))
                              (taskTimings c)) w in
    let w2 := emitTaskExecutionEvent taskName newCount w1 in
    withCtx (withState (λ s,
      mkState ({[taskName]} ∪ completedTasks s)
              (runningTasks s ∖ {[taskName]})
              (<[taskName := data]> (taskData s))
              (breakpointId s) (breakpointData s) (breakpointTask s))) w2.

Definition resetTaskCompletion (taskName : string) (w : World) : World :=
  withCtx (withState (λ s,
    mkState (completedTasks s ∖ {[taskName]}) (runningTasks s) (taskData s)
            (breakpointId s) (breakpointData s) (breakpointTask s))) w.

Definition isTaskComplete (taskName : string) (c : ExecutionContext) : bool :=
  bool_decide (taskName ∈ completedTasks (state c)).

Definition isTaskRunning (taskName : string) (c : ExecutionContext) : bool :=
  bool_decide (taskName ∈ runningTasks (state c)).

Definition abortWorkflow (graceful : bool) (w : World) : World :=
  withCtx (λ c, mkContext (state c) true graceful
                          (taskExecutionCounts c) (taskTimings c)) w.

Definition startTaskTiming (taskName : string) (w : World) : World :=
  withCtx (λ c, mkContext (state c) (aborted c) (gracefulShutdown c)
                          (taskExecutionCounts c)
                          (<[taskName := default [] (taskTimings c !! taskName)
                                         ++ [mkTiming false success None]]>
                             (taskTimings c))) w.

(** Sets [endTime] on the last record, and marks it failed when an
    error is given. *)
Definition endLast (err : option Err) (timings : list TaskTiming) : list TaskTiming :=
  match reverse timings with
  | [] => timings
  | current :: earlier =>
      reverse earlier ++
      [match err with
       | Some e => mkTiming true failed (Some e)
       | None => mkTiming true (status current) (error current)
       end]
  end.

Definition endTaskTiming (taskName : string) (err : option Err) (w : World) : World :=
  match taskTimings (ctx w) !! taskName with
  | Some timings =>
      withCtx (λ c, mkContext (state c) (aborted c) (gracefulShutdown c)
                              (taskExecutionCounts c)
                              (<[taskName := endLast err timings]> (taskTimings c))) w
  | None => w
  end.

(** *** [WorkflowEngine] *)

(** [this.persistence.saveWorkflow(this.id, this)]: the layer receives
    the engine as it is at the call. *)
Definition saveWorkflow (w : World) : World := observe (WorkflowSaved (ctx w)) w.

(** [if (this.persistence) { saveWorkflow }]. *)
Definition persist (eng : Engine) (w : World) : World :=
  if persistence eng then saveWorkflow w else w.

Definition createBreakpoint (eng : Engine) (task : string) (data : JsVal) (w : World)
  : option Err * World :=
  if bool_decide (is_Some (tasks eng !! task)) then
    let w1 :=
      mkWorld (withState (λ s,
                 mkState (completedTasks s) (runningTasks s) (taskData s)
                         (Some (uuids w)) data (Some task)) (ctx w))
              (trace w) (S (uuids w)) in
    (None, persist eng w1)
  else (Some (TaskNotFound (JStr task)), w).

(** *** Running user code *)

(** Which [interrupt] closure the parameter bundle carries. *)
Inductive InterruptClosure : Type :=
| InterruptOfTask       (* the direct [execute] call: complete, breakpoint, throw *)
| InterruptOfRoute      (* the [route] call: breakpoint, throw *)
| InterruptLogsOnly.    (* [executeTaskWithTimeout] and [onError]: no effect *)

Record Bundle : Type := mkBundle {
  interruptClosure : InterruptClosure;
  redirectRecords : bool;         (* [redirectTo] writes [taskRedirect] *)
  deadline : option Z             (* the timer raced against, if any *)
}.

Inductive Completion : Type :=
| Resolved (v : JsVal)
| Rejected (e : Err).

(** Runs a body against a bundle for task [taskName].  The second
    component of the result is the variable [taskRedirect].  With a deadline, the
    timer wins as soon as the time awaited reaches it; what the losing
    body would still do afterwards is not run. *)
Fixpoint runBody (eng : Engine) (taskName : string) (b : Bundle) (left : option Z)
    (body : TaskBody) (taskRedirect : JsVal) (w : World)
  : Completion * JsVal * World :=
  match body with
  | Return v => (Resolved v, taskRedirect, w)
  | Throw e => (Rejected e, taskRedirect, w)
  | RedirectTo nextTask k =>
      runBody eng taskName b left k
              (if redirectRecords b then nextTask else taskRedirect) w
  | Interrupt data k =>
      match interruptClosure b with
      | InterruptOfTask =>
          let w1 := markTaskComplete taskName data w in
          match createBreakpoint eng taskName data w1 with
          | (Some e, w2) => (Rejected e, taskRedirect, w2)
          | (None, w2) => (Rejected BreakpointError, taskRedirect, w2)
          end
      | InterruptOfRoute =>
          match createBreakpoint eng taskName data w with
          | (Some e, w2) => (Rejected e, taskRedirect, w2)
          | (None, w2) => (Rejected BreakpointError, taskRedirect, w2)
          end
      | InterruptLogsOnly => runBody eng taskName b left k taskRedirect w
      end
  | Abort graceful k =>
      runBody eng taskName b left k taskRedirect (abortWorkflow graceful w)
  | Await ms k =>
      match left with
      | Some budget =>
          if (budget <=? ms)%Z then (Rejected TimeoutExceeded, taskRedirect, w)
          else runBody eng taskName b (Some (budget - ms)%Z) k taskRedirect w
      | None => runBody eng taskName b left k taskRedirect w
      end
  | Inspect k => runBody eng taskName b left (k (ctx w)) taskRedirect w
  end.

(** [config.timeoutMs ? ... : ...]: a number is truthy unless it is 0. *)
Definition timeoutOf (config : TaskConfig) : option Z :=
  match timeoutMs config with
  | Some ms => if (ms =? 0)%Z then None else Some ms
  | None => None
  end.

(** The bundle [execute] receives: with a timeout, the one built by
    [executeTaskWithTimeout] with [redirectTo] replaced by the caller's;
    without, the one built in [executeTask]. *)
Definition executeBundle (config : TaskConfig) : Bundle :=
  match timeoutOf config with
  | Some ms => mkBundle InterruptLogsOnly true (Some ms)
  | None => mkBundle InterruptOfTask true None
  end.

Definition routeBundle : Bundle := mkBundle InterruptOfRoute true None.

Definition onErrorBundle : Bundle := mkBundle InterruptLogsOnly false None.

(** The conditional expression that produces [taskResult]. *)
Definition invokeExecute (eng : Engine) (config : TaskConfig) (taskName : string)
    (data : JsVal) (taskRedirect : JsVal) (w : World) : Completion * JsVal * World :=
  let b := executeBundle config in
  runBody eng taskName b (deadline b) (execute config data) taskRedirect
          (observe (ExecuteCalled taskName data) w).

(** [config.retryCount || 0]. *)
Definition retries (config : TaskConfig) : nat := default 0 (retryCount config).

(** *** [executeTask] *)

(** The result of one call of [executeTask]: the promise resolves,
    rejects, or the model ran out of fuel before it settled. *)
Inductive Outcome : Type :=
| Returned (v : JsVal)
| Thrown (e : Err)
| OutOfFuel.

Section Attempts.

Variable eng : Engine.

(** The recursive call [this.executeTask]. *)
Variable exec : string → JsVal → World → Outcome * World.

(** [this.executeTask(target, data)] where [target] is whatever value
    the routing produced: a value that is not a string is the name of
    no task. *)
Definition executeTarget (target : JsVal) (data : JsVal) (w : World) : Outcome * World :=
  match target with
  | JStr name => exec name data w
  | _ =>
      if hardAborted (ctx w) then (Returned JUndef, w)
      else (Thrown (TaskNotFound target), w)
  end.

(** [await Promise.all(targets.map(t => this.executeTask(t, data)))],
    with the branches run one after the other in array order: every
    branch runs, and the first rejection is the rejection of the
    whole. *)
Fixpoint executeAll (targets : list JsVal) (data : JsVal) (first : option Err)
    (w : World) : Outcome * World :=
  match targets with
  | [] => (match first with Some e => Thrown e | None => Returned JUndef end, w)
  | target :: rest =>
      match executeTarget target data w with
      | (OutOfFuel, w1) => (OutOfFuel, w1)
      | (Thrown e, w1) =>
          executeAll rest data (Some (default e first)) w1
      | (Returned _, w1) => executeAll rest data first w1
      end
  end.

(** The same over [ParallelTaskRoute[]]: each route is called with
    [route.data !== undefined ? route.data : result].  Reading
    [route.task] of [undefined] or [null] throws inside [map]. *)
Fixpoint executeRoutes (routes : list JsVal) (result : JsVal) (first : option Err)
    (w : World) : Outcome * World :=
  match routes with
  | [] => (match first with Some e => Thrown e | None => Returned JUndef end, w)
  | r :: rest =>
      match getProp r "task", getProp r "data" with
      | Some target, Some d =>
          match executeTarget target (if isUndefined d then result else d) w with
          | (OutOfFuel, w1) => (OutOfFuel, w1)
          | (Thrown e, w1) =>
              executeRoutes rest result (Some (default e first)) w1
          | (Returned _, w1) => executeRoutes rest result first w1
          end
      | _, _ => (Thrown TypeError, w)
      end
  end.

(** The dispatch of the success path, lines 981-1008. *)
Definition dispatchNext (nextTasks : JsVal) (result : JsVal) (w : World)
  : Outcome * World :=
  if truthy nextTasks then
    match nextTasks with
    | JArr items =>
        match items with
        | first :: _ =>
            if typeofObject first then
              match hasProp "task" first with
              | None => (Thrown TypeError, w)
              | Some true => executeRoutes items result None w
              | Some false => executeAll items result None w
              end
            else executeAll items result None w
        | [] => executeAll items result None w
        end
    | _ => executeTarget nextTasks result w
    end
  else (Returned JUndef, w).

(** The dispatch of the [onError] path, lines 1050-1076. *)
Definition dispatchErrorNext (next : JsVal) (result : JsVal) (w : World)
  : Outcome * World :=
  if truthy next then
    match next with
    | JArr items =>
        if typeofObject (default JUndef (head items))
        then executeRoutes items result None w
        else executeAll items result None w
    | _ => executeTarget next result w
    end
  else (Returned JUndef, w).

Variable config : TaskConfig.
Variable taskName : string.
Variable data : JsVal.

(** [taskResult && typeof taskResult === 'object' && 'result' in
    taskResult && 'next' in taskResult]. *)
Definition carriesRoute (taskResult : JsVal) : bool :=
  truthy taskResult && typeofObject taskResult
  && default false (hasProp "result" taskResult)
  && default false (hasProp "next" taskResult).

(** [result] and [directNextTasks]. *)
Definition splitResult (taskResult : JsVal) : JsVal * JsVal :=
  if carriesRoute taskResult then
    (default JUndef (getProp taskResult "result"),
     default JUndef (getProp taskResult "next"))
  else (taskResult, JUndef).

(** Lines 948-952: the redirect, else the [next] of the return value. *)
Definition preferRedirect (taskRedirect directNextTasks : JsVal) : JsVal :=
  if isUndefined taskRedirect && negb (isUndefined directNextTasks)
  then directNextTasks else taskRedirect.

(** Lines 911-934: the timing is closed, the return value split, the
    task marked complete, the workflow saved, and the execution count
    emitted once more. *)
Definition recordCompletion (taskResult : JsVal) (w : World) : World :=
  let w1 := endTaskTiming taskName None w in
  let w2 := markTaskComplete taskName (splitResult taskResult).1 w1 in
  let w3 := persist eng w2 in
  emitTaskExecutionEvent taskName (getTaskExecutionCount taskName (ctx w3)) w3.

(** Lines 948-970: [nextTasks], from the redirect, else from the return
    value, else from the router. *)
Definition resolveNext (result directNextTasks : JsVal) (taskRedirect : JsVal) (w : World)
  : Completion * JsVal * World :=
  let nextTasks := preferRedirect taskRedirect directNextTasks in
  if isUndefined nextTasks then
    runBody eng taskName routeBundle None (route config result) taskRedirect
            (observe (RouteCalled taskName result) w)
  else (Resolved nextTasks, taskRedirect, w).

(** Lines 972-1012: the ["end"] route, else the dispatch, then the last
    save. *)
Definition followNext (nextTasks result : JsVal) (w : World) : Outcome * World :=
  if strictEqStr nextTasks "end" then (Returned result, persist eng w)
  else
    match dispatchNext nextTasks result w with
    | (Returned _, w1) => (Returned result, persist eng w1)
    | other => other
    end.

(** The [try] block from the point where [execute] has resolved with
    [taskResult]. *)
Definition afterExecute (taskResult : JsVal) (taskRedirect : JsVal) (w : World)
  : Outcome * JsVal * World :=
  let '(result, directNextTasks) := splitResult taskResult in
  let w1 := recordCompletion taskResult w in
  if hardAborted (ctx w1) then (Returned result, taskRedirect, w1)
  else
    match resolveNext result directNextTasks taskRedirect w1 with
    | (Rejected e, taskRedirect1, w2) => (Thrown e, taskRedirect1, w2)
    | (Resolved nextTasks, taskRedirect1, w2) =>
        let '(outcome, w3) := followNext nextTasks result w2 in
        (outcome, taskRedirect1, w3)
    end.

(** The whole [try] block of one attempt. *)
Definition tryAttempt (taskRedirect : JsVal) (w : World) : Outcome * JsVal * World :=
  match invokeExecute eng config taskName data taskRedirect w with
  | (Rejected e, taskRedirect1, w1) => (Thrown e, taskRedirect1, w1)
  | (Resolved taskResult, taskRedirect1, w1) =>
      afterExecute taskResult taskRedirect1 w1
  end.

(** The end of the [catch] block, lines 1087-1090, followed by the
    next turn of the loop when the error is not rethrown. *)
Definition rethrowOrLoop (e : Err) (attempt : nat)
    (again : World → Outcome * World) (w : World) : Outcome * World :=
  if (retries config <? attempt)%nat then (Thrown e, w) else again w.

(** The [onError] part of the [catch] block, lines 1023-1085, with
    [attempt] already incremented.  An exception inside the inner
    [try] is logged and execution goes on after it. *)
Definition handleError (handler : Err → JsVal → TaskBody) (e : Err) (attempt : nat)
    (again : World → Outcome * World) (w : World) : Outcome * World :=
  match runBody eng taskName onErrorBundle None (handler e data) JUndef
                (observe (OnErrorCalled taskName e) w) with
  | (Rejected _, _, w1) => rethrowOrLoop e attempt again w1
  | (Resolved errorResult, _, w1) =>
      match getProp errorResult "retry" with
      | None => rethrowOrLoop e attempt again w1
      | Some retry =>
          if truthy retry && (attempt <=? retries config)%nat then again w1
          else
            let result := default JUndef (getProp errorResult "result") in
            if isUndefined result then rethrowOrLoop e attempt again w1
            else
              let w2 := persist eng (markTaskComplete taskName result w1) in
              match dispatchErrorNext
                      (default JUndef (getProp errorResult "next")) result w2 with
              | (Returned _, w3) => (Returned result, w3)
              | (Thrown _, w3) => rethrowOrLoop e attempt again w3
              | (OutOfFuel, w3) => (OutOfFuel, w3)
              end
      end
  end.

(** The [catch] block, with [attempt] already incremented. *)
Definition catchAttempt (e : Err) (attempt : nat)
    (again : World → Outcome * World) (w : World) : Outcome * World :=
  let w1 := endTaskTiming taskName (Some e) w in
  if isBreakpointError e then (Returned JUndef, w1)
  else
    match onError config with
    | Some handler => handleError handler e attempt again w1
    | None => rethrowOrLoop e attempt again w1
    end.

(** [while (attempt <= (config.retryCount || 0)) { try ... catch ... }].
    [turns] bounds the number of turns; [retries config + 1] is
    enough, since each turn that does not leave increments [attempt].
    A loop that ends by its condition falls off the end of the
    function, which returns [undefined]. *)
Fixpoint attemptLoop (turns : nat) (attempt : nat) (taskRedirect : JsVal) (w : World)
  : Outcome * World :=
  if (attempt <=? retries config)%nat then
    match turns with
    | 0 => (OutOfFuel, w)
    | S turns' =>
        match tryAttempt taskRedirect w with
        | (Thrown e, taskRedirect1, w1) =>
            catchAttempt e (attempt + 1)
                         (attemptLoop turns' (attempt + 1) taskRedirect1) w1
        | (other, _, w1) => (other, w1)
        end
    end
  else (Returned JUndef, w).

End Attempts.

(** [every(dep => this.executionContext.isTaskComplete(dep))] under the
    guard [config.dependencies && ...]. *)
Definition dependenciesMet (config : TaskConfig) (c : ExecutionContext) : bool :=
  match dependencies config with
  | Some deps => forallb (λ dep, isTaskComplete dep c) deps
  | None => true
  end.

(** [WorkflowEngine.executeTask].  [fuel] bounds the depth of the chain
    of successor calls. *)
Fixpoint executeTask (eng : Engine) (fuel : nat) (taskName : string) (data : JsVal)
    (w : World) : Outcome * World :=
  match fuel with
  | 0 => (OutOfFuel, w)
  | S fuel' =>
      if hardAborted (ctx w) then (Returned JUndef, w)
      else
        match tasks eng !! taskName with
        | None =>
            (Thrown (TaskNotFound (JStr taskName)),
             endTaskTiming taskName (Some (TaskNotFound (JStr taskName))) w)
        | Some config =>
            if negb (dependenciesMet config (ctx w)) then (Returned JUndef, w)
            else
              let w1 := if isTaskComplete taskName (ctx w)
                        then resetTaskCompletion taskName w else w in
              if isTaskRunning taskName (ctx w1) then (Returned JUndef, w1)
              else
                let w2 :=
                  withCtx (withState (λ s,
                    mkState (completedTasks s) ({[taskName]} ∪ runningTasks s)
                            (taskData s) (breakpointId s) (breakpointData s)
                            (breakpointTask s))) w1 in
                let w3 := startTaskTiming taskName w2 in
                attemptLoop eng (executeTask eng fuel') config taskName data
                            (S (retries config)) 0 JUndef w3
        end
  end.

(** [WorkflowEngine.task]: registration. *)
Definition task (name : string) (config : TaskConfig) (eng : Engine) : Engine :=
  mkEngine (<[name := config]> (tasks eng)) (persistence eng).

(** [WorkflowEngine.abort]. *)
Definition abort (eng : Engine) (graceful : bool) (w : World) : World :=
  persist eng (abortWorkflow graceful w).

(** [WorkflowEngine.start], the context merge left out. *)
Definition start (eng : Engine) (fuel : nat) (initialTask : string) (initialData : JsVal)
    (w : World) : Outcome * World :=
  executeTask eng fuel initialTask initialData w.

End Workflow.

(** ** What is observed of a run *)

Module Observations.
Import Workflow.

(** The [taskExecution] events of a trace, in order. *)
Definition taskExecutionEvents (tr : list Obs) : list (string * nat) :=
  omap (λ o, match o with TaskExecutionEvent n c => Some (n, c) | _ => None end) tr.

(** The calls of [execute] in a trace, by task name. *)
Definition executeCalls (tr : list Obs) : list string :=
  omap (λ o, match o with ExecuteCalled n _ => Some n | _ => None end) tr.

(** The world in which [executeTask] reaches the attempt loop of a task:
    no hard abort, the dependencies complete, the task not running. *)
Definition dispatchable (config : TaskConfig) (taskName : string) (w : World) : Prop :=
  hardAborted (ctx w) = false
  ∧ dependenciesMet config (ctx w) = true
  ∧ taskName ∉ runningTasks (state (ctx w)).

(** [execute] throws, whatever the state it is called in, and what it
    throws is not a [BreakpointError]. *)
Definition alwaysThrows (eng : Engine) (config : TaskConfig) (taskName : string)
    (data : JsVal) : Prop :=
  ∀ taskRedirect w, ∃ e taskRedirect1 w1,
    invokeExecute eng config taskName data taskRedirect w = (Rejected e, taskRedirect1, w1)
    ∧ isBreakpointError e = false.

(** [execute] throws the error [e], whatever the state it is called in. *)
Definition alwaysThrowsError (eng : Engine) (config : TaskConfig) (taskName : string)
    (data : JsVal) (e : Err) : Prop :=
  ∀ taskRedirect w, ∃ taskRedirect1 w1,
    invokeExecute eng config taskName data taskRedirect w = (Rejected e, taskRedirect1, w1).

(** The handler throws, or returns something without a [result]. *)
Definition suppliesNoResult (eng : Engine) (taskName : string)
    (handler : Err → JsVal → TaskBody) (data : JsVal) : Prop :=
  ∀ e w, match (runBody eng taskName onErrorBundle None (handler e data) JUndef w).1.1 with
         | Resolved errorResult => default JUndef (getProp errorResult "result") = JUndef
         | Rejected _ => True
         end.

(** In a trace, no call of the error handler of a task comes before a
    call of [execute]: the retries are over when the handler runs. *)
Fixpoint handlerAfterRetries (tr : list Obs) : bool :=
  match tr with
  | [] => true
  | OnErrorCalled _ _ :: rest =>
      forallb (λ o, match o with ExecuteCalled _ _ => false | _ => true end) rest
      && handlerAfterRetries rest
  | _ :: rest => handlerAfterRetries rest
  end.

(** The world at the head of the attempt loop: the completion reset, the
    task added to [runningTasks], the timing started. *)
Definition enter (taskName : string) (w : World) : World :=
  let w1 := if isTaskComplete taskName (ctx w)
            then resetTaskCompletion taskName w else w in
  startTaskTiming taskName
    (withCtx (withState (λ s,
       mkState (completedTasks s) ({[taskName]} ∪ runningTasks s)
               (taskData s) (breakpointId s) (breakpointData s)
               (breakpointTask s))) w1).

End Observations.

(** ** Sample tasks and engines *)

Module Samples.
Import Workflow.

(** The default router, [() => undefined]. *)
Definition noRoute : JsVal → TaskBody := λ _, Return JUndef.

(** A task that throws on every invocation. *)
Definition failing : TaskConfig :=
  mkTask (λ _, Throw (UserError "boom")) noRoute None (Some 0) None None.

Definition failingEngine : Engine := task "F" failing (mkEngine ∅ false).

(** A handler that asks for a retry every time. *)
Definition retrying : TaskConfig :=
  mkTask (λ _, Throw (UserError "boom")) noRoute None (Some 1) None
         (Some (λ _ _, Return (JObj [("retry", JBool true)]))).

Definition retryingEngine : Engine := task "F" retrying (mkEngine ∅ false).

(** A task whose router ends the workflow, registered next to another
    task. *)
Definition ending : TaskConfig :=
  mkTask (λ _, Return (JStr "r")) (λ _, Return (JStr "end")) None (Some 0) None None.

Definition endingEngine : Engine :=
  task "B" ending (task "C" failing (mkEngine ∅ true)).

(** A task that interrupts and, should [interrupt] return, goes on to
    return ["r"]: with and without a timeout. *)
Definition interrupting (timeout : option Z) : TaskConfig :=
  mkTask (λ _, Interrupt (JObj [("q", JStr "continue?")]) (Return (JStr "r")))
         noRoute None (Some 0) timeout None.

Definition interruptEngine (timeout : option Z) : Engine :=
  task "H" (interrupting timeout) (mkEngine ∅ true).

(** A task that completes at once and whose router ends the workflow. *)
Definition completing : TaskConfig :=
  mkTask (λ _, Return (JStr "hi done")) (λ _, Return (JStr "end")) None (Some 0) None None.

Definition completingEngine : Engine := task "B" completing (mkEngine ∅ false).

(** A task that aborts the workflow, not gracefully, and returns. *)
Definition aborting : TaskConfig :=
  mkTask (λ _, Abort false (Return (JStr "r"))) (λ _, Return (JStr "C"))
         None (Some 0) None None.

Definition abortingEngine : Engine := task "A" aborting (mkEngine ∅ false).

(** A task that throws on its first attempt and returns ["ok"] on the
    second: it reads its timing record, which the first failure has
    marked. *)
Definition flaky : TaskConfig :=
  mkTask (λ _, Inspect (λ c,
            match taskTimings c !! "F" with
            | Some [timing] =>
                match status timing with
                | failed => Return (JStr "ok")
                | success => Throw (UserError "first")
                end
            | _ => Throw (UserError "no timing")
            end))
         noRoute None (Some 2) None None.

Definition flakyEngine : Engine := task "F" flaky (mkEngine ∅ false).

(** A task that fans out to two routes, each with its own data. *)
Definition fanning : TaskConfig :=
  mkTask (λ _, Return (JObj [("result", JStr "r");
                             ("next", JArr [JObj [("task", JStr "X"); ("data", JNum 1)];
                                            JObj [("task", JStr "Y"); ("data", JNum 2)]])]))
         noRoute None (Some 0) None None.

(** A task that returns its input. *)
Definition leaf : TaskConfig := mkTask (λ d, Return d) noRoute None (Some 0) None None.

Definition fanningEngine : Engine :=
  task "T" fanning (task "X" leaf (task "Y" leaf (mkEngine ∅ false))).

End Samples.

(** ** Successors: the spec's reading, and sample tasks *)

Module Successors.
Import Workflow.

(** A body that calls [redirectTo] on each of [targets] in turn and
    then goes on as [k]. *)
Definition redirects (targets : list JsVal) (k : TaskBody) : TaskBody :=
  foldr RedirectTo k targets.

(** The calls of [route] in a trace, with the result each received. *)
Definition routeCalls (tr : list Obs) : list (string * JsVal) :=
  omap (λ o, match o with RouteCalled n r => Some (n, r) | _ => None end) tr.

(** The spec's reading of a return value: if it is [{result, next}],
    both are extracted; otherwise it is the result and [next] is
    undefined. *)
Definition specReturnValue (taskResult : JsVal) : JsVal * JsVal :=
  match taskResult with
  | JObj props =>
      match lookupProp "result" props, lookupProp "next" props with
      | Some result, Some next => (result, next)
      | _, _ => (taskResult, JUndef)
      end
  | _ => (taskResult, JUndef)
  end.

(** The spec's priority order: (i) the [redirectTo] argument, (ii) the
    [next] of the return value, (iii) the router's returned value. *)
Definition specDestination (redirect next routed : JsVal) : JsVal :=
  match redirect, next with
  | JUndef, JUndef => routed
  | JUndef, _ => next
  | _, _ => redirect
  end.

(** The router is asked only when (i) and (ii) give nothing. *)
Definition specRouterAsked (redirect next : JsVal) : bool :=
  match redirect, next with
  | JUndef, JUndef => true
  | _, _ => false
  end.

(** A task that redirects to ["B"], returns a result whose [next] is
    ["C"], and has a router that says ["D"]. *)
Definition handing : TaskConfig :=
  mkTask (λ _, RedirectTo (JStr "B")
                 (Return (JObj [("result", JStr "r"); ("next", JStr "C")])))
         (λ _, Return (JStr "D")) None (Some 0) None None.

(** A task that returns its input together with the [next] ["end"],
    and has a router that says ["A"]. *)
Definition closing : TaskConfig :=
  mkTask (λ d, Return (JObj [("result", d); ("next", JStr "end")]))
         (λ _, Return (JStr "A")) None (Some 0) None None.

Definition handingEngine : Engine :=
  task "A" handing (task "B" closing (mkEngine ∅ true)).

End Successors.

(** ** The agent graph and two of its edge-pattern handlers *)

Module Graph.

(** The fields of a node the handlers read. *)
Record GraphNode : Type := mkNode {
  name : string;
  enableReasoning : bool
}.

(** Modelled from the spec: [NodeState] ([./types]), with the fields the
    spec lists for a node state. *)
Record NodeState : Type := mkNodeState {
  nodeName : string;
  input : string;
  output : string;
  nodeStatus : string
}.

(** [MessageResponse]. *)
Record MessageResponse : Type := mkResponse {
  nodeId : nat;
  response : string
}.

(** [graph.executionState] and the node states. *)
Record GraphState : Type := mkGraphState {
  results : gmap string string;
  completed : gset string;
  nodeStates : list NodeState
}.

(** What the handlers do that can be seen from outside: the calls that
    run a node, and the events emitted on [graph.events]. *)
Inductive Call : Type :=
| NodeExecuted (nodeName : string) (input : string)
| AgentMessage (nodeId : nat) (nodeName : string) (prompt : string)
| ReasoningStep (nodeName : string) (input : string)
| ReasoningEvent (nodeId : nat) (nodeKey : string) (reasoning : string).

(** The graph state, the [responses] array the caller passed in, the
    calls so far, and the supply of [uuidv4()] identifiers. *)
Record World : Type := mkWorld {
  graph : GraphState;
  responses : list MessageResponse;
  calls : list Call;
  uuids : nat
}.

(** A computation that may throw. *)
Definition M (A : Type) : Type := World → (A + string) * World.

Definition ret {A} (a : A) : M A := λ w, (inl a, w).

Definition bind {A B} (m : M A) (f : A → M B) : M B :=
  λ w, match m w with
       | (inl a, w1) => f a w1
       | (inr e, w1) => (inr e, w1)
       end.

Notation "'let*' x ':=' m 'in' k" := (bind m (λ x, k))
  (at level 10, x name, m at level 100, k at level 200).
Notation "'run' m 'then' k" := (bind m (λ _, k))
  (at level 10, m at level 100, k at level 200).

Definition modify (f : World → World) : M unit := λ w, (inl tt, f w).

Definition record (c : Call) : M unit :=
  modify (λ w, mkWorld (graph w) (responses w) (calls w ++ [c]) (uuids w)).

Definition uuidv4 : M nat :=
  λ w, (inl (uuids w), mkWorld (graph w) (responses w) (calls w) (S (uuids w))).

Definition pushResponse (r : MessageResponse) : M unit :=
  modify (λ w, mkWorld (graph w) (responses w ++ [r]) (calls w) (uuids w)).

Definition getNodeStates : M (list NodeState) := λ w, (inl (nodeStates (graph w)), w).

Definition updateGraph (f : GraphState → GraphState) : M unit :=
  modify (λ w, mkWorld (f (graph w)) (responses w) (calls w) (uuids w)).

(** [executionState.results.set(k, v)] and [executionState.completed.add(k)]. *)
Definition setResult (k v : string) : M unit :=
  updateGraph (λ g, mkGraphState (<[k := v]> (results g)) (completed g) (nodeStates g)).

Definition addCompleted (k : string) : M unit :=
  updateGraph (λ g, mkGraphState (results g) ({[k]} ∪ completed g) (nodeStates g)).

(** An edge with its pattern-specific configuration. *)
Record GraphEdge (C : Type) : Type := mkEdge {
  from : string;
  to : string;
  config : option C
}.
Arguments mkEdge {C} _ _ _.
Arguments from {C} _.
Arguments to {C} _.
Arguments config {C} _.

(** The configuration of a [condition] edge.  The function returns any
    value, a promise included. *)
Record ConditionConfig : Type := mkConditionConfig {
  condition : option (string → list NodeState → JsVal)
}.

(** The configuration of a [loop] edge.  The transforms are taken with
    the [String(await ...)] around them. *)
Record LoopConfig : Type := mkLoopConfig {
  maxIterations : option Z;
  stopCondition : option (string → bool);
  inputTransform : option (string → list NodeState → string);
  outputTransform : option (list string → list NodeState → string)
}.

(** The methods of [AgentGraph] ([./agent-graph]) the handlers call,
    taken as given: each acts on the graph state (the node execution
    also on the [responses] array) and may throw.  [recover] is what
    [withFallback] does with an error of the edge whose nodes are [from]
    and [to].  The calls a method makes in turn are its own business:
    [calls] holds the calls of the handler. *)
Record AgentGraph : Type := mkGraph {
  nodes : gmap string GraphNode;
  shouldStop : option (string → bool) → string → GraphState → (bool + string) * GraphState;
  processReasoningStep : GraphNode → string → GraphState → (string + string) * GraphState;
  processAgentMessage :
    nat → GraphNode → string → GraphState → (string + string) * GraphState;
  executeNodeBody :
    string → string → GraphState * list MessageResponse →
    (unit + string) * (GraphState * list MessageResponse);
  recover :
    string → string → string → GraphState * list MessageResponse →
    (unit + string) * (GraphState * list MessageResponse)
}.

Section Methods.

Variable g : AgentGraph.

(** Lifts a graph method to a computation on the world. *)
Definition onGraph {A} (f : GraphState → (A + string) * GraphState) : M A :=
  λ w, let '(r, g1) := f (graph w) in
       (r, mkWorld g1 (responses w) (calls w) (uuids w)).

(** The same for a method that also receives the [responses] array. *)
Definition onGraphAndResponses {A}
    (f : GraphState * list MessageResponse →
         (A + string) * (GraphState * list MessageResponse)) : M A :=
  λ w, let '(r, (g1, rs1)) := f (graph w, responses w) in
       (r, mkWorld g1 rs1 (calls w) (uuids w)).

Definition getNode (k : string) : option GraphNode := nodes g !! k.

Definition executeNode (k : string) (inp : string) : M unit :=
  run record (NodeExecuted k inp) then onGraphAndResponses (executeNodeBody g k inp).

(** Modelled from the spec: [AgentGraph.withFallback] runs [fn] and,
    on error, routes to the fallback node of the edge if it has one,
    else rethrows. *)
Definition withFallback {C A} (edge : GraphEdge C) (fn : M A) : M (option A) :=
  λ w, match fn w with
       | (inl a, w1) => (inl (Some a), w1)
       | (inr e, w1) =>
           match onGraphAndResponses (recover g (from edge) (to edge) e) w1 with
           | (inl _, w2) => (inl None, w2)
           | (inr e', w2) => (inr e', w2)
           end
       end.

End Methods.

(** *** [ConditionEdgeHandler] *)

Module ConditionEdgeHandler.

(** [edge.config?.condition?.({response, nodes})]: [undefined] when
    the configuration or the function is missing. *)
Definition conditionValue (edge : GraphEdge ConditionConfig) (sourceResponse : string)
    (nodeStates : list NodeState) : JsVal :=
  match config edge with
  | Some c =>
      match condition c with
      | Some f => f sourceResponse nodeStates
      | None => JUndef
      end
  | None => JUndef
  end.

(** The body of the [for] loop. *)
Definition handleEdge (g : AgentGraph) (sourceResponse : string)
    (edge : GraphEdge ConditionConfig) : M unit :=
  let* ns := getNodeStates in
  if truthy (conditionValue edge sourceResponse ns)
  then run withFallback g edge (executeNode g (to edge) sourceResponse) then ret tt
  else ret tt.

(** [ConditionEdgeHandler.handle]. *)
Fixpoint handle (g : AgentGraph) (edges : list (GraphEdge ConditionConfig))
    (sourceResponse : string) : M string :=
  match edges with
  | [] => ret sourceResponse
  | edge :: rest =>
      run handleEdge g sourceResponse edge then
      handle g rest sourceResponse
  end.

End ConditionEdgeHandler.

(** *** [LoopEdgeHandler] *)

Module LoopEdgeHandler.

Section Loop.

Variable g : AgentGraph.

(** The reasoning pre-step of a node, when it is enabled. *)
Definition reasoningFor (node : GraphNode) (nodeId : nat) (inp : string) : M string :=
  if enableReasoning node then
    run record (ReasoningStep (name node) inp) then
    let* r := onGraph (processReasoningStep g node inp) in
    run record (ReasoningEvent nodeId (name node) r) then
    ret r
  else ret "".

(** [reasoning ? `${reasoning}\n\n${input}` : input]. *)
Definition withReasoning (reasoning inp : string) : string :=
  if String.eqb reasoning "" then inp
  else reasoning ++ blankLine ++ inp.

(** One call of a node inside the loop, with its response pushed. *)
Definition runNode (node : GraphNode) (inp : string) : M string :=
  let* nodeId := uuidv4 in
  let* reasoning := reasoningFor node nodeId inp in
  run record (AgentMessage nodeId (name node) (withReasoning reasoning inp)) then
  let* r := onGraph (processAgentMessage g nodeId node (withReasoning reasoning inp)) in
  run pushResponse (mkResponse nodeId r) then
  ret r.

(** [while (iterations < maxIterations) { ... }], by the number of
    turns that remain.  Returns [currentResponse] and
    [loopResponses]. *)
Fixpoint loopTurns (remaining : nat) (c : LoopConfig) (toNode fromNode : GraphNode)
    (currentResponse : string) (loopResponses : list string)
  : M (string * list string) :=
  match remaining with
  | 0 => ret (currentResponse, loopResponses)
  | S remaining' =>
      let* stop := onGraph (shouldStop g (stopCondition c) currentResponse) in
      if stop : bool then ret (currentResponse, loopResponses)
      else
        let* ns := getNodeStates in
        let inp := match inputTransform c with
                   | Some f => f currentResponse ns
                   | None => currentResponse
                   end in
        let* toResponse := runNode toNode inp in
        let* fromResponse := runNode fromNode toResponse in
        loopTurns remaining' c toNode fromNode fromResponse
                  (loopResponses ++ [toResponse; fromResponse])
  end.

(** [edge.config ?? {}]. *)
Definition emptyConfig : LoopConfig := mkLoopConfig None None None None.

(** The function handed to [withFallback]: [None] when a node is
    missing and the function returns early, else the new
    [finalResponse]. *)
Definition handleEdge (sourceResponse : string) (edge : GraphEdge LoopConfig)
  : M (option string) :=
  let c := default emptyConfig (config edge) in
  let maxIter := default 3%Z (maxIterations c) in
  match getNode g (to edge), getNode g (from edge) with
  | Some toNode, Some fromNode =>
      let* looped :=
        loopTurns (Z.to_nat maxIter) c toNode fromNode sourceResponse [sourceResponse] in
      let loopResponses := looped.2 in
      let* ns := getNodeStates in
      let finalResponse := match outputTransform c with
                           | Some f => f loopResponses ns
                           | None => join blankLine loopResponses
                           end in
      run setResult (from edge) finalResponse then
      run addCompleted (to edge) then
      run addCompleted (from edge) then
      ret (Some finalResponse)
  | _, _ => ret None
  end.

(** The [for] loop, with the variable [finalResponse] threaded through
    the edges. *)
Fixpoint handleFrom (finalResponse : string) (edges : list (GraphEdge LoopConfig))
    (sourceResponse : string) : M string :=
  match edges with
  | [] => ret finalResponse
  | edge :: rest =>
      let* r := withFallback g edge (handleEdge sourceResponse edge) in
      handleFrom (default finalResponse (mjoin r)) rest sourceResponse
  end.

(** [LoopEdgeHandler.handle]. *)
Definition handle (edges : list (GraphEdge LoopConfig)) (sourceResponse : string)
  : M string :=
  handleFrom sourceResponse edges sourceResponse.

End Loop.

End LoopEdgeHandler.

End Graph.

(** ** A sample graph *)

Module GraphSamples.
Import Graph.

(** A graph of two nodes that answer with a fixed text; a failed node
    has no fallback. *)
Definition echoGraph : AgentGraph :=
  mkGraph {[ "writer" := mkNode "writer" false; "critic" := mkNode "critic" false ]}
          (λ _ _ s, (inl false, s))
          (λ _ _ s, (inl "thinking", s))
          (λ _ _ _ s, (inl "answer", s))
          (λ _ _ s, (inl tt, s))
          (λ _ _ e s, (inr e, s)).

Definition emptyWorld : World := mkWorld (mkGraphState ∅ ∅ []) [] [] 0.

(** An edge whose condition is an [async] function that resolves to
    [false]. *)
Definition asyncEdge : GraphEdge ConditionConfig :=
  mkEdge "writer" "critic"
         (Some (mkConditionConfig (Some (λ _ _, JPromise (JBool false))))).

(** A loop edge between two nodes of the graph, with no iteration. *)
Definition idleEdge : GraphEdge LoopConfig :=
  mkEdge "writer" "critic" (Some (mkLoopConfig (Some 0%Z) None None None)).

(** The graph of [echoGraph] with nodes that fail, and no fallback. *)
Definition brokenGraph : AgentGraph :=
  mkGraph (nodes echoGraph)
          (λ _ _ s, (inl false, s))
          (λ _ _ s, (inl "thinking", s))
          (λ _ _ _ s, (inl "answer", s))
          (λ _ _ s, (inr "node failed", s))
          (λ _ _ e s, (inr e, s)).

(** An edge whose condition holds. *)
Definition readyEdge : GraphEdge ConditionConfig :=
  mkEdge "writer" "critic" (Some (mkConditionConfig (Some (λ _ _, JBool true)))).

(** An edge without a condition. *)
Definition bareEdge : GraphEdge ConditionConfig := mkEdge "writer" "editor" None.

End GraphSamples.

(** ** What a run of the engine can change *)

Module Progress.
Import Workflow.

(** The timing records of a task, [this.taskTimings.get(taskName) || []]. *)
Definition timingsOf (taskName : string) (c : ExecutionContext) : list TaskTiming :=
  default [] (taskTimings c !! taskName).

(** [t.status === 'failed'], and the records that satisfy it. *)
Definition isFailed (timing : TaskTiming) : bool :=
  match status timing with failed => true | success => false end.

Definition failuresOf (taskName : string) (c : ExecutionContext) : nat :=
  length (List.filter isFailed (timingsOf taskName c)).

(** The bookkeeping of the workflow state is in order: no task is both
    completed and running, and every completed task has its data and
    has been counted. *)
Definition consistent (w : World) : Prop :=
  ∀ t, t ∈ completedTasks (state (ctx w)) →
       (t ∉ runningTasks (state (ctx w)))
       ∧ is_Some (taskData (state (ctx w)) !! t)
       ∧ (0 < getTaskExecutionCount t (ctx w))%nat.

(** One world comes after another in a run of [eng]: the trace has only
    grown at its end, the abort flag has not been cleared, no execution
    count, no number of timing records and no number of failed records
    has gone down, the names
    that entered [completedTasks], [runningTasks] or [taskData] are names
    of registered tasks, and the bookkeeping is in order if it was. *)
Record advances (eng : Engine) (w w' : World) : Prop := mkAdvances {
  adv_trace : trace w `prefix_of` trace w';
  adv_aborted : aborted (ctx w) = true → aborted (ctx w') = true;
  adv_counts : ∀ t, (getTaskExecutionCount t (ctx w) ≤ getTaskExecutionCount t (ctx w'))%nat;
  adv_uuids : (uuids w ≤ uuids w')%nat;
  adv_timings : ∀ t, (length (timingsOf t (ctx w)) ≤ length (timingsOf t (ctx w')))%nat;
  adv_failures : ∀ t, (failuresOf t (ctx w) ≤ failuresOf t (ctx w'))%nat;
  adv_completed : ∀ t, t ∈ completedTasks (state (ctx w')) →
                       t ∈ completedTasks (state (ctx w)) ∨ is_Some (tasks eng !! t);
  adv_running : ∀ t, t ∈ runningTasks (state (ctx w')) →
                     t ∈ runningTasks (state (ctx w)) ∨ is_Some (tasks eng !! t);
  adv_data : ∀ t, is_Some (taskData (state (ctx w')) !! t) →
                  is_Some (taskData (state (ctx w)) !! t) ∨ is_Some (tasks eng !! t);
  adv_consistent : consistent w → consistent w'
}.

End Progress.

(** ** Tasks that behave the same on every attempt *)

Module Scenarios.
Import Workflow.

(** [execute] returns [v] and does nothing else, whatever the state it
    is called in. *)
Definition alwaysReturns (eng : Engine) (config : TaskConfig) (taskName : string)
    (data : JsVal) (v : JsVal) : Prop :=
  ∀ taskRedirect w,
    invokeExecute eng config taskName data taskRedirect w
    = (Resolved v, taskRedirect, observe (ExecuteCalled taskName data) w).

(** The error handler returns [errorResult] and does nothing else. *)
Definition handlerReturns (eng : Engine) (taskName : string)
    (handler : Err → JsVal → TaskBody) (data : JsVal) (errorResult : JsVal) : Prop :=
  ∀ e w,
    runBody eng taskName onErrorBundle None (handler e data) JUndef w
    = (Resolved errorResult, JUndef, w).

(** The calls of the error handler in a trace, by task name. *)
Definition onErrorCalls (tr : list Obs) : list string :=
  omap (λ o, match o with OnErrorCalled n _ => Some n | _ => None end) tr.

(** A task that returns ["r"] and routes to a task nobody registered,
    with two retries. *)
Definition relaying : TaskConfig :=
  mkTask (λ _, Return (JStr "r")) (λ _, Return (JStr "missing")) None (Some 2) None None.

Definition relayingEngine : Engine := task "R" relaying (mkEngine ∅ false).

(** A task that throws, with two retries and a handler that supplies a
    result: once asking for the retries, once not. *)
Definition rescued (retry : bool) : TaskConfig :=
  mkTask (λ _, Throw (UserError "boom")) (λ _, Return JUndef) None (Some 2) None
         (Some (λ _ _, Return (JObj [("retry", JBool retry); ("result", JStr "fallback")]))).

Definition rescuedEngine (retry : bool) : Engine :=
  task "F" (rescued retry) (mkEngine ∅ false).

End Scenarios.

(** ** The timing summaries *)

(** [getTaskTimingSummary] and [getMainTimingSummary], without the
    fields computed from the clock (the durations and the slowest
    task) and without [highestFailureTask], which depends on the
    order in which the timing map was filled. *)

Module Timing.
Import Workflow Progress.

(** The entry of one task in [getTaskTimingSummary]. *)
Record TaskStats : Type := mkStats {
  attempts : nat;
  failures : nat
}.

Definition statsOf (timings : list TaskTiming) : TaskStats :=
  mkStats (length timings) (length (List.filter isFailed timings)).

Definition getTaskTimingSummary (c : ExecutionContext) : gmap string TaskStats :=
  statsOf <$> taskTimings c.

(** The variables the [forEach] of [getMainTimingSummary] updates. *)
Record Totals : Type := mkTotals {
  runs : nat;
  fails : nat;
  failedCount : nat
}.

(** The body of the [forEach], for one entry. *)
Definition accumulate (stats : TaskStats) (acc : Totals) : Totals :=
  mkTotals (runs acc + attempts stats)
           (fails acc + failures stats)
           (if (0 <? failures stats)%nat then S (failedCount acc) else failedCount acc).

Definition totalsOf (taskSummary : gmap string TaskStats) : Totals :=
  map_fold (λ _ stats acc, accumulate stats acc) (mkTotals 0 0 0) taskSummary.

Record MainTimingSummary : Type := mkSummary {
  totalRuns : nat;
  totalFailures : nat;
  totalTasks : nat;
  completedTasks : nat;
  failedTasks : nat;
  status : TimingStatus
}.

Definition getMainTimingSummary (c : ExecutionContext) : MainTimingSummary :=
  let taskSummary := getTaskTimingSummary c in
  let totals := totalsOf taskSummary in
  let totalTasks := size taskSummary in
  mkSummary (runs totals) (fails totals) totalTasks
            (totalTasks - failedCount totals) (failedCount totals)
            (if aborted c || (0 <? failedCount totals)%nat then failed else success).

End Timing.

(** ** Durations as strings *)

(** [formatDuration] and [parseDurationToMs], on whole numbers of
    milliseconds: a duration is the difference of two [Date.now()]
    readings, or a sum of such.  The two branches of [formatDuration]
    that call [toFixed] are left out ([None]).  [parseFloat] is taken
    on the strings that begin with a decimal digit and whose digits are
    not followed by [.], [e] or [E]; [None] stands for every other
    string.  A whole number is a JS number as it is up to [2^53]:
    [None] also stands for what lies above and would be rounded. *)

Module Durations.
Import Stdlib.Strings.Ascii.

(** The value of a decimal digit. *)
Definition digitOf (c : ascii) : option N :=
  let n := N_of_ascii c in
  if (48 <=? n)%N && (n <=? 57)%N then Some (n - 48)%N else None.

(** Reads the decimal digits at the head of a string: their value on
    top of [acc], and what follows them. *)
Fixpoint digitsPrefix (acc : N) (s : string) : N * string :=
  match s with
  | String c rest =>
      match digitOf c with
      | Some d => digitsPrefix (acc * 10 + d) rest
      | None => (acc, s)
      end
  | EmptyString => (acc, s)
  end.

(** A character after which the digits read so far are not the whole
    numeric literal. *)
Definition continuesNumber (c : ascii) : bool :=
  (Ascii.eqb c "." || Ascii.eqb c "e" || Ascii.eqb c "E")%char.

(** A whole number that a JS number holds exactly. *)
Definition wholeNumber (n : N) : option N :=
  if (n <=? 2 ^ 53)%N then Some n else None.
Arguments wholeNumber : simpl never.

Definition parseFloat (value : string) : option N :=
  match value with
  | String c _ =>
      match digitOf c with
      | Some _ =>
          match digitsPrefix 0 value with
          | (n, String c' _) => if continuesNumber c' then None else wholeNumber n
          | (n, EmptyString) => wholeNumber n
          end
      | None => None
      end
  | EmptyString => None
  end.

(** [s.split(sep)] for a separator of one character. *)
Fixpoint split (sep : ascii) (s : string) : list string :=
  match s with
  | EmptyString => [""]
  | String c rest =>
      if Ascii.eqb c sep then "" :: split sep rest
      else
        match split sep rest with
        | first :: others => String c first :: others
        | [] => [String c ""]
        end
  end.

(** [`${ms}ms`] when [ms < 1000]. *)
Definition formatDuration (ms : N) : option string :=
  if (ms <? 1000)%N then Some (pretty ms +:+ "ms") else None.

(** [ExecutionContext.parseDurationToMs]: [unit] is [undefined] when
    the string holds no space. *)
Definition parseDurationToMs (duration : string) : option N :=
  let parts := split " " duration in
  let value := default "" (head parts) in
  let unit := parts !! 1 in
  let multiplier :=
    match unit with
    | Some u => if String.eqb u "ms" then 1%N
                else if String.eqb u "s" then 1000%N else 60000%N
    | None => 60000%N
    end in
  parseFloat value ≫= λ n, wholeNumber (n * multiplier).

End Durations.

(** ** Three more edge-pattern handlers *)

Module Handlers.
Import Graph.

(** *** [SequentialEdgeHandler] *)

Module SequentialEdgeHandler.

(** The configuration of a [sequential] edge. *)
Record SequentialConfig : Type := mkSequentialConfig {
  priority : option Z
}.

(** [edge.config?.priority ?? 0]. *)
Definition priorityOf (edge : GraphEdge SequentialConfig) : Z :=
  match config edge with
  | Some c => default 0%Z (priority c)
  | None => 0%Z
  end.

(** [edges.sort((a, b) => priorityOf(a) - priorityOf(b))].  The sort of
    an array is stable; it is taken here as the insertion sort that
    puts an edge in front of the first edge whose priority is not
    smaller. *)
Fixpoint insertEdge (edge : GraphEdge SequentialConfig)
    (sorted : list (GraphEdge SequentialConfig)) : list (GraphEdge SequentialConfig) :=
  match sorted with
  | [] => [edge]
  | x :: rest =>
      if (priorityOf edge <=? priorityOf x)%Z then edge :: x :: rest
      else x :: insertEdge edge rest
  end.

Definition sort (edges : list (GraphEdge SequentialConfig))
  : list (GraphEdge SequentialConfig) :=
  foldr insertEdge [] edges.

(** The [for] loop. *)
Fixpoint runEdges (g : AgentGraph) (edges : list (GraphEdge SequentialConfig))
    (sourceResponse : string) : M unit :=
  match edges with
  | [] => ret tt
  | edge :: rest =>
      run withFallback g edge (executeNode g (to edge) sourceResponse) then
      runEdges g rest sourceResponse
  end.

(** [SequentialEdgeHandler.handle]. *)
Definition handle (g : AgentGraph) (edges : list (GraphEdge SequentialConfig))
    (sourceResponse : string) : M string :=
  run runEdges g (sort edges) sourceResponse then ret sourceResponse.

End SequentialEdgeHandler.

(** *** [ParallelEdgeHandler] *)

Module ParallelEdgeHandler.

(** [await Promise.all(edges.map(edge => withFallback(edge, ...)))],
    with the branches run one after the other in array order: every
    branch runs, and the first rejection is the rejection of the
    whole. *)
Fixpoint settleAll {C} (g : AgentGraph) (edges : list (GraphEdge C))
    (sourceResponse : string) (first : option string) : M unit :=
  match edges with
  | [] => λ w, (match first with Some e => inr e | None => inl tt end, w)
  | edge :: rest =>
      λ w, match withFallback g edge (executeNode g (to edge) sourceResponse) w with
           | (inl _, w1) => settleAll g rest sourceResponse first w1
           | (inr e, w1) => settleAll g rest sourceResponse (Some (default e first)) w1
           end
  end.

(** [ParallelEdgeHandler.handle]. *)
Definition handle {C} (g : AgentGraph) (edges : list (GraphEdge C))
    (sourceResponse : string) : M string :=
  run settleAll g edges sourceResponse None then ret sourceResponse.

End ParallelEdgeHandler.

(** *** [RevisionEdgeHandler] *)

Module RevisionEdgeHandler.

(** The configuration of a [revision] edge. *)
Record RevisionConfig : Type := mkRevisionConfig {
  maxIterations : option Z;
  stopCondition : option (string → bool);
  revisionPrompt : option (string → list NodeState → string)
}.

(** [edge.config ?? {}]. *)
Definition emptyConfig : RevisionConfig := mkRevisionConfig None None None.

(** The prompt used when the configuration has none. *)
Definition defaultPrompt (response : string) (nodes : list NodeState) : string :=
  "Please review and improve the following response: " ++ response.

Section Revision.

Variable g : AgentGraph.

(** [while (iterations < maxIterations) { ... }], by the number of
    turns that remain.  Returns [currentResponse]. *)
Fixpoint reviseTurns (remaining : nat) (c : RevisionConfig) (edge : GraphEdge RevisionConfig)
    (currentResponse : string) : M string :=
  match remaining with
  | 0 => ret currentResponse
  | S remaining' =>
      let* stop := onGraph (shouldStop g (stopCondition c) currentResponse) in
      if stop : bool then ret currentResponse
      else
        match getNode g (to edge) with
        | None => ret currentResponse
        | Some nextNode =>
            let* nodeId := uuidv4 in
            let* reasoning :=
              LoopEdgeHandler.reasoningFor g nextNode nodeId currentResponse in
            let* ns := getNodeStates in
            let prompt := default defaultPrompt (revisionPrompt c) currentResponse ns in
            let promptInput := LoopEdgeHandler.withReasoning reasoning prompt in
            run record (AgentMessage nodeId (name nextNode) promptInput) then
            let* r := onGraph (processAgentMessage g nodeId nextNode promptInput) in
            run pushResponse (mkResponse nodeId r) then
            reviseTurns remaining' c edge r
        end
  end.

(** The function handed to [withFallback]: the new [finalResponse]. *)
Definition handleEdge (sourceResponse : string) (edge : GraphEdge RevisionConfig)
  : M string :=
  let c := default emptyConfig (config edge) in
  let maxIter := default 3%Z (maxIterations c) in
  let* currentResponse := reviseTurns (Z.to_nat maxIter) c edge sourceResponse in
  run setResult (to edge) currentResponse then
  run addCompleted (to edge) then
  ret currentResponse.

(** The [for] loop, with the variable [finalResponse] threaded through
    the edges. *)
Fixpoint handleFrom (finalResponse : string) (edges : list (GraphEdge RevisionConfig))
    (sourceResponse : string) : M string :=
  match edges with
  | [] => ret finalResponse
  | edge :: rest =>
      let* r := withFallback g edge (handleEdge sourceResponse edge) in
      handleFrom (default finalResponse r) rest sourceResponse
  end.

(** [RevisionEdgeHandler.handle]. *)
Definition handle (edges : list (GraphEdge RevisionConfig)) (sourceResponse : string)
  : M string :=
  handleFrom sourceResponse edges sourceResponse.

End Revision.

End RevisionEdgeHandler.

End Handlers.

(** ** Order *)

Module Order.

(** A list of numbers in which none is smaller than one before it. *)
Fixpoint ascending (keys : list Z) : Prop :=
  match keys with
  | [] => True
  | k :: rest => Forall (λ k', (k ≤ k')%Z) rest ∧ ascending rest
  end.

End Order.

(** ** Sample edges *)

Module HandlerSamples.
Import Graph GraphSamples Handlers.

(** A loop edge between the two nodes of the sample graph, with one
    turn. *)
Definition oneTurnEdge : GraphEdge LoopConfig :=
  mkEdge "writer" "critic" (Some (mkLoopConfig (Some 1%Z) None None None)).

(** A revision edge to a node of the sample graph, with two turns, and
    one to a node the graph does not have. *)
Definition reviseTwice : GraphEdge RevisionEdgeHandler.RevisionConfig :=
  mkEdge "writer" "critic"
         (Some (RevisionEdgeHandler.mkRevisionConfig (Some 2%Z) None None)).

Definition reviseNowhere : GraphEdge RevisionEdgeHandler.RevisionConfig :=
  mkEdge "writer" "ghost" None.

End HandlerSamples.

(** ** Markdown content *)

(** [normalizeContent] and [removeIncompleteTags], which
    [MarkdownContent] applies in this order before it serializes.  A
    string is the sequence of its characters; the two functions look
    at four of them only. *)

Module Markdown.
Import Stdlib.Strings.Ascii.

(** The line feed. *)
Definition newline : ascii := ascii_of_nat 10.

(** [content.replace(/\\n/g, '\n')]: every backslash followed by [n],
    from left to right, becomes a line feed. *)
Fixpoint normalizeContent (content : string) : string :=
  match content with
  | String c rest =>
      match rest with
      | String c' rest' =>
          if Ascii.eqb c "\" && Ascii.eqb c' "n"
          then String newline (normalizeContent rest')
          else String c (normalizeContent rest)
      | EmptyString => String c EmptyString
      end
  | EmptyString => EmptyString
  end.

(** Whether a backslash followed by [n] occurs. *)
Fixpoint hasEscapedNewline (s : string) : bool :=
  match s with
  | String c rest =>
      match rest with
      | String c' _ => Ascii.eqb c "\" && Ascii.eqb c' "n" || hasEscapedNewline rest
      | EmptyString => false
      end
  | EmptyString => false
  end.

(** [s.lastIndexOf(c)]: [None] for [-1]. *)
Fixpoint lastIndexOf (c : ascii) (s : string) : option nat :=
  match s with
  | EmptyString => None
  | String x rest =>
      match lastIndexOf c rest with
      | Some i => Some (S i)
      | None => if Ascii.eqb x c then Some 0 else None
      end
  end.

(** [s.substring(start)] and [s.substring(0, stop)]. *)
Fixpoint substringFrom (start : nat) (s : string) : string :=
  match start, s with
  | 0, _ => s
  | S start', String _ rest => substringFrom start' rest
  | S _, EmptyString => EmptyString
  end.

Fixpoint substringTo (stop : nat) (s : string) : string :=
  match stop, s with
  | 0, _ => EmptyString
  | S stop', String c rest => String c (substringTo stop' rest)
  | S _, EmptyString => EmptyString
  end.

(** [s.includes(c)]. *)
Fixpoint includes (c : ascii) (s : string) : bool :=
  match s with
  | EmptyString => false
  | String x rest => Ascii.eqb x c || includes c rest
  end.

Definition removeIncompleteTags (content : string) : string :=
  match lastIndexOf "<" content with
  | Some lastLessThan =>
      let textAfterLastLessThan := substringFrom lastLessThan content in
      if negb (includes ">" textAfterLastLessThan)
      then substringTo lastLessThan content
      else content
  | None => content
  end.

(** What [MarkdownContent] hands to the serializer. *)
Definition cleanedContent (content : string) : string :=
  removeIncompleteTags (normalizeContent content).

End Markdown.

(** ** Search results *)

(** [uniqueResults] of the [SearchResults] component.  The parser
    behind [new URL(link).hostname] is taken as given: [None] is the
    [TypeError] the constructor throws for a string that is no URL. *)

Module SearchResults.

Record TSearchResult : Type := mkSearchResult {
  title : string;
  snippet : string;
  link : string
}.

Section Unique.

Variable hostname : string → option string.

(** [new URL(t.link).hostname === new URL(result.link).hostname]: the
    left operand is evaluated first. *)
Definition sameHostname (result t : TSearchResult) : option bool :=
  match hostname (link t) with
  | None => None
  | Some ht =>
      match hostname (link result) with
      | None => None
      | Some hr => Some (String.eqb ht hr)
      end
  end.

(** [self.findIndex(p)] from position [index] on, for a [p] that may
    throw: [Some None] is [-1]. *)
Fixpoint findIndex (p : TSearchResult → option bool) (self : list TSearchResult)
    (index : nat) : option (option nat) :=
  match self with
  | [] => Some None
  | t :: rest =>
      match p t with
      | None => None
      | Some true => Some (Some index)
      | Some false => findIndex p rest (S index)
      end
  end.

(** [self.filter((result, index, self) => index === self.findIndex(...))],
    from position [index] on. *)
Fixpoint filterFrom (self : list TSearchResult) (index : nat)
    (remaining : list TSearchResult) : option (list TSearchResult) :=
  match remaining with
  | [] => Some []
  | result :: rest =>
      match findIndex (sameHostname result) self 0 with
      | None => None
      | Some found =>
          match filterFrom self (S index) rest with
          | None => None
          | Some kept =>
              Some (if bool_decide (found = Some index) then result :: kept else kept)
          end
      end
  end.

Definition uniqueResults (searchResults : list TSearchResult)
  : option (list TSearchResult) :=
  filterFrom searchResults 0 searchResults.

(** The link of a result is a URL. *)
Definition valid (result : TSearchResult) : Prop :=
  is_Some (hostname (link result)).

(** The hostname of a result whose link is a URL. *)
Definition hostOf (result : TSearchResult) : string :=
  default "" (hostname (link result)).

(** The number of results in front of the first one whose hostname is
    [h]. *)
Fixpoint before (h : string) (results : list TSearchResult) : nat :=
  match results with
  | [] => 0
  | t :: rest => if bool_decide (hostOf t = h) then 0 else S (before h rest)
  end.

(** The results whose hostname is not among [seen] and has not occurred
    before in the list. *)
Fixpoint firstPerHostname (seen : list string) (results : list TSearchResult)
  : list TSearchResult :=
  match results with
  | [] => []
  | result :: rest =>
      if bool_decide (hostOf result ∈ seen) then firstPerHostname seen rest
      else result :: firstPerHostname (hostOf result :: seen) rest
  end.

End Unique.

End SearchResults.

(** ** Data that holds no envelope *)

Module PlainData.
Import Snapshot.

(** A value made of primitives, arrays and plain objects only, in which
    no object has the shape of a serialized [Set] or [Map] or an own
    key [__proto__] (or, in the list of its properties, a key twice). *)
Fixpoint plainData (v : JsVal) : bool :=
  match v with
  | JArr items => forallb plainData items
  | JObj props =>
      negb (isSetEnvelope props) && negb (isMapEnvelope props) && ownKeys props
      && (fix each (l : list (string * JsVal)) : bool :=
            match l with
            | [] => true
            | (_, value) :: rest => plainData value && each rest
            end) props
  | JSet _ | JMap _ | JPromise _ => false
  | _ => true
  end.

End PlainData.


(** * Properties *)

(** ** Deserialization *)

Module SnapshotFacts.
Import Snapshot.

Lemma sameValueZero_eq a b : sameValueZero a b = true → a = b.
Proof.
  destruct a, b; simpl; try discriminate; try reflexivity; intros H.
  - by apply Bool.eqb_prop in H as ->.
  - by apply Z.eqb_eq in H as ->.
  - by apply String.eqb_eq in H as ->.
Qed.

Lemma newSetFrom_distinct seen l :
  distinctFrom seen l = true → newSetFrom seen l = l.
Proof.
  revert seen. induction l as [|x l IH]; intros seen; simpl; [done|].
  intros [Hx Hl]%andb_true_iff. apply negb_true_iff in Hx. rewrite Hx.
  f_equal. by apply IH.
Qed.

Lemma newSetFrom_sound seen l x : In x (newSetFrom seen l) → In x l.
Proof.
  revert seen. induction l as [|y l IH]; intros seen; simpl; [done|].
  destruct (existsb (sameValueZero y) seen).
  - intros H. right. by eapply IH.
  - intros [->|H]; [by left|]. right. by eapply IH.
Qed.

Lemma newSetFrom_complete seen l x :
  In x l → In x (newSetFrom seen l) ∨ In x seen.
Proof.
  revert seen. induction l as [|y l IH]; intros seen; simpl; [done|].
  intros [->|Hx].
  - destruct (existsb (sameValueZero x) seen) eqn:E.
    + apply existsb_exists in E as (z & Hz & Hxz).
      apply sameValueZero_eq in Hxz as ->. by right.
    + left. by left.
  - destruct (existsb (sameValueZero y) seen) eqn:E.
    + by apply IH.
    + destruct (IH (y :: seen) Hx) as [H|[->|H]].
      * left. by right.
      * left. by left.
      * by right.
Qed.

(** [new Set(items)] holds exactly the elements of [items]. *)
Lemma newSet_elements l x : In x (newSet l) ↔ In x l.
Proof.
  split.
  - apply newSetFrom_sound.
  - intros H. by destruct (newSetFrom_complete [] l x H) as [?|[]].
Qed.

Lemma deserialize_obj_unfold props :
  deserializeState (JObj props) =
  if isSetEnvelope props then
    match default JUndef (lookupProp "value" props) with
    | JArr items => JSet (newSet items)
    | _ => JUndef
    end
  else if isMapEnvelope props then
    JMap (objectEntries (default JUndef (lookupProp "value" props)))
  else JObj (deserializeProps props).
Proof.
  simpl. destruct (isSetEnvelope props); [done|].
  destruct (isMapEnvelope props); [done|]. f_equal.
  unfold deserializeProps, deserializeInto. generalize (@nil (string * JsVal)).
  induction props as [|[k v] l IH]; intros result; simpl; [done|]. apply IH.
Qed.

(** *** One assignment *)

Lemma lookupProp_setOwn k key value props :
  lookupProp k (setOwn key value props)
  = if String.eqb key k then Some value else lookupProp k props.
Proof.
  induction props as [|[k' v] rest IH]; simpl.
  - done.
  - destruct (String.eqb_spec k' key) as [->|Hne]; simpl.
    + by destruct (String.eqb key k).
    + destruct (String.eqb_spec k' k) as [->|Hne'].
      * by rewrite (proj2 (String.eqb_neq key k)).
      * apply IH.
Qed.

(** An assignment never makes an own property [__proto__]. *)
Lemma lookupProp_assign_proto key value result :
  lookupProp "__proto__" (assignProp key value result) = lookupProp "__proto__" result.
Proof.
  unfold assignProp. destruct (String.eqb key "__proto__") eqn:E; [done|].
  by rewrite lookupProp_setOwn, E.
Qed.

Lemma deserializeInto_proto l :
  ∀ result,
    lookupProp "__proto__" (deserializeInto result l) = lookupProp "__proto__" result.
Proof.
  unfold deserializeInto. induction l as [|[k v] l IH]; intros result; simpl; [done|].
  by rewrite IH, lookupProp_assign_proto.
Qed.

Lemma setOwn_new key value props :
  existsb (String.eqb key) props.*1 = false → setOwn key value props = props ++ [(key, value)].
Proof.
  induction props as [|[k v] rest IH]; simpl; [done|].
  intros [H1 H2]%orb_false_iff. rewrite String.eqb_sym, H1. by rewrite IH.
Qed.

(** On entries with distinct keys the loop adds them in order, the
    key [__proto__] left out. *)
Lemma deserializeInto_distinct l :
  ∀ seen result,
    distinctKeysFrom seen l = true →
    (∀ k, existsb (String.eqb k) result.*1 = true → existsb (String.eqb k) seen = true) →
    deserializeInto result l
    = result ++ map (λ kv, (kv.1, deserializeState kv.2)) (withoutProto l).
Proof.
  unfold deserializeInto, withoutProto.
  induction l as [|[k v] l IH]; intros seen result Hd Hseen; simpl.
  - by rewrite app_nil_r.
  - simpl in Hd. apply andb_true_iff in Hd as [Hk Hd]. apply negb_true_iff in Hk.
    unfold assignProp. destruct (String.eqb k "__proto__") eqn:E; simpl.
    + apply (IH (k :: seen)); [done|]. intros k' Hk'. simpl.
      rewrite (Hseen k' Hk'). by rewrite orb_true_r.
    + rewrite setOwn_new.
      2: { destruct (existsb (String.eqb k) result.*1) eqn:Hin; [|done].
           rewrite (Hseen k Hin) in Hk. done. }
      rewrite (IH (k :: seen)); [by rewrite <- app_assoc|done|].
      intros k' Hk'. rewrite fmap_app, existsb_app in Hk'. simpl in *.
      apply orb_true_iff in Hk' as [Hk'|Hk'].
      * rewrite (Hseen k' Hk'). by rewrite orb_true_r.
      * rewrite orb_false_r in Hk'. by rewrite Hk'.
Qed.

Lemma withoutProto_ownKeys props :
  forallb (λ kv, negb (String.eqb kv.1 "__proto__")) props = true →
  withoutProto props = props.
Proof.
  unfold withoutProto. induction props as [|kv l IH]; simpl; [done|].
  intros [H1 H2]%andb_true_iff. rewrite H1. by rewrite IH.
Qed.

Lemma deserializeProps_distinct props :
  distinctKeys props = true →
  deserializeProps props = map (λ kv, (kv.1, deserializeState kv.2)) (withoutProto props).
Proof.
  intros H. unfold deserializeProps.
  by rewrite (deserializeInto_distinct props [] [] H).
Qed.

Lemma deserializeProps_ownKeys props :
  ownKeys props = true →
  deserializeProps props = map (λ kv, (kv.1, deserializeState kv.2)) props.
Proof.
  intros [H1 H2]%andb_true_iff.
  by rewrite deserializeProps_distinct, withoutProto_ownKeys.
Qed.

(** *** The serializer *)

Lemma serialize_obj_unfold props :
  serializeState (JObj props) = JObj (serializeProps props).
Proof.
  simpl. f_equal. unfold serializeProps.
  induction props as [|[k v] l IH]; simpl; [done|]. by rewrite IH.
Qed.

Lemma roundTrips_obj_unfold props :
  roundTrips (JObj props) =
  negb (isSetEnvelope props) && negb (isMapEnvelope props) && ownKeys props
  && forallb (λ kv, roundTrips kv.2) props.
Proof.
  simpl. f_equal. induction props as [|[k v] l IH]; simpl; [done|].
  by rewrite IH.
Qed.

Lemma jsonData_obj_unfold props :
  jsonData (JObj props) = forallb (λ kv, jsonData kv.2) props.
Proof.
  simpl. induction props as [|[k v] l IH]; simpl; [done|]. by rewrite IH.
Qed.

Lemma lookupProp_serialize k props :
  lookupProp k (serializeProps props) = serializeState <$> lookupProp k props.
Proof.
  induction props as [|[k' v] l IH]; simpl; [done|].
  destruct (String.eqb k' k); [done|]. apply IH.
Qed.

Lemma strictEqStr_serialize o s :
  strictEqStr (default JUndef (serializeState <$> o)) s = strictEqStr (default JUndef o) s.
Proof. by destruct o as [[]|]. Qed.

Lemma isArray_serialize o :
  isArray (default JUndef (serializeState <$> o)) = isArray (default JUndef o).
Proof. by destruct o as [[]|]. Qed.

Lemma truthy_serialize o :
  truthy (default JUndef (serializeState <$> o)) = truthy (default JUndef o).
Proof. by destruct o as [[]|]. Qed.

(** The serializer neither makes nor unmakes the shape of an envelope. *)
Lemma isSetEnvelope_serialize props :
  isSetEnvelope (serializeProps props) = isSetEnvelope props.
Proof.
  unfold isSetEnvelope. rewrite !lookupProp_serialize.
  by rewrite strictEqStr_serialize, isArray_serialize.
Qed.

Lemma isMapEnvelope_serialize props :
  isMapEnvelope (serializeProps props) = isMapEnvelope props.
Proof.
  unfold isMapEnvelope. rewrite !lookupProp_serialize.
  by rewrite strictEqStr_serialize, truthy_serialize.
Qed.

(** Nor does it touch the keys. *)
Lemma ownKeys_serialize props : ownKeys (serializeProps props) = ownKeys props.
Proof.
  unfold ownKeys, distinctKeys, serializeProps. f_equal.
  - generalize (@nil string). induction props as [|[k v] l IH]; intros seen; simpl; [done|].
    by rewrite IH.
  - induction props as [|[k v] l IH]; simpl; [done|]. by rewrite IH.
Qed.

(** The round trip, on the snapshots the serializer is meant for. *)
Lemma deserialize_serialize v :
  roundTrips v = true → deserializeState (serializeState v) = v.
Proof.
  induction v as [| |b|n|s|l IH|l IH|l IH|l IH|v IH] using JsVal_nested_ind;
    try done.
  - (* array *)
    simpl. intros Hl. f_equal. induction IH as [|x l Hx _ IHl]; simpl in *; [done|].
    apply andb_true_iff in Hl as [H1 H2]. by rewrite Hx, IHl.
  - (* plain object *)
    rewrite roundTrips_obj_unfold, serialize_obj_unfold, deserialize_obj_unfold.
    rewrite isSetEnvelope_serialize, isMapEnvelope_serialize.
    intros [[[HS HM]%andb_true_iff HK]%andb_true_iff Hl]%andb_true_iff.
    apply negb_true_iff in HS, HM. rewrite HS, HM. f_equal.
    rewrite deserializeProps_ownKeys by by rewrite ownKeys_serialize.
    unfold serializeProps. clear HS HM HK.
    induction IH as [|[k x] l Hx _ IHl]; simpl in *; [done|].
    apply andb_true_iff in Hl as [H1 H2]. by rewrite Hx, IHl.
  - (* Set *)
    simpl. intros [Hl _]%andb_true_iff. f_equal. by apply newSetFrom_distinct.
Qed.

(** *** The store *)

(** The store gives JSON data back as it was given. *)
Lemma jsonStored_jsonData v : jsonData v = true → jsonStored v = v.
Proof.
  induction v as [| |b|n|s|l IH|l IH|l IH|l IH|v IH] using JsVal_nested_ind;
    try done.
  - simpl. intros Hl. f_equal. induction IH as [|x l Hx _ IHl]; simpl in *; [done|].
    apply andb_true_iff in Hl as [H1 H2]. rewrite (IHl H2).
    destruct x; try done; by rewrite (Hx H1).
  - rewrite jsonData_obj_unfold. simpl. intros Hl. f_equal.
    induction IH as [|[k x] l Hx _ IHl]; simpl in *; [done|].
    apply andb_true_iff in Hl as [H1 H2]. rewrite (IHl H2).
    destruct x; try done; by rewrite (Hx H1).
Qed.

(** What the serializer makes of a snapshot it is meant for is JSON
    data. *)
Lemma serialize_jsonData v : roundTrips v = true → jsonData (serializeState v) = true.
Proof.
  induction v as [| |b|n|s|l IH|l IH|l IH|l IH|v IH] using JsVal_nested_ind;
    try done.
  - simpl. intros Hl. induction IH as [|x l Hx _ IHl]; simpl in *; [done|].
    apply andb_true_iff in Hl as [H1 H2]. by rewrite (Hx H1), (IHl H2).
  - rewrite roundTrips_obj_unfold, serialize_obj_unfold, jsonData_obj_unfold.
    intros [_ Hl]%andb_true_iff. unfold serializeProps.
    induction IH as [|[k x] l Hx _ IHl]; simpl in *; [done|].
    apply andb_true_iff in Hl as [H1 H2]. by rewrite (Hx H1), (IHl H2).
  - simpl. intros [_ Hl]%andb_true_iff. by rewrite Hl.
  - simpl. intros [_ Hl]%andb_true_iff. rewrite andb_true_r.
    induction l as [|[k x] l IHl]; simpl in *; [done|].
    apply andb_true_iff in Hl as [H1 H2]. rewrite H1. simpl. apply IHl; [|done].
    by apply Forall_cons in IH as [_ IH].
Qed.




(** The deserializer does not descend into an envelope: the values of
    a [Map] and the elements of a [Set] come back as they were stored. *)
Example deserialize_envelope_shallow :
  deserializeState nestedEnvelope
  = JMap [("A", JObj [("type", JStr "Set"); ("value", JArr [JNum 1])])].
Proof. reflexivity. Qed.

(** An own key [__proto__], as [JSON.parse] can make one, does not
    come back. *)
Example deserialize_drops_proto :
  deserializeState (JObj protoKeyed) = JObj [("a", JNum 1); ("b", JNum 3)].
Proof. reflexivity. Qed.

End SnapshotFacts.

(** ** The workflow engine *)

Module WorkflowFacts.
Import Workflow Observations Samples Successors.

(** *** The abort guards *)

Lemma markTaskComplete_hardAborted taskName data w :
  hardAborted (ctx w) = true → markTaskComplete taskName data w = w.
Proof. intros H. unfold markTaskComplete. by rewrite H. Qed.

Lemma executeTask_hardAborted eng fuel taskName data w :
  hardAborted (ctx w) = true →
  executeTask eng (S fuel) taskName data w = (Returned JUndef, w).
Proof. intros H. simpl. by rewrite H. Qed.

(** [abort(false)] leaves the workflow hard-aborted. *)
Lemma abort_false_hardAborted eng w : hardAborted (ctx (abort eng false w)) = true.
Proof. unfold abort, persist. by destruct (persistence eng). Qed.

(** *** What a completion does *)

Lemma markTaskComplete_live taskName data w :
  hardAborted (ctx w) = false →
  let w1 := markTaskComplete taskName data w in
  trace w1 = trace w ++ [TaskExecutionEvent taskName
                           (getTaskExecutionCount taskName (ctx w) + 1)]
  ∧ getTaskExecutionCount taskName (ctx w1) = getTaskExecutionCount taskName (ctx w) + 1
  ∧ (taskName ∈ completedTasks (state (ctx w1)))
  ∧ (taskName ∉ runningTasks (state (ctx w1)))
  ∧ taskData (state (ctx w1)) !! taskName = Some data
  ∧ hardAborted (ctx w1) = false.
Proof.
  intros H. unfold markTaskComplete. rewrite H. simpl.
  repeat split; try done.
  - unfold getTaskExecutionCount. simpl. by rewrite lookup_insert_eq.
  - apply elem_of_union. left. by apply elem_of_singleton.
  - intros [_ Hn]%elem_of_difference. apply Hn. by apply elem_of_singleton.
  - by rewrite lookup_insert_eq.
Qed.

(** *** Traces *)

Lemma endTaskTiming_trace taskName err w :
  trace (endTaskTiming taskName err w) = trace w.
Proof. unfold endTaskTiming. by destruct (taskTimings (ctx w) !! taskName). Qed.

Lemma endTaskTiming_state taskName err w :
  state (ctx (endTaskTiming taskName err w)) = state (ctx w).
Proof. unfold endTaskTiming. by destruct (taskTimings (ctx w) !! taskName). Qed.

Lemma endTaskTiming_hardAborted taskName err w :
  hardAborted (ctx (endTaskTiming taskName err w)) = hardAborted (ctx w).
Proof. unfold endTaskTiming. by destruct (taskTimings (ctx w) !! taskName). Qed.

Lemma createBreakpoint_registered eng taskName config data w :
  tasks eng !! taskName = Some config →
  ∃ w1, createBreakpoint eng taskName data w = (None, w1).
Proof.
  intros H. unfold createBreakpoint. rewrite H.
  rewrite bool_decide_eq_true_2 by eauto. eauto.
Qed.

(** User code of a registered task that ends otherwise than by a
    [BreakpointError] has left no mark on the trace and has not touched
    the workflow state: all it can have changed are the abort flags. *)
Lemma runBody_quiet eng taskName config b body :
  tasks eng !! taskName = Some config →
  ∀ left taskRedirect w c taskRedirect1 w1,
    runBody eng taskName b left body taskRedirect w = (c, taskRedirect1, w1) →
    c ≠ Rejected BreakpointError →
    trace w1 = trace w ∧ state (ctx w1) = state (ctx w).
Proof.
  intros Hreg.
  induction body as [v|e|n k IH|d k IH|gr k IH|ms k IH|k IH];
    intros left rd w c rd1 w1 Hrun Hc; simpl in Hrun.
  - by inversion Hrun.
  - by inversion Hrun.
  - by eapply IH.
  - destruct (interruptClosure b).
    + destruct (createBreakpoint_registered eng taskName config d
                  (markTaskComplete taskName d w) Hreg) as [w2 Hw2].
      rewrite Hw2 in Hrun. inversion Hrun; subst. done.
    + destruct (createBreakpoint_registered eng taskName config d w Hreg) as [w2 Hw2].
      rewrite Hw2 in Hrun. inversion Hrun; subst. done.
    + by eapply IH.
  - destruct (IH _ _ _ _ _ _ Hrun Hc) as [-> ->]. done.
  - destruct left as [budget|].
    + destruct (budget <=? ms)%Z.
      * by inversion Hrun.
      * by eapply IH.
    + by eapply IH.
  - by eapply IH.
Qed.

(** With an [interrupt] that only logs, user code leaves the trace and
    the workflow state as they are: nothing is completed, no breakpoint
    is recorded. *)
Lemma runBody_logsOnly eng taskName b body :
  interruptClosure b = InterruptLogsOnly →
  ∀ left taskRedirect w,
    trace (runBody eng taskName b left body taskRedirect w).2 = trace w
    ∧ state (ctx (runBody eng taskName b left body taskRedirect w).2) = state (ctx w).
Proof.
  intros Hb.
  induction body as [v|e|n k IH|d k IH|gr k IH|ms k IH|k IH];
    intros left rd w; simpl; try done.
  - by rewrite Hb.
  - destruct (IH left rd (abortWorkflow gr w)) as [-> ->]. done.
  - destruct left as [budget|]; [|done].
    by destruct (budget <=? ms)%Z.
Qed.

Lemma runBody_logsOnly_trace eng taskName b body :
  interruptClosure b = InterruptLogsOnly →
  ∀ left taskRedirect w,
    trace (runBody eng taskName b left body taskRedirect w).2 = trace w.
Proof. intros Hb left rd w. by apply runBody_logsOnly. Qed.

(** Under a timeout no call of [interrupt] has any effect, whatever the
    body of [execute]: when [execute] settles, the workflow state is the
    one it was called in, and the trace has gained the call alone. *)
Lemma interrupt_without_effect_under_timeout eng config taskName data taskRedirect w ms :
  timeoutOf config = Some ms →
  state (ctx (invokeExecute eng config taskName data taskRedirect w).2) = state (ctx w)
  ∧ trace (invokeExecute eng config taskName data taskRedirect w).2
    = trace w ++ [ExecuteCalled taskName data].
Proof.
  intros Hms. unfold invokeExecute.
  assert (interruptClosure (executeBundle config) = InterruptLogsOnly) as Hb
    by (unfold executeBundle; by rewrite Hms).
  destruct (runBody_logsOnly eng taskName (executeBundle config) (execute config data) Hb
              (deadline (executeBundle config)) taskRedirect
              (observe (ExecuteCalled taskName data) w)) as [-> ->].
  done.
Qed.

(** The same call of [interrupt], under the two bundles. *)
Lemma interrupt_direct eng taskName config data k left taskRedirect w :
  tasks eng !! taskName = Some config →
  runBody eng taskName (mkBundle InterruptOfTask true None) left (Interrupt data k)
          taskRedirect w
  = (Rejected BreakpointError, taskRedirect,
     persist eng
       (mkWorld (withState (λ s,
                   mkState (completedTasks s) (runningTasks s) (taskData s)
                           (Some (uuids w)) data (Some taskName))
                   (ctx (markTaskComplete taskName data w)))
                (trace (markTaskComplete taskName data w)) (S (uuids w)))).
Proof.
  intros Hreg. simpl. unfold createBreakpoint. rewrite Hreg.
  rewrite bool_decide_eq_true_2 by eauto.
  replace (uuids (markTaskComplete taskName data w)) with (uuids w); [done|].
  unfold markTaskComplete. by destruct (hardAborted (ctx w)).
Qed.

Lemma interrupt_under_timeout eng taskName config data k taskRedirect w ms :
  timeoutOf config = Some ms →
  runBody eng taskName (executeBundle config) (Some ms) (Interrupt data k) taskRedirect w
  = runBody eng taskName (executeBundle config) (Some ms) k taskRedirect w.
Proof. intros H. unfold executeBundle. by rewrite H. Qed.

(** *** Entering the attempt loop *)

Lemma enter_trace taskName w : trace (enter taskName w) = trace w.
Proof. unfold enter. by destruct (isTaskComplete taskName (ctx w)). Qed.

(** The task is in [runningTasks] before [execute] is called. *)
Lemma enter_running taskName w : taskName ∈ runningTasks (state (ctx (enter taskName w))).
Proof.
  unfold enter. destruct (isTaskComplete taskName (ctx w)); simpl;
    apply elem_of_union; left; by apply elem_of_singleton.
Qed.

Lemma executeTask_enters eng fuel taskName config data w :
  tasks eng !! taskName = Some config →
  dispatchable config taskName w →
  executeTask eng (S fuel) taskName data w
  = attemptLoop eng (executeTask eng fuel) config taskName data
                (S (retries config)) 0 JUndef (enter taskName w).
Proof.
  intros Hreg (Hab & Hdep & Hrun). simpl. rewrite Hab, Hreg, Hdep. simpl.
  assert (isTaskRunning taskName
            (ctx (if isTaskComplete taskName (ctx w)
                  then resetTaskCompletion taskName w else w)) = false) as ->; [|done].
  unfold isTaskRunning. apply bool_decide_eq_false_2.
  by destruct (isTaskComplete taskName (ctx w)).
Qed.

(** *** A failing attempt *)

Lemma invokeExecute_trace eng config taskName data taskRedirect w e taskRedirect1 w1 :
  tasks eng !! taskName = Some config →
  invokeExecute eng config taskName data taskRedirect w = (Rejected e, taskRedirect1, w1) →
  isBreakpointError e = false →
  trace w1 = trace w ++ [ExecuteCalled taskName data].
Proof.
  intros Hreg Hrun He. unfold invokeExecute in Hrun.
  assert (Rejected e ≠ Rejected BreakpointError) as Hne by (intros [= ->]; done).
  by rewrite (proj1 (runBody_quiet _ _ _ _ _ Hreg _ _ _ _ _ _ Hrun Hne)).
Qed.

Lemma tryAttempt_rejected eng exec config taskName data taskRedirect w e taskRedirect1 w1 :
  invokeExecute eng config taskName data taskRedirect w = (Rejected e, taskRedirect1, w1) →
  tryAttempt eng exec config taskName data taskRedirect w = (Thrown e, taskRedirect1, w1).
Proof. intros H. unfold tryAttempt. by rewrite H. Qed.

(** C8: a task with [retryCount] 0 (or none) and no [onError] whose
    [execute] throws, never a [BreakpointError], on every invocation:
    once [executeTask] reaches its attempt loop, [execute] is called
    exactly once and the error it threw is rethrown. *)
Theorem C8_one_attempt_then_rethrow eng fuel taskName config data w :
  tasks eng !! taskName = Some config →
  retries config = 0 →
  onError config = None →
  alwaysThrows eng config taskName data →
  dispatchable config taskName w →
  ∃ e taskRedirect1 w0,
    invokeExecute eng config taskName data JUndef (enter taskName w)
    = (Rejected e, taskRedirect1, w0)
    ∧ executeTask eng (S fuel) taskName data w
      = (Thrown e, endTaskTiming taskName (Some e) w0)
    ∧ trace (endTaskTiming taskName (Some e) w0) = trace w ++ [ExecuteCalled taskName data]
    ∧ executeCalls (trace (endTaskTiming taskName (Some e) w0))
      = executeCalls (trace w) ++ [taskName].
Proof.
  intros Hreg Hretry Hhandler Hthrows Hdisp.
  destruct (Hthrows JUndef (enter taskName w)) as (e & rd1 & w0 & Hrun & He).
  exists e, rd1, w0. split; [done|].
  assert (trace (endTaskTiming taskName (Some e) w0)
          = trace w ++ [ExecuteCalled taskName data]) as Htrace.
  { rewrite endTaskTiming_trace, (invokeExecute_trace _ _ _ _ _ _ _ _ _ Hreg Hrun He).
    by rewrite enter_trace. }
  split; [|split; [done|]].
  - rewrite (executeTask_enters _ _ _ _ _ _ Hreg Hdisp). rewrite Hretry. simpl.
    rewrite Hretry. simpl.
    rewrite (tryAttempt_rejected _ _ _ _ _ _ _ _ _ _ Hrun).
    unfold catchAttempt. rewrite He, Hhandler. unfold rethrowOrLoop.
    by rewrite Hretry.
  - rewrite Htrace. unfold executeCalls. by rewrite omap_app.
Qed.

Lemma C8_one_attempt_then_rethrow_witness :
  ∃ e taskRedirect1 w0,
    invokeExecute failingEngine failing "F" JNull JUndef (enter "F" initialWorld)
    = (Rejected e, taskRedirect1, w0)
    ∧ executeTask failingEngine 1 "F" JNull initialWorld
      = (Thrown e, endTaskTiming "F" (Some e) w0)
    ∧ trace (endTaskTiming "F" (Some e) w0)
      = trace initialWorld ++ [ExecuteCalled "F" JNull]
    ∧ executeCalls (trace (endTaskTiming "F" (Some e) w0))
      = executeCalls (trace initialWorld) ++ ["F"].
Proof.
  apply (C8_one_attempt_then_rethrow failingEngine 0 "F" failing JNull initialWorld).
  - reflexivity.
  - reflexivity.
  - reflexivity.
  - intros rd w. eexists _, _, _. split; reflexivity.
  - split; [reflexivity | split; [reflexivity | apply not_elem_of_empty]].
Defined.

(** *** The error handler *)

(** A handler that supplies no result leaves the decision to the
    attempt counter, whatever its [retry] flag says. *)
Lemma handleError_no_result eng exec config taskName data handler e attempt again w :
  suppliesNoResult eng taskName handler data →
  let w1 := (runBody eng taskName onErrorBundle None (handler e data) JUndef
                     (observe (OnErrorCalled taskName e) w)).2 in
  handleError eng exec config taskName data handler e attempt again w
  = (if (retries config <? attempt)%nat then (Thrown e, w1) else again w1)
  ∧ trace w1 = trace w ++ [OnErrorCalled taskName e].
Proof.
  intros Hno. split.
  - unfold handleError.
    specialize (Hno e (observe (OnErrorCalled taskName e) w)).
    destruct (runBody eng taskName onErrorBundle None (handler e data) JUndef
                (observe (OnErrorCalled taskName e) w)) as [[c rd1] w1]; simpl in *.
    destruct c as [errorResult|e']; [|done].
    destruct (getProp errorResult "retry") as [retry|]; [|done].
    destruct (truthy retry && (attempt <=? retries config)%nat) eqn:E.
    + apply andb_true_iff in E as [_ E]. apply Nat.leb_le in E.
      by rewrite (proj2 (Nat.ltb_ge _ _) E).
    + by rewrite Hno.
  - by rewrite runBody_logsOnly_trace.
Qed.

Lemma attemptLoop_unfold eng exec config taskName data k attempt taskRedirect w :
  attemptLoop eng exec config taskName data (S k) attempt taskRedirect w
  = if (attempt <=? retries config)%nat then
      match tryAttempt eng exec config taskName data taskRedirect w with
      | (Thrown e, taskRedirect1, w1) =>
          catchAttempt eng exec config taskName data e (attempt + 1)
            (attemptLoop eng exec config taskName data k (attempt + 1) taskRedirect1) w1
      | (other, _, w1) => (other, w1)
      end
    else (Returned JUndef, w).
Proof. reflexivity. Qed.

(** The attempts of a task that always throws [e] and whose handler
    supplies no result: each attempt is followed by a call of the
    handler, and the error is rethrown after the last. *)
Lemma attemptLoop_handler_each_time eng exec config taskName data handler e :
  tasks eng !! taskName = Some config →
  onError config = Some handler →
  isBreakpointError e = false →
  alwaysThrowsError eng config taskName data e →
  suppliesNoResult eng taskName handler data →
  ∀ k attempt taskRedirect w,
    attempt + k = retries config →
    ∃ w1,
      attemptLoop eng exec config taskName data (S k) attempt taskRedirect w = (Thrown e, w1)
      ∧ trace w1 = trace w ++ concat (replicate (S k)
                     [ExecuteCalled taskName data; OnErrorCalled taskName e]).
Proof.
  intros Hreg Hhandler He Hthrows Hno.
  induction k as [|k IH]; intros attempt rd w Hk.
  - destruct (Hthrows rd w) as (rd1 & w0 & Hrun).
    pose proof (invokeExecute_trace _ _ _ _ _ _ _ _ _ Hreg Hrun He) as Ht0.
    destruct (handleError_no_result eng exec config taskName data handler e
                (attempt + 1) (attemptLoop eng exec config taskName data 0 (attempt + 1) rd1)
                (endTaskTiming taskName (Some e) w0) Hno) as [Heq Ht1].
    eexists. split.
    + rewrite attemptLoop_unfold.
      rewrite (proj2 (Nat.leb_le attempt (retries config))) by lia.
      rewrite (tryAttempt_rejected _ _ _ _ _ _ _ _ _ _ Hrun).
      unfold catchAttempt. rewrite He, Hhandler, Heq.
      rewrite (proj2 (Nat.ltb_lt (retries config) (attempt + 1))) by lia.
      reflexivity.
    + rewrite Ht1, endTaskTiming_trace, Ht0. simpl. by rewrite <- app_assoc.
  - destruct (Hthrows rd w) as (rd1 & w0 & Hrun).
    pose proof (invokeExecute_trace _ _ _ _ _ _ _ _ _ Hreg Hrun He) as Ht0.
    destruct (handleError_no_result eng exec config taskName data handler e
                (attempt + 1)
                (attemptLoop eng exec config taskName data (S k) (attempt + 1) rd1)
                (endTaskTiming taskName (Some e) w0) Hno) as [Heq Ht1].
    destruct (IH (attempt + 1) rd1
                (runBody eng taskName onErrorBundle None (handler e data) JUndef
                   (observe (OnErrorCalled taskName e)
                      (endTaskTiming taskName (Some e) w0))).2) as (w1 & Hloop & Ht2);
      [lia|].
    exists w1. split.
    + rewrite attemptLoop_unfold.
      rewrite (proj2 (Nat.leb_le attempt (retries config))) by lia.
      rewrite (tryAttempt_rejected _ _ _ _ _ _ _ _ _ _ Hrun).
      unfold catchAttempt. rewrite He, Hhandler, Heq.
      rewrite (proj2 (Nat.ltb_ge (retries config) (attempt + 1))) by lia.
      exact Hloop.
    + rewrite Ht2, Ht1, endTaskTiming_trace, Ht0.
      change (replicate (S (S k)) ?x) with (x :: replicate (S k) x).
      simpl. by rewrite <- !app_assoc.
Qed.

(** C4, as stated, fails: with one retry allowed, the handler is called
    after the first failed attempt, before the retry. *)
Lemma C4_handler_called_before_retry :
  trace (executeTask retryingEngine 1 "F" JNull initialWorld).2
  = [ExecuteCalled "F" JNull; OnErrorCalled "F" (UserError "boom");
     ExecuteCalled "F" JNull; OnErrorCalled "F" (UserError "boom")]
  ∧ handlerAfterRetries (trace (executeTask retryingEngine 1 "F" JNull initialWorld).2)
    = false.
Proof. split_and!; vm_compute; reflexivity. Qed.

(** C4, amended: for a task with an [onError] handler whose [execute]
    throws the same error, not a [BreakpointError], on every invocation,
    the handler is called after every failed attempt, also while retries
    remain; when the handler never supplies a result, [execute] is
    attempted [retryCount + 1] times, each attempt followed by one call
    of the handler, and after the last the error is rethrown. *)
Theorem C4_handler_after_each_attempt eng fuel taskName config handler data e w :
  tasks eng !! taskName = Some config →
  onError config = Some handler →
  isBreakpointError e = false →
  alwaysThrowsError eng config taskName data e →
  suppliesNoResult eng taskName handler data →
  dispatchable config taskName w →
  ∃ w1,
    executeTask eng (S fuel) taskName data w = (Thrown e, w1)
    ∧ trace w1 = trace w ++ concat (replicate (S (retries config))
                   [ExecuteCalled taskName data; OnErrorCalled taskName e]).
Proof.
  intros Hreg Hhandler He Hthrows Hno Hdisp.
  destruct (attemptLoop_handler_each_time eng (executeTask eng fuel) config taskName data
              handler e Hreg Hhandler He Hthrows Hno (retries config) 0 JUndef
              (enter taskName w)) as (w1 & Hloop & Ht); [lia|].
  exists w1. split.
  - by rewrite (executeTask_enters _ _ _ _ _ _ Hreg Hdisp).
  - by rewrite Ht, enter_trace.
Qed.

Lemma C4_handler_after_each_attempt_witness :
  ∃ w1,
    executeTask retryingEngine 1 "F" JNull initialWorld = (Thrown (UserError "boom"), w1)
    ∧ trace w1 = trace initialWorld ++ concat (replicate (S (retries retrying))
                   [ExecuteCalled "F" JNull; OnErrorCalled "F" (UserError "boom")]).
Proof.
  apply (C4_handler_after_each_attempt retryingEngine 0 "F" retrying
           (λ _ _, Return (JObj [("retry", JBool true)])) JNull (UserError "boom")
           initialWorld).
  - reflexivity.
  - reflexivity.
  - reflexivity.
  - intros rd w. eexists _, _. reflexivity.
  - intros e w. reflexivity.
  - split; [reflexivity | split; [reflexivity | apply not_elem_of_empty]].
Defined.

(** *** Successors *)

(** User code never adds a call of [execute] to the trace: what it can
    add is the event of a completion and the save of a breakpoint. *)
Lemma executeCalls_app tr1 tr2 :
  executeCalls (tr1 ++ tr2) = executeCalls tr1 ++ executeCalls tr2.
Proof. apply omap_app. Qed.

Lemma persist_executeCalls eng w :
  executeCalls (trace (persist eng w)) = executeCalls (trace w).
Proof.
  unfold persist. destruct (persistence eng); [|done]. simpl.
  rewrite executeCalls_app. simpl. by rewrite app_nil_r.
Qed.

Lemma markTaskComplete_executeCalls taskName data w :
  executeCalls (trace (markTaskComplete taskName data w)) = executeCalls (trace w).
Proof.
  unfold markTaskComplete. destruct (hardAborted (ctx w)); [done|]. simpl.
  rewrite executeCalls_app. simpl. by rewrite app_nil_r.
Qed.

Lemma createBreakpoint_executeCalls eng taskName data w :
  executeCalls (trace (createBreakpoint eng taskName data w).2) = executeCalls (trace w).
Proof.
  unfold createBreakpoint. destruct (bool_decide _); [|done]. simpl.
  by rewrite persist_executeCalls.
Qed.

Lemma runBody_executeCalls eng taskName b body :
  ∀ left taskRedirect w,
    executeCalls (trace (runBody eng taskName b left body taskRedirect w).2)
    = executeCalls (trace w).
Proof.
  induction body as [v|e|n k IH|d k IH|gr k IH|ms k IH|k IH];
    intros left rd w; simpl; try done.
  - destruct (interruptClosure b).
    + pose proof (createBreakpoint_executeCalls eng taskName d
                    (markTaskComplete taskName d w)) as H.
      destruct (createBreakpoint eng taskName d (markTaskComplete taskName d w))
        as [[e|] w2]; simpl in *; by rewrite H, markTaskComplete_executeCalls.
    + pose proof (createBreakpoint_executeCalls eng taskName d w) as H.
      destruct (createBreakpoint eng taskName d w) as [[e|] w2]; simpl in *; done.
    + apply IH.
  - by rewrite IH.
  - destruct left as [budget|]; [|apply IH].
    destruct (budget <=? ms)%Z; [done|apply IH].
Qed.

Lemma recordCompletion_executeCalls eng taskName taskResult w :
  executeCalls (trace (recordCompletion eng taskName taskResult w))
  = executeCalls (trace w).
Proof.
  unfold recordCompletion, emitTaskExecutionEvent. simpl.
  rewrite executeCalls_app, persist_executeCalls, markTaskComplete_executeCalls.
  rewrite endTaskTiming_trace. simpl. by rewrite app_nil_r.
Qed.

Lemma resolveNext_executeCalls eng config taskName result directNextTasks taskRedirect w :
  executeCalls (trace (resolveNext eng config taskName result directNextTasks
                                   taskRedirect w).2)
  = executeCalls (trace w).
Proof.
  unfold resolveNext. destruct (isUndefined _); [|done].
  rewrite runBody_executeCalls. simpl. rewrite executeCalls_app. simpl.
  by rewrite app_nil_r.
Qed.

(** *** Completion events *)

Lemma taskExecutionEvents_app tr1 tr2 :
  taskExecutionEvents (tr1 ++ tr2) = taskExecutionEvents tr1 ++ taskExecutionEvents tr2.
Proof. apply omap_app. Qed.

Lemma persist_taskExecutionEvents eng w :
  taskExecutionEvents (trace (persist eng w)) = taskExecutionEvents (trace w).
Proof.
  unfold persist. destruct (persistence eng); [|done]. simpl.
  rewrite taskExecutionEvents_app. simpl. by rewrite app_nil_r.
Qed.

Lemma persist_ctx eng w : ctx (persist eng w) = ctx w.
Proof. unfold persist. by destruct (persistence eng). Qed.

(** On the success path of [executeTask] a completion is announced
    twice, with the same count: once inside [markTaskComplete], once by
    the statement after the save. *)
Lemma recordCompletion_events eng taskName taskResult w :
  hardAborted (ctx w) = false →
  taskExecutionEvents (trace (recordCompletion eng taskName taskResult w))
  = taskExecutionEvents (trace w)
    ++ [(taskName, getTaskExecutionCount taskName (ctx w) + 1);
        (taskName, getTaskExecutionCount taskName (ctx w) + 1)].
Proof.
  intros Hab. unfold recordCompletion, emitTaskExecutionEvent. simpl.
  rewrite taskExecutionEvents_app, persist_taskExecutionEvents, persist_ctx.
  assert (hardAborted (ctx (endTaskTiming taskName None w)) = false) as Hab1
    by by rewrite endTaskTiming_hardAborted.
  destruct (markTaskComplete_live taskName (splitResult taskResult).1 _ Hab1)
    as (Ht & Hc & _).
  rewrite Ht, Hc, taskExecutionEvents_app, endTaskTiming_trace. simpl.
  assert (getTaskExecutionCount taskName (ctx (endTaskTiming taskName None w))
          = getTaskExecutionCount taskName (ctx w)) as ->.
  { unfold endTaskTiming. by destruct (taskTimings (ctx w) !! taskName). }
  by rewrite <- app_assoc.
Qed.

(** After a hard abort the same statement still emits, with the count
    that [markTaskComplete] did not advance. *)
Lemma recordCompletion_hardAborted eng taskName taskResult w :
  hardAborted (ctx w) = true →
  taskExecutionEvents (trace (recordCompletion eng taskName taskResult w))
  = taskExecutionEvents (trace w) ++ [(taskName, getTaskExecutionCount taskName (ctx w))].
Proof.
  intros Hab. unfold recordCompletion, emitTaskExecutionEvent. simpl.
  rewrite taskExecutionEvents_app, persist_taskExecutionEvents, persist_ctx.
  rewrite markTaskComplete_hardAborted by by rewrite endTaskTiming_hardAborted.
  rewrite endTaskTiming_trace. simpl.
  unfold endTaskTiming. by destruct (taskTimings (ctx w) !! taskName).
Qed.

(** *** The destination of a completed task *)

(** The code's test for a return value that carries its route agrees
    with the spec's reading. *)
Lemma splitResult_spec taskResult : splitResult taskResult = specReturnValue taskResult.
Proof.
  unfold splitResult, carriesRoute, specReturnValue.
  destruct taskResult as [| |b|n|s|l|props|l|l|v]; simpl; try done.
  - by destruct b.
  - by destruct (negb (n =? 0)%Z).
  - by destruct (negb (String.eqb s "")).
  - destruct (lookupProp "result" props) as [result|]; simpl; [|done].
    by destruct (lookupProp "next" props) as [next|].
Qed.

Lemma preferRedirect_spec redirect next routed :
  preferRedirect redirect next
  = if specRouterAsked redirect next then JUndef else specDestination redirect next routed.
Proof. unfold preferRedirect. by destruct redirect, next. Qed.

Lemma specDestination_asked redirect next routed :
  specRouterAsked redirect next = true → specDestination redirect next routed = routed.
Proof. by destruct redirect, next. Qed.

Lemma specDestination_defined redirect next routed :
  specRouterAsked redirect next = false →
  isUndefined (specDestination redirect next routed) = false.
Proof. by destruct redirect, next. Qed.

(** What [taskRedirect] holds after a body that calls [redirectTo] and
    returns: the argument of the last call, or what it held before
    when there was none. *)
Lemma redirects_recorded eng taskName b left targets v :
  redirectRecords b = true →
  ∀ taskRedirect w,
    runBody eng taskName b left (redirects targets (Return v)) taskRedirect w
    = (Resolved v, default taskRedirect (last targets), w).
Proof.
  intros Hb. induction targets as [|t targets IH]; intros rd w; [done|].
  unfold redirects in *. cbn [foldr runBody]. rewrite Hb, IH, last_cons.
  by destruct (last targets).
Qed.

Lemma executeBundle_records config : redirectRecords (executeBundle config) = true.
Proof. unfold executeBundle. by destruct (timeoutOf config). Qed.

Lemma routeCalls_app tr1 tr2 : routeCalls (tr1 ++ tr2) = routeCalls tr1 ++ routeCalls tr2.
Proof. apply omap_app. Qed.

Lemma persist_routeCalls eng w : routeCalls (trace (persist eng w)) = routeCalls (trace w).
Proof.
  unfold persist. destruct (persistence eng); [|done]. simpl.
  rewrite routeCalls_app. simpl. by rewrite app_nil_r.
Qed.

Lemma markTaskComplete_routeCalls taskName data w :
  routeCalls (trace (markTaskComplete taskName data w)) = routeCalls (trace w).
Proof.
  unfold markTaskComplete. destruct (hardAborted (ctx w)); [done|]. simpl.
  rewrite routeCalls_app. simpl. by rewrite app_nil_r.
Qed.

Lemma createBreakpoint_routeCalls eng taskName data w :
  routeCalls (trace (createBreakpoint eng taskName data w).2) = routeCalls (trace w).
Proof.
  unfold createBreakpoint. destruct (bool_decide _); [|done]. simpl.
  by rewrite persist_routeCalls.
Qed.

(** User code never adds a call of [route] to the trace. *)
Lemma runBody_routeCalls eng taskName b body :
  ∀ left taskRedirect w,
    routeCalls (trace (runBody eng taskName b left body taskRedirect w).2)
    = routeCalls (trace w).
Proof.
  induction body as [v|e|n k IH|d k IH|gr k IH|ms k IH|k IH];
    intros left rd w; simpl; try done.
  - destruct (interruptClosure b).
    + pose proof (createBreakpoint_routeCalls eng taskName d
                    (markTaskComplete taskName d w)) as H.
      destruct (createBreakpoint eng taskName d (markTaskComplete taskName d w))
        as [[e|] w2]; simpl in *; by rewrite H, markTaskComplete_routeCalls.
    + pose proof (createBreakpoint_routeCalls eng taskName d w) as H.
      destruct (createBreakpoint eng taskName d w) as [[e|] w2]; simpl in *; done.
    + apply IH.
  - by rewrite IH.
  - destruct left as [budget|]; [|apply IH].
    destruct (budget <=? ms)%Z; [done|apply IH].
Qed.

Lemma recordCompletion_routeCalls eng taskName taskResult w :
  routeCalls (trace (recordCompletion eng taskName taskResult w)) = routeCalls (trace w).
Proof.
  unfold recordCompletion, emitTaskExecutionEvent. simpl.
  rewrite routeCalls_app, persist_routeCalls, markTaskComplete_routeCalls.
  rewrite endTaskTiming_trace. simpl. by rewrite app_nil_r.
Qed.

Lemma recordCompletion_keeps_abort eng taskName taskResult w :
  hardAborted (ctx (recordCompletion eng taskName taskResult w)) = hardAborted (ctx w).
Proof.
  unfold recordCompletion, emitTaskExecutionEvent. cbn [observe ctx].
  rewrite persist_ctx. destruct (hardAborted (ctx w)) eqn:E.
  - rewrite markTaskComplete_hardAborted by by rewrite endTaskTiming_hardAborted.
    by rewrite endTaskTiming_hardAborted.
  - apply markTaskComplete_live. by rewrite endTaskTiming_hardAborted.
Qed.



(** *** The running set after a failure *)

(** No branch of the [catch] block that rethrows takes the task out of
    [runningTasks]: under the conditions of C8, the task is still there
    when the caller sees the error. *)
Lemma failed_task_stays_running eng fuel taskName config data w :
  tasks eng !! taskName = Some config →
  retries config = 0 →
  onError config = None →
  alwaysThrows eng config taskName data →
  dispatchable config taskName w →
  ∃ e w1, executeTask eng (S fuel) taskName data w = (Thrown e, w1)
          ∧ taskName ∈ runningTasks (state (ctx w1)).
Proof.
  intros Hreg Hretry Hhandler Hthrows Hdisp.
  destruct (Hthrows JUndef (enter taskName w)) as (e & rd1 & w0 & Hrun & He).
  exists e, (endTaskTiming taskName (Some e) w0). split.
  - rewrite (executeTask_enters _ _ _ _ _ _ Hreg Hdisp). rewrite Hretry.
    rewrite attemptLoop_unfold, Hretry. simpl.
    rewrite (tryAttempt_rejected _ _ _ _ _ _ _ _ _ _ Hrun).
    unfold catchAttempt. rewrite He, Hhandler. unfold rethrowOrLoop.
    by rewrite Hretry.
  - rewrite endTaskTiming_state. unfold invokeExecute in Hrun.
    assert (Rejected e ≠ Rejected BreakpointError) as Hne by (intros [= ->]; done).
    rewrite (proj2 (runBody_quiet _ _ _ _ _ Hreg _ _ _ _ _ _ Hrun Hne)).
    apply enter_running.
Qed.

(** *** Breakpoints *)

(** Without a timeout, a task that calls [interrupt] is marked complete
    with the data, the breakpoint is recorded and saved, and the
    [BreakpointError] ends [executeTask] without a result: no retry, no
    handler, no rethrow. *)
Lemma interrupt_without_timeout eng fuel taskName config data d k w :
  tasks eng !! taskName = Some config →
  timeoutOf config = None →
  execute config data = Interrupt d k →
  dispatchable config taskName w →
  ∃ w1,
    executeTask eng (S fuel) taskName data w = (Returned JUndef, w1)
    ∧ breakpointTask (state (ctx w1)) = Some taskName
    ∧ breakpointData (state (ctx w1)) = d
    ∧ breakpointId (state (ctx w1)) = Some (uuids w)
    ∧ taskData (state (ctx w1)) !! taskName = Some d
    ∧ (taskName ∉ runningTasks (state (ctx w1)))
    ∧ (persistence eng = true →
       ∃ snapshot, last (trace w1) = Some (WorkflowSaved snapshot)
                   ∧ breakpointTask (state snapshot) = Some taskName
                   ∧ breakpointData (state snapshot) = d).
Proof.
  intros Hreg Htimeout Hexec (Hab & Hdep & Hrun).
  rewrite (executeTask_enters _ _ _ _ _ _ Hreg (conj Hab (conj Hdep Hrun))).
  rewrite attemptLoop_unfold. simpl.
  unfold tryAttempt, invokeExecute, executeBundle. rewrite Htimeout, Hexec.
  rewrite (interrupt_direct _ _ _ _ _ _ _ _ Hreg). unfold catchAttempt. simpl.
  eexists. split; [reflexivity|].
  assert (hardAborted (ctx (observe (ExecuteCalled taskName data) (enter taskName w)))
          = false) as Hab1.
  { unfold enter. simpl. by destruct (isTaskComplete taskName (ctx w)). }
  destruct (markTaskComplete_live taskName d _ Hab1) as (_ & _ & _ & Hnr & Hd & _).
  rewrite !endTaskTiming_state, !persist_ctx. simpl.
  split; [done|]. split; [done|]. split; [|split; [done|split; [done|]]].
  - unfold enter. by destruct (isTaskComplete taskName (ctx w)).
  - intros Hp. rewrite endTaskTiming_trace. unfold persist. rewrite Hp. simpl.
    eexists. split; [apply last_snoc|]. done.
Qed.

(** C1 at a task with [timeoutMs]: [execute] receives the [interrupt]
    of [executeTaskWithTimeout], which only logs.  The call returns, the
    task goes on and completes with its own result, no breakpoint is
    recorded and no [BreakpointError] is thrown. *)
Theorem C1_interrupt_lost_under_timeout :
  (executeTask (interruptEngine (Some 1000%Z)) 1 "H" JNull initialWorld).1
  = Returned (JStr "r")
  ∧ breakpointTask
      (state (ctx (executeTask (interruptEngine (Some 1000%Z)) 1 "H" JNull initialWorld).2))
    = None
  ∧ breakpointId
      (state (ctx (executeTask (interruptEngine (Some 1000%Z)) 1 "H" JNull initialWorld).2))
    = None
  ∧ taskData
      (state (ctx (executeTask (interruptEngine (Some 1000%Z)) 1 "H" JNull initialWorld).2))
    !! "H" = Some (JStr "r")
  ∧ breakpointTask
      (state (ctx (executeTask (interruptEngine None) 1 "H" JNull initialWorld).2))
    = Some "H".
Proof. split_and!; vm_compute; reflexivity. Qed.

(** *** One completion, two events *)

(** C2 at a task [B] that completes for the first time: the trace holds
    the event [taskExecution {B, 1}] twice. *)
Theorem C2_first_completion_emits_twice :
  (executeTask completingEngine 1 "B" JNull initialWorld).1 = Returned (JStr "hi done")
  ∧ taskExecutionEvents (trace (executeTask completingEngine 1 "B" JNull initialWorld).2)
    = [("B", 1); ("B", 1)]
  ∧ getTaskExecutionCount "B" (ctx (executeTask completingEngine 1 "B" JNull initialWorld).2)
    = 1.
Proof. split_and!; vm_compute; reflexivity. Qed.

(** *** A failed task *)

(** C3 at a task that throws with no retry: the error is rethrown and
    the task is still in [runningTasks]; a second call of [executeTask]
    for it returns at the re-entrancy guard without calling [execute]. *)
Theorem C3_failed_task_left_running :
  (executeTask failingEngine 1 "F" JNull initialWorld).1 = Thrown (UserError "boom")
  ∧ isTaskRunning "F" (ctx (executeTask failingEngine 1 "F" JNull initialWorld).2) = true
  ∧ executeTask failingEngine 1 "F" JNull
      (executeTask failingEngine 1 "F" JNull initialWorld).2
    = (Returned JUndef, (executeTask failingEngine 1 "F" JNull initialWorld).2).
Proof. split_and!; vm_compute; reflexivity. Qed.

(** *** An event after a hard abort *)

(** C6 at a task that calls [abort(false)] and returns: the workflow is
    hard-aborted when [execute] resolves, [markTaskComplete] does
    nothing, the successor is not executed, and yet a [taskExecution]
    event is emitted, with the count 0. *)
Theorem C6_event_emitted_after_hard_abort :
  hardAborted
    (ctx (invokeExecute abortingEngine aborting "A" JNull JUndef
            (enter "A" initialWorld)).2) = true
  ∧ (executeTask abortingEngine 2 "A" JNull initialWorld).1 = Returned (JStr "r")
  ∧ trace (executeTask abortingEngine 2 "A" JNull initialWorld).2
    = [ExecuteCalled "A" JNull; TaskExecutionEvent "A" 0]
  ∧ isTaskComplete "A" (ctx (executeTask abortingEngine 2 "A" JNull initialWorld).2)
    = false.
Proof. split_and!; vm_compute; reflexivity. Qed.

(** *** Two runs of the engine *)

(** Retry, then success: two calls of [execute], one completion, the
    result of the second attempt. *)
Example retry_then_succeed :
  (executeTask flakyEngine 1 "F" JNull initialWorld).1 = Returned (JStr "ok")
  ∧ executeCalls (trace (executeTask flakyEngine 1 "F" JNull initialWorld).2) = ["F"; "F"]
  ∧ getTaskExecutionCount "F" (ctx (executeTask flakyEngine 1 "F" JNull initialWorld).2) = 1.
Proof. split_and!; vm_compute; reflexivity. Qed.

(** A fan-out over two routes: each destination is called with the data
    of its route. *)
Example fan_out_with_route_data :
  (executeTask fanningEngine 2 "T" JNull initialWorld).1 = Returned (JStr "r")
  ∧ omap (λ o, match o with ExecuteCalled n d => Some (n, d) | _ => None end)
         (trace (executeTask fanningEngine 2 "T" JNull initialWorld).2)
    = [("T", JNull); ("X", JNum 1); ("Y", JNum 2)].
Proof. split_and!; vm_compute; reflexivity. Qed.

End WorkflowFacts.

(** ** The edge handlers *)

Module GraphFacts.
Import Graph.

Lemma onGraphAndResponses_calls {A}
    (f : GraphState * list MessageResponse →
         (A + string) * (GraphState * list MessageResponse)) w :
  calls (onGraphAndResponses f w).2 = calls w.
Proof.
  unfold onGraphAndResponses. by destruct (f (graph w, responses w)) as [r [g1 rs1]].
Qed.

(** Whatever becomes of the node execution (it succeeds, it fails and
    the fallback takes over, it fails and the error is rethrown), the
    handler has made exactly one call. *)
Lemma withFallback_executeNode_calls {C} g (edge : GraphEdge C) k inp w :
  calls (withFallback g edge (executeNode g k inp) w).2 = calls w ++ [NodeExecuted k inp].
Proof.
  unfold withFallback, executeNode, bind, record, modify. simpl.
  pose proof (onGraphAndResponses_calls (executeNodeBody g k inp)
                (mkWorld (graph w) (responses w) (calls w ++ [NodeExecuted k inp])
                         (uuids w))) as H1.
  destruct (onGraphAndResponses (executeNodeBody g k inp) _) as [[a|e] w1]; simpl in *.
  - done.
  - pose proof (onGraphAndResponses_calls (recover g (from edge) (to edge) e) w1) as H2.
    destruct (onGraphAndResponses (recover g (from edge) (to edge) e) w1) as [[a|e'] w2];
      simpl in *; congruence.
Qed.

End GraphFacts.

(** *** The condition handler *)

Module ConditionFacts.
Import Graph GraphSamples GraphFacts ConditionEdgeHandler.

(** The [for] loop, one edge at a time. *)
Lemma handle_cons g edge rest src w :
  handle g (edge :: rest) src w
  = match handleEdge g src edge w with
    | (inl _, w1) => handle g rest src w1
    | (inr e, w1) => (inr e, w1)
    end.
Proof. reflexivity. Qed.

Lemma handle_returns_source g edges src :
  ∀ w r w1, handle g edges src w = (inl r, w1) → r = src.
Proof.
  induction edges as [|edge rest IH]; intros w r w1 H.
  - by inversion H.
  - rewrite handle_cons in H.
    destruct (handleEdge g src edge w) as [[[]|e] w2]; [by eapply IH | done].
Qed.

(** The [for] loop over two stretches of edges: the second is walked
    from where the first ended, unless the first threw. *)
Lemma handle_app g pre rest src :
  ∀ w, handle g (pre ++ rest) src w
       = match handle g pre src w with
         | (inl _, w1) => handle g rest src w1
         | (inr e, w1) => (inr e, w1)
         end.
Proof.
  induction pre as [|edge pre IH]; intros w; [done|].
  rewrite <- app_comm_cons, !handle_cons.
  destruct (handleEdge g src edge w) as [[[]|e] w2]; [apply IH | done].
Qed.

Lemma handleEdge_calls g src edge w :
  calls (handleEdge g src edge w).2
  = calls w ++ (if truthy (conditionValue edge src (nodeStates (graph w)))
                then [NodeExecuted (to edge) src] else []).
Proof.
  unfold handleEdge, bind, getNodeStates. simpl.
  destruct (truthy (conditionValue edge src (nodeStates (graph w)))).
  - pose proof (withFallback_executeNode_calls g edge (to edge) src w) as H.
    destruct (withFallback g edge (executeNode g (to edge) src) w) as [[a|e] w1];
      simpl in *; done.
  - simpl. by rewrite app_nil_r.
Qed.

Lemma handle_single g edge src w :
  handle g [edge] src w
  = match handleEdge g src edge w with
    | (inl _, w1) => (inl src, w1)
    | (inr e, w1) => (inr e, w1)
    end.
Proof. rewrite handle_cons. by destruct (handleEdge g src edge w) as [[[]|e] w1]. Qed.

Lemma handle_single_calls g edge src w :
  calls (handle g [edge] src w).2 = calls (handleEdge g src edge w).2.
Proof. rewrite handle_single. by destruct (handleEdge g src edge w) as [[[]|e] w1]. Qed.

(** The handler only adds calls. *)
Lemma handle_calls_grow g edges src :
  ∀ w, calls w `prefix_of` calls (handle g edges src w).2.
Proof.
  induction edges as [|edge rest IH]; intros w; [done|].
  rewrite handle_cons. pose proof (handleEdge_calls g src edge w) as H.
  destruct (handleEdge g src edge w) as [[[]|e] w1]; simpl in H.
  - etrans; [|apply IH]. rewrite H. by apply prefix_app_r.
  - simpl. rewrite H. by apply prefix_app_r.
Qed.

(** C10: in a call of the condition handler, an edge that the loop
    reaches has its destination node executed exactly when the edge
    has a configuration with a condition and the value that condition
    returns, taken as it is, is truthy.  An edge with no condition
    leaves everything as it was; a condition that returns a promise
    has the destination executed, whatever the promise resolves to.
    The calls made for the later edges come after.  The loop reaches
    an edge when no earlier destination failed without recovery: after
    such a failure no condition is looked at and no destination
    executed. *)
Theorem C10_condition_decides g src (pre : list (GraphEdge ConditionConfig))
    (edge : GraphEdge ConditionConfig) w :
  (∀ r w1,
     handle g pre src w = (inl r, w1) →
     calls (handle g (pre ++ [edge]) src w).2
     = calls w1 ++ (if truthy (conditionValue edge src (nodeStates (graph w1)))
                    then [NodeExecuted (to edge) src] else [])
     ∧ (truthy (conditionValue edge src (nodeStates (graph w1))) = true
        ↔ ∃ c f, config edge = Some c ∧ condition c = Some f
                 ∧ truthy (f src (nodeStates (graph w1))) = true)
     ∧ (config edge = None → handle g (pre ++ [edge]) src w = (inl src, w1))
     ∧ (∀ c, config edge = Some c → condition c = None →
             handle g (pre ++ [edge]) src w = (inl src, w1))
     ∧ (∀ c f resolved,
          config edge = Some c → condition c = Some f →
          f src (nodeStates (graph w1)) = JPromise resolved →
          calls (handle g (pre ++ [edge]) src w).2
          = calls w1 ++ [NodeExecuted (to edge) src])
     ∧ (∀ post,
          calls (handle g (pre ++ [edge]) src w).2
          `prefix_of` calls (handle g (pre ++ edge :: post) src w).2))
  ∧ (∀ e w1 post,
       handle g pre src w = (inr e, w1) →
       handle g (pre ++ edge :: post) src w = (inr e, w1)).
Proof.
  split.
  - intros r w1 Hpre.
    assert (handle g (pre ++ [edge]) src w = handle g [edge] src w1) as Hone
      by by rewrite handle_app, Hpre.
    assert (calls (handle g (pre ++ [edge]) src w).2
            = calls w1 ++ (if truthy (conditionValue edge src (nodeStates (graph w1)))
                           then [NodeExecuted (to edge) src] else [])) as Hcalls
      by by rewrite Hone, handle_single_calls, handleEdge_calls.
    split; [exact Hcalls|]. split; [|split; [|split; [|split]]].
    + unfold conditionValue. split.
      * destruct (config edge) as [c|]; [|done].
        destruct (condition c) as [f|] eqn:Hf; [|done]. intros H. by exists c, f.
      * intros (c & f & -> & -> & H). done.
    + intros Hc. rewrite Hone. unfold handle, handleEdge, bind, getNodeStates, conditionValue.
      simpl. by rewrite Hc.
    + intros c Hc Hf. rewrite Hone.
      unfold handle, handleEdge, bind, getNodeStates, conditionValue. simpl.
      by rewrite Hc, Hf.
    + intros c f resolved Hc Hf Hv. rewrite Hcalls. unfold conditionValue.
      by rewrite Hc, Hf, Hv.
    + intros post. rewrite !handle_app, Hpre. rewrite !handle_cons.
      destruct (handleEdge g src edge w1) as [[[]|e] w2]; [|done].
      apply handle_calls_grow.
  - intros e w1 post Hpre. by rewrite handle_app, Hpre.
Qed.

Lemma C10_condition_decides_witness :
  (handle echoGraph [readyEdge; bareEdge] "draft" emptyWorld
   = (inl "draft", mkWorld (mkGraphState ∅ ∅ []) [] [NodeExecuted "critic" "draft"] 0)
   ∧ calls (handle echoGraph ([readyEdge; bareEdge] ++ [asyncEdge]) "draft" emptyWorld).2
     = [NodeExecuted "critic" "draft"; NodeExecuted "critic" "draft"])
  ∧ (handle brokenGraph [readyEdge] "draft" emptyWorld
     = (inr "node failed",
        mkWorld (mkGraphState ∅ ∅ []) [] [NodeExecuted "critic" "draft"] 0)
     ∧ handle brokenGraph ([readyEdge] ++ [asyncEdge; readyEdge]) "draft" emptyWorld
       = (inr "node failed",
          mkWorld (mkGraphState ∅ ∅ []) [] [NodeExecuted "critic" "draft"] 0)).
Proof.
  split.
  - split; [reflexivity|].
    apply (proj1 (C10_condition_decides echoGraph "draft" [readyEdge; bareEdge] asyncEdge
                    emptyWorld) "draft"
                 (mkWorld (mkGraphState ∅ ∅ []) [] [NodeExecuted "critic" "draft"] 0)
                 eq_refl)
      with (c := mkConditionConfig (Some (λ _ _, JPromise (JBool false))))
           (f := λ _ _, JPromise (JBool false)) (resolved := JBool false);
      reflexivity.
  - split; [reflexivity|].
    apply (proj2 (C10_condition_decides brokenGraph "draft" [readyEdge] asyncEdge
                    emptyWorld)).
    reflexivity.
Defined.

(** Three edges in one call: the first has a condition that holds, the
    second none, the third one that returns an empty string. *)
Lemma handle_three_edges :
  handle echoGraph
    [mkEdge "writer" "critic" (Some (mkConditionConfig (Some (λ _ _, JBool true))));
     mkEdge "writer" "editor" None;
     mkEdge "writer" "printer" (Some (mkConditionConfig (Some (λ _ _, JStr ""))))]
    "draft" emptyWorld
  = (inl "draft", mkWorld (mkGraphState ∅ ∅ []) [] [NodeExecuted "critic" "draft"] 0).
Proof. reflexivity. Qed.

End ConditionFacts.

(** *** The loop handler with no iteration *)

Module LoopFacts.
Import Graph GraphSamples GraphFacts LoopEdgeHandler.

Lemma join_single sep x : join sep [x] = x.
Proof. reflexivity. Qed.

(** One edge with [maxIterations] 0 and no [outputTransform]: no turn of
    the loop, no call, no response pushed, and [finalResponse] is set to
    the source response (or left alone when a node is missing). *)
Lemma handleEdge_zero g src (edge : GraphEdge LoopConfig) c w :
  config edge = Some c →
  maxIterations c = Some 0%Z →
  outputTransform c = None →
  ∃ r w1, withFallback g edge (handleEdge g src edge) w = (inl r, w1)
          ∧ default src (mjoin r) = src
          ∧ calls w1 = calls w ∧ responses w1 = responses w ∧ uuids w1 = uuids w.
Proof.
  intros Hc Hmax Hout. unfold withFallback, handleEdge. rewrite Hc. simpl.
  rewrite Hmax, Hout. simpl.
  destruct (getNode g (to edge)) as [toNode|];
    [destruct (getNode g (from edge)) as [fromNode|]|];
    simpl; eexists _, _; (split; [reflexivity|]); done.
Qed.

(** C9: when every edge handed to the loop handler has [maxIterations]
    0 and no [outputTransform], the handler runs no node (no call is
    made, no response is pushed, no identifier is drawn) and returns the
    source response. *)
Theorem C9_zero_iterations_return_source g src edges :
  Forall (λ edge : GraphEdge LoopConfig,
            ∃ c, config edge = Some c ∧ maxIterations c = Some 0%Z
                 ∧ outputTransform c = None) edges →
  ∀ w, ∃ w1, handle g edges src w = (inl src, w1)
             ∧ calls w1 = calls w ∧ responses w1 = responses w ∧ uuids w1 = uuids w.
Proof.
  unfold handle.
  induction 1 as [|edge rest (c & Hc & Hmax & Hout) _ IH]; intros w.
  - exists w. done.
  - simpl. unfold bind.
    destruct (handleEdge_zero g src edge c w Hc Hmax Hout)
      as (r & w1 & Hrun & Hr & H1 & H2 & H3).
    rewrite Hrun, Hr. destruct (IH w1) as (w2 & Hrest & H4 & H5 & H6).
    exists w2. rewrite Hrest. repeat split; congruence.
Qed.

Lemma C9_zero_iterations_return_source_witness :
  ∃ w1, handle echoGraph [idleEdge] "draft" emptyWorld = (inl "draft", w1)
        ∧ calls w1 = calls emptyWorld ∧ responses w1 = responses emptyWorld
        ∧ uuids w1 = uuids emptyWorld.
Proof.
  apply (C9_zero_iterations_return_source echoGraph "draft" [idleEdge]).
  apply Forall_cons. split; [|apply Forall_nil; exact I].
  exists (mkLoopConfig (Some 0%Z) None None None). repeat split; reflexivity.
Defined.

(** With one iteration allowed, the same edge runs its two nodes, the
    destination first, and joins the three responses. *)
Lemma loop_runs_both_nodes :
  (handle echoGraph
     [mkEdge "writer" "critic" (Some (mkLoopConfig (Some 1%Z) None None None))]
     "draft" emptyWorld).1
  = inl ("draft" ++ blankLine ++ "answer" ++ blankLine ++ "answer")%string
  ∧ calls (handle echoGraph
             [mkEdge "writer" "critic" (Some (mkLoopConfig (Some 1%Z) None None None))]
             "draft" emptyWorld).2
    = [AgentMessage 0 "critic" "draft"; AgentMessage 1 "writer" "answer"].
Proof. split_and!; vm_compute; reflexivity. Qed.

End LoopFacts.

(** ** What a run of the engine can change *)

Module ProgressFacts.
Import Workflow Progress.

Lemma advances_refl eng w : advances eng w w.
Proof. constructor; auto. Qed.

Lemma advances_trans eng w1 w2 w3 :
  advances eng w1 w2 → advances eng w2 w3 → advances eng w1 w3.
Proof.
  intros [T1 A1 C1 U1 G1 F1 K1 R1 D1 I1] [T2 A2 C2 U2 G2 F2 K2 R2 D2 I2]. constructor.
  - by etrans.
  - auto.
  - intros t. specialize (C1 t). specialize (C2 t). lia.
  - lia.
  - intros t. specialize (G1 t). specialize (G2 t). lia.
  - intros t. specialize (F1 t). specialize (F2 t). lia.
  - intros t H. destruct (K2 t H) as [H'|H']; auto.
  - intros t H. destruct (R2 t H) as [H'|H']; auto.
  - intros t H. destruct (D2 t H) as [H'|H']; auto.
  - auto.
Qed.

Lemma observe_advances eng o w : advances eng w (observe o w).
Proof. constructor; simpl; auto. by apply prefix_app_r. Qed.

Lemma persist_advances eng eng' w : advances eng w (persist eng' w).
Proof.
  unfold persist, saveWorkflow. destruct (persistence eng').
  - apply observe_advances.
  - apply advances_refl.
Qed.

Lemma abortWorkflow_advances eng graceful w : advances eng w (abortWorkflow graceful w).
Proof. constructor; simpl; auto. Qed.

Lemma resetTaskCompletion_advances eng taskName w :
  advances eng w (resetTaskCompletion taskName w).
Proof.
  constructor; simpl; auto.
  - intros t [H _]%elem_of_difference. auto.
  - intros Hc t [H _]%elem_of_difference. by apply Hc.
Qed.

Lemma count_insert (taskName : string) (n : nat) t (c : gmap string nat) :
  default 0 (<[taskName := n]> c !! t)
  = if bool_decide (taskName = t) then n else default 0 (c !! t).
Proof.
  case_bool_decide as E.
  - subst. by rewrite lookup_insert_eq.
  - by rewrite lookup_insert_ne.
Qed.

Lemma markTaskComplete_advances eng taskName data w :
  is_Some (tasks eng !! taskName) → advances eng w (markTaskComplete taskName data w).
Proof.
  intros Hreg. unfold markTaskComplete.
  destruct (hardAborted (ctx w)); [apply advances_refl|].
  constructor; simpl; auto.
  - by apply prefix_app_r.
  - intros t. unfold getTaskExecutionCount. simpl. rewrite count_insert.
    case_bool_decide; subst; lia.
  - intros t [H|H]%elem_of_union; auto.
    apply elem_of_singleton in H. subst. auto.
  - intros t [H _]%elem_of_difference. auto.
  - intros t H. destruct (decide (taskName = t)) as [->|Hne]; auto.
    rewrite lookup_insert_ne in H by done. auto.
  - intros Hc t Ht. unfold getTaskExecutionCount. simpl. rewrite count_insert.
    destruct (decide (taskName = t)) as [->|Hne].
    + rewrite lookup_insert_eq, bool_decide_eq_true_2 by done.
      split; [|split; [eauto|lia]].
      intros [_ Hn]%elem_of_difference. apply Hn. by apply elem_of_singleton.
    + rewrite lookup_insert_ne, bool_decide_eq_false_2 by done.
      apply elem_of_union in Ht as [Ht|Ht]; [by apply elem_of_singleton in Ht|].
      destruct (Hc t Ht) as (H1 & H2 & H3). split; [|done].
      intros [Hr _]%elem_of_difference. by apply H1.
Qed.

Lemma timings_insert (taskName : string) (l : list TaskTiming) t
    (c : gmap string (list TaskTiming)) :
  default [] (<[taskName := l]> c !! t)
  = if bool_decide (taskName = t) then l else default [] (c !! t).
Proof.
  case_bool_decide as E.
  - subst. by rewrite lookup_insert_eq.
  - by rewrite lookup_insert_ne.
Qed.

Lemma startTaskTiming_advances eng taskName w :
  advances eng w (startTaskTiming taskName w).
Proof.
  constructor; simpl; auto.
  - intros t. unfold timingsOf. simpl. rewrite timings_insert.
    case_bool_decide; subst; [|lia]. rewrite length_app. lia.
  - intros t. unfold failuresOf, timingsOf. simpl. rewrite timings_insert.
    case_bool_decide; subst; [|lia]. rewrite List.filter_app, length_app. lia.
Qed.

Lemma endLast_snoc err earlier current :
  endLast err (earlier ++ [current])
  = earlier ++ [match err with
                | Some e => mkTiming true failed (Some e)
                | None => mkTiming true (status current) (error current)
                end].
Proof.
  unfold endLast. rewrite reverse_snoc. by rewrite reverse_involutive.
Qed.

Lemma endLast_length err timings : length (endLast err timings) = length timings.
Proof.
  destruct timings as [|x l] using rev_ind; [done|].
  rewrite endLast_snoc. by rewrite !length_app.
Qed.

(** Closing a record never clears a failure. *)
Lemma endLast_failures err timings :
  (length (List.filter isFailed timings)
   ≤ length (List.filter isFailed (endLast err timings)))%nat.
Proof.
  destruct timings as [|x l] using rev_ind; [done|].
  rewrite endLast_snoc, !List.filter_app, !length_app. simpl.
  destruct err as [e|]; unfold isFailed; simpl; destruct (status x); simpl; lia.
Qed.

Lemma endTaskTiming_advances eng taskName err w :
  advances eng w (endTaskTiming taskName err w).
Proof.
  unfold endTaskTiming. destruct (taskTimings (ctx w) !! taskName) as [l|] eqn:E;
    [|apply advances_refl].
  constructor; simpl; auto.
  - intros t. unfold timingsOf. simpl. rewrite timings_insert.
    case_bool_decide; subst; [|lia]. rewrite E. simpl. by rewrite endLast_length.
  - intros t. unfold failuresOf, timingsOf. simpl. rewrite timings_insert.
    case_bool_decide; subst; [|lia]. rewrite E. simpl. apply endLast_failures.
Qed.

Lemma createBreakpoint_advances eng taskName data w :
  advances eng w (createBreakpoint eng taskName data w).2.
Proof.
  unfold createBreakpoint. case_bool_decide; simpl; [|apply advances_refl].
  eapply advances_trans; [|apply persist_advances].
  constructor; simpl; auto.
Qed.

Lemma runBody_advances eng taskName b body :
  is_Some (tasks eng !! taskName) →
  ∀ left taskRedirect w,
    advances eng w (runBody eng taskName b left body taskRedirect w).2.
Proof.
  intros Hreg.
  induction body as [v|e|n k IH|d k IH|gr k IH|ms k IH|k IH]; intros left rd w; simpl.
  - apply advances_refl.
  - apply advances_refl.
  - apply IH.
  - destruct (interruptClosure b).
    + pose proof (createBreakpoint_advances eng taskName d (markTaskComplete taskName d w)) as H.
      destruct (createBreakpoint eng taskName d (markTaskComplete taskName d w))
        as [[e|] w2]; simpl in *;
        (eapply advances_trans; [by apply markTaskComplete_advances|done]).
    + pose proof (createBreakpoint_advances eng taskName d w) as H.
      by destruct (createBreakpoint eng taskName d w) as [[e|] w2].
    + apply IH.
  - eapply advances_trans; [apply abortWorkflow_advances|apply IH].
  - destruct left as [budget|]; [|apply IH].
    destruct (budget <=? ms)%Z; [apply advances_refl|apply IH].
  - apply IH.
Qed.

Section Run.

Variable eng : Engine.
Variable exec : string → JsVal → World → Outcome * World.
Hypothesis exec_advances : ∀ n d w, advances eng w (exec n d w).2.

Lemma executeTarget_advances target data w :
  advances eng w (executeTarget exec target data w).2.
Proof.
  destruct target; simpl; try apply exec_advances;
    destruct (hardAborted (ctx w)); apply advances_refl.
Qed.

Lemma executeAll_advances targets data :
  ∀ first w, advances eng w (executeAll exec targets data first w).2.
Proof.
  induction targets as [|target rest IH]; intros first w; simpl.
  - apply advances_refl.
  - pose proof (executeTarget_advances target data w) as H.
    destruct (executeTarget exec target data w) as [[v|e|] w1]; simpl in *.
    + eapply advances_trans; [exact H|apply IH].
    + eapply advances_trans; [exact H|apply IH].
    + done.
Qed.

Lemma executeRoutes_advances routes result :
  ∀ first w, advances eng w (executeRoutes exec routes result first w).2.
Proof.
  induction routes as [|r rest IH]; intros first w; simpl.
  - apply advances_refl.
  - destruct (getProp r "task") as [target|]; [|apply advances_refl].
    destruct (getProp r "data") as [d|]; [|apply advances_refl].
    pose proof (executeTarget_advances target (if isUndefined d then result else d) w) as H.
    destruct (executeTarget exec target (if isUndefined d then result else d) w)
      as [[v|e|] w1]; simpl in *.
    + eapply advances_trans; [exact H|apply IH].
    + eapply advances_trans; [exact H|apply IH].
    + done.
Qed.

Lemma dispatchNext_advances nextTasks result w :
  advances eng w (dispatchNext exec nextTasks result w).2.
Proof.
  unfold dispatchNext. destruct (truthy nextTasks); [|apply advances_refl].
  destruct nextTasks as [| |b|n|s|items|props|elems|entries|v];
    try apply executeTarget_advances.
  destruct items as [|first rest]; [apply executeAll_advances|].
  destruct (typeofObject first); [|apply executeAll_advances].
  destruct (hasProp "task" first) as [[|]|].
  - apply executeRoutes_advances.
  - apply executeAll_advances.
  - apply advances_refl.
Qed.

Lemma dispatchErrorNext_advances next result w :
  advances eng w (dispatchErrorNext exec next result w).2.
Proof.
  unfold dispatchErrorNext. destruct (truthy next); [|apply advances_refl].
  destruct next as [| |b|n|s|items|props|elems|entries|v];
    try apply executeTarget_advances.
  destruct (typeofObject (default JUndef (head items)));
    [apply executeRoutes_advances|apply executeAll_advances].
Qed.

Variable config : TaskConfig.
Variable taskName : string.
Variable data : JsVal.
Hypothesis registered : is_Some (tasks eng !! taskName).

Lemma recordCompletion_advances taskResult w :
  advances eng w (recordCompletion eng taskName taskResult w).
Proof.
  unfold recordCompletion, emitTaskExecutionEvent.
  eapply advances_trans; [|apply observe_advances].
  eapply advances_trans; [|apply persist_advances].
  eapply advances_trans; [apply endTaskTiming_advances|].
  by apply markTaskComplete_advances.
Qed.

Lemma resolveNext_advances result directNextTasks taskRedirect w :
  advances eng w (resolveNext eng config taskName result directNextTasks taskRedirect w).2.
Proof.
  unfold resolveNext.
  destruct (isUndefined (preferRedirect taskRedirect directNextTasks));
    [|apply advances_refl].
  eapply advances_trans; [apply observe_advances|by apply runBody_advances].
Qed.

Lemma followNext_advances nextTasks result w :
  advances eng w (followNext eng exec nextTasks result w).2.
Proof.
  unfold followNext. destruct (strictEqStr nextTasks "end"); [apply persist_advances|].
  pose proof (dispatchNext_advances nextTasks result w) as H.
  destruct (dispatchNext exec nextTasks result w) as [[v|e|] w1]; simpl in *; try done.
  eapply advances_trans; [exact H|apply persist_advances].
Qed.

Lemma afterExecute_advances taskResult taskRedirect w :
  advances eng w (afterExecute eng exec config taskName taskResult taskRedirect w).2.
Proof.
  unfold afterExecute. destruct (splitResult taskResult) as [result directNextTasks].
  pose proof (recordCompletion_advances taskResult w) as H0.
  destruct (hardAborted (ctx (recordCompletion eng taskName taskResult w))); [done|].
  pose proof (resolveNext_advances result directNextTasks taskRedirect
                (recordCompletion eng taskName taskResult w)) as H1.
  destruct (resolveNext eng config taskName result directNextTasks taskRedirect
              (recordCompletion eng taskName taskResult w)) as [[[nextTasks|e] rd1] w2];
    simpl in *.
  - pose proof (followNext_advances nextTasks result w2) as H2.
    destruct (followNext eng exec nextTasks result w2) as [outcome w3]; simpl in *.
    eapply advances_trans; [exact H0|]. by eapply advances_trans.
  - by eapply advances_trans.
Qed.

Lemma tryAttempt_advances taskRedirect w :
  advances eng w (tryAttempt eng exec config taskName data taskRedirect w).2.
Proof.
  unfold tryAttempt, invokeExecute.
  pose proof (runBody_advances eng taskName (executeBundle config) (execute config data)
                registered (deadline (executeBundle config)) taskRedirect
                (observe (ExecuteCalled taskName data) w)) as H.
  destruct (runBody eng taskName (executeBundle config) (deadline (executeBundle config))
              (execute config data) taskRedirect (observe (ExecuteCalled taskName data) w))
    as [[[taskResult|e] rd1] w1]; simpl in *.
  - eapply advances_trans; [apply observe_advances|].
    eapply advances_trans; [exact H|apply afterExecute_advances].
  - eapply advances_trans; [apply observe_advances|exact H].
Qed.

Lemma rethrowOrLoop_advances e attempt again w :
  (∀ w', advances eng w' (again w').2) →
  advances eng w (rethrowOrLoop config e attempt again w).2.
Proof.
  intros Hagain. unfold rethrowOrLoop.
  destruct (retries config <? attempt)%nat; [apply advances_refl|apply Hagain].
Qed.

Lemma handleError_advances handler e attempt again w :
  (∀ w', advances eng w' (again w').2) →
  advances eng w (handleError eng exec config taskName data handler e attempt again w).2.
Proof.
  intros Hagain. unfold handleError.
  pose proof (runBody_advances eng taskName onErrorBundle (handler e data) registered
                None JUndef (observe (OnErrorCalled taskName e) w)) as H.
  destruct (runBody eng taskName onErrorBundle None (handler e data) JUndef
              (observe (OnErrorCalled taskName e) w)) as [[[errorResult|e'] rd1] w1];
    simpl in *.
  2: { eapply advances_trans; [apply observe_advances|].
       eapply advances_trans; [exact H|by apply rethrowOrLoop_advances]. }
  assert (advances eng w w1) as Hw1
    by (eapply advances_trans; [apply observe_advances|exact H]).
  destruct (getProp errorResult "retry") as [retry|];
    [|eapply advances_trans; [exact Hw1|by apply rethrowOrLoop_advances]].
  destruct (truthy retry && (attempt <=? retries config)%nat);
    [eapply advances_trans; [exact Hw1|apply Hagain]|].
  destruct (isUndefined (default JUndef (getProp errorResult "result")));
    [eapply advances_trans; [exact Hw1|by apply rethrowOrLoop_advances]|].
  set (result := default JUndef (getProp errorResult "result")).
  set (w2 := persist eng (markTaskComplete taskName result w1)).
  assert (advances eng w w2) as Hw2.
  { eapply advances_trans; [exact Hw1|].
    eapply advances_trans; [by apply markTaskComplete_advances|apply persist_advances]. }
  pose proof (dispatchErrorNext_advances
                (default JUndef (getProp errorResult "next")) result w2) as H3.
  destruct (dispatchErrorNext exec (default JUndef (getProp errorResult "next")) result w2)
    as [[v|e3|] w3]; simpl in *.
  - by eapply advances_trans.
  - eapply advances_trans; [exact Hw2|].
    eapply advances_trans; [exact H3|by apply rethrowOrLoop_advances].
  - by eapply advances_trans.
Qed.

Lemma catchAttempt_advances e attempt again w :
  (∀ w', advances eng w' (again w').2) →
  advances eng w (catchAttempt eng exec config taskName data e attempt again w).2.
Proof.
  intros Hagain. unfold catchAttempt.
  destruct (isBreakpointError e); [apply endTaskTiming_advances|].
  eapply advances_trans; [apply endTaskTiming_advances|].
  destruct (onError config) as [handler|].
  - by apply handleError_advances.
  - by apply rethrowOrLoop_advances.
Qed.

Lemma attemptLoop_advances turns :
  ∀ attempt taskRedirect w,
    advances eng w (attemptLoop eng exec config taskName data turns attempt taskRedirect w).2.
Proof.
  induction turns as [|turns IH]; intros attempt rd w; simpl;
    destruct (attempt <=? retries config)%nat; try apply advances_refl.
  pose proof (tryAttempt_advances rd w) as H.
  destruct (tryAttempt eng exec config taskName data rd w) as [[[v|e|] rd1] w1];
    simpl in *; try done.
  eapply advances_trans; [exact H|]. apply catchAttempt_advances. intros w'. apply IH.
Qed.

End Run.

Lemma run_advances eng fuel :
  ∀ taskName data w, advances eng w (executeTask eng fuel taskName data w).2.
Proof.
  induction fuel as [|fuel IH]; intros taskName data w; [apply advances_refl|].
  cbn [executeTask].
  destruct (hardAborted (ctx w)); [apply advances_refl|].
  destruct (tasks eng !! taskName) as [config|] eqn:Hreg;
    [|apply endTaskTiming_advances].
  destruct (dependenciesMet config (ctx w)); cbn [negb]; [|apply advances_refl].
  set (w1 := if isTaskComplete taskName (ctx w) then resetTaskCompletion taskName w else w).
  assert (advances eng w w1) as H1.
  { unfold w1. destruct (isTaskComplete taskName (ctx w));
      [apply resetTaskCompletion_advances|apply advances_refl]. }
  destruct (isTaskRunning taskName (ctx w1)); [done|].
  eapply advances_trans; [exact H1|].
  eapply advances_trans; [|apply attemptLoop_advances; [exact IH|by rewrite Hreg]].
  eapply advances_trans; [|apply startTaskTiming_advances].
  assert (taskName ∉ completedTasks (state (ctx w1))) as Hfresh.
  { unfold w1. destruct (isTaskComplete taskName (ctx w)) eqn:E; simpl.
    - intros [_ Hn]%elem_of_difference. apply Hn. by apply elem_of_singleton.
    - by apply bool_decide_eq_false_1 in E. }
  constructor; simpl; auto.
  - intros t [H|H]%elem_of_union; auto.
    apply elem_of_singleton in H. subst. rewrite Hreg. eauto.
  - intros Hc t Ht. destruct (Hc t Ht) as (Hn & Hd & Hp). split; [|done].
    intros [H|H]%elem_of_union; [|done].
    apply elem_of_singleton in H. by subst.
Qed.




End ProgressFacts.

(** ** Retries *)

Module RetryFacts.
Import Workflow Observations Scenarios WorkflowFacts.

Lemma endTaskTiming_count taskName err t w :
  getTaskExecutionCount t (ctx (endTaskTiming taskName err w))
  = getTaskExecutionCount t (ctx w).
Proof. unfold endTaskTiming. by destruct (taskTimings (ctx w) !! taskName). Qed.

(** What the success path records, when the workflow is not
    hard-aborted. *)
Lemma recordCompletion_live eng taskName taskResult w :
  hardAborted (ctx w) = false →
  let w1 := recordCompletion eng taskName taskResult w in
  hardAborted (ctx w1) = false
  ∧ getTaskExecutionCount taskName (ctx w1) = getTaskExecutionCount taskName (ctx w) + 1
  ∧ taskName ∈ completedTasks (state (ctx w1)).
Proof.
  intros Hab. unfold recordCompletion, emitTaskExecutionEvent. simpl.
  rewrite persist_ctx.
  assert (hardAborted (ctx (endTaskTiming taskName None w)) = false) as Hab1
    by by rewrite endTaskTiming_hardAborted.
  destruct (markTaskComplete_live taskName (splitResult taskResult).1 _ Hab1)
    as (_ & Hc & Hin & _ & _ & Hab2).
  rewrite Hc, endTaskTiming_count. done.
Qed.

Lemma executeTask_missing eng fuel taskName data w :
  hardAborted (ctx w) = false →
  tasks eng !! taskName = None →
  executeTask eng (S fuel) taskName data w
  = (Thrown (TaskNotFound (JStr taskName)),
     endTaskTiming taskName (Some (TaskNotFound (JStr taskName))) w).
Proof. intros Hab Hmissing. simpl. by rewrite Hab, Hmissing. Qed.

(** One attempt of a task whose [execute] returns and whose router
    names a task that is not registered: the task is recorded as
    complete, then the call for the successor throws. *)
Lemma attempt_with_missing_successor eng fuel config taskName data v next w :
  alwaysReturns eng config taskName data v →
  carriesRoute v = false →
  (∀ result, route config result = Return (JStr next)) →
  next ≠ "end" → next ≠ "" →
  tasks eng !! next = None →
  hardAborted (ctx w) = false →
  ∃ w1,
    tryAttempt eng (executeTask eng (S fuel)) config taskName data JUndef w
    = (Thrown (TaskNotFound (JStr next)), JUndef, w1)
    ∧ executeCalls (trace w1) = executeCalls (trace w) ++ [taskName]
    ∧ getTaskExecutionCount taskName (ctx w1) = getTaskExecutionCount taskName (ctx w) + 1
    ∧ taskName ∈ completedTasks (state (ctx w1))
    ∧ hardAborted (ctx w1) = false.
Proof.
  intros Hret Hcarry Hroute Hend Hempty Hmissing Hab.
  unfold tryAttempt. rewrite Hret. unfold afterExecute.
  assert (splitResult v = (v, JUndef)) as -> by (unfold splitResult; by rewrite Hcarry).
  destruct (recordCompletion_live eng taskName v
              (observe (ExecuteCalled taskName data) w) Hab) as (Hab1 & Hc & Hin).
  eexists. split.
  { rewrite Hab1. unfold resolveNext, preferRedirect. cbn [isUndefined andb negb].
    rewrite Hroute. cbn [runBody]. unfold followNext, dispatchNext.
    cbn [strictEqStr truthy].
    rewrite (proj2 (String.eqb_neq next "end") Hend).
    rewrite (proj2 (String.eqb_neq next "") Hempty). cbn [negb executeTarget].
    rewrite executeTask_missing; [reflexivity|exact Hab1|exact Hmissing]. }
  rewrite endTaskTiming_trace, endTaskTiming_count, endTaskTiming_state,
    endTaskTiming_hardAborted. cbn [observe trace ctx].
  rewrite executeCalls_app, recordCompletion_executeCalls. cbn [observe trace ctx].
  split; [|done]. rewrite executeCalls_app. simpl.
  by rewrite app_nil_r.
Qed.

Lemma attemptLoop_missing_successor eng fuel config taskName data v next :
  onError config = None →
  alwaysReturns eng config taskName data v →
  carriesRoute v = false →
  (∀ result, route config result = Return (JStr next)) →
  next ≠ "end" → next ≠ "" →
  tasks eng !! next = None →
  ∀ k attempt w,
    attempt + k = retries config →
    hardAborted (ctx w) = false →
    ∃ w1,
      attemptLoop eng (executeTask eng (S fuel)) config taskName data (S k) attempt JUndef w
      = (Thrown (TaskNotFound (JStr next)), w1)
      ∧ executeCalls (trace w1) = executeCalls (trace w) ++ replicate (S k) taskName
      ∧ getTaskExecutionCount taskName (ctx w1)
        = getTaskExecutionCount taskName (ctx w) + S k
      ∧ taskName ∈ completedTasks (state (ctx w1)).
Proof.
  intros Hhandler Hret Hcarry Hroute Hend Hempty Hmissing.
  induction k as [|k IH]; intros attempt w Hk Hab;
    destruct (attempt_with_missing_successor eng fuel config taskName data v next w
                Hret Hcarry Hroute Hend Hempty Hmissing Hab)
      as (w1 & Hturn & Hcalls & Hcount & Hin & Hab1);
    rewrite attemptLoop_unfold, Hturn;
    rewrite (proj2 (Nat.leb_le attempt (retries config))) by lia;
    unfold catchAttempt; simpl; rewrite Hhandler; unfold rethrowOrLoop.
  - rewrite (proj2 (Nat.ltb_lt (retries config) (attempt + 1))) by lia.
    eexists. split; [reflexivity|].
    rewrite endTaskTiming_trace, endTaskTiming_count, endTaskTiming_state.
    rewrite Hcalls, Hcount. done.
  - rewrite (proj2 (Nat.ltb_ge (retries config) (attempt + 1))) by lia.
    destruct (IH (attempt + 1) (endTaskTiming taskName
                                  (Some (TaskNotFound (JStr next))) w1))
      as (w2 & Hloop & Hcalls2 & Hcount2 & Hin2).
    + lia.
    + by rewrite endTaskTiming_hardAborted.
    + exists w2. split; [exact Hloop|].
      rewrite Hcalls2, Hcount2, endTaskTiming_trace, endTaskTiming_count, Hcalls, Hcount.
      split; [|split; [lia|done]].
      rewrite <- app_assoc. done.
Qed.

(** X3: a task without an error handler whose [execute] returns and
    whose router names a task that is not registered.  The error of the
    successor lands in the [catch] block of the task itself: [execute]
    is called again for every retry, each call counts as a completion,
    and [executeTask] ends by throwing the successor's error while the
    task is recorded as complete. *)
Theorem missing_successor_reruns_task eng fuel config taskName data v next w :
  tasks eng !! taskName = Some config →
  onError config = None →
  alwaysReturns eng config taskName data v →
  carriesRoute v = false →
  (∀ result, route config result = Return (JStr next)) →
  next ≠ "end" → next ≠ "" →
  tasks eng !! next = None →
  dispatchable config taskName w →
  ∃ w1,
    executeTask eng (S (S fuel)) taskName data w = (Thrown (TaskNotFound (JStr next)), w1)
    ∧ executeCalls (trace w1)
      = executeCalls (trace w) ++ replicate (S (retries config)) taskName
    ∧ getTaskExecutionCount taskName (ctx w1)
      = getTaskExecutionCount taskName (ctx w) + S (retries config)
    ∧ taskName ∈ completedTasks (state (ctx w1)).
Proof.
  intros Hreg Hhandler Hret Hcarry Hroute Hend Hempty Hmissing Hdisp.
  rewrite (executeTask_enters _ _ _ _ _ _ Hreg Hdisp).
  destruct (attemptLoop_missing_successor eng fuel config taskName data v next
              Hhandler Hret Hcarry Hroute Hend Hempty Hmissing
              (retries config) 0 (enter taskName w))
    as (w1 & Hloop & Hcalls & Hcount & Hin).
  - done.
  - destruct Hdisp as (Hab & _). unfold enter. simpl.
    by destruct (isTaskComplete taskName (ctx w)).
  - exists w1. split; [exact Hloop|]. rewrite Hcalls, Hcount, enter_trace.
    split; [done|]. split; [|done].
    unfold enter, getTaskExecutionCount. by destruct (isTaskComplete taskName (ctx w)).
Qed.

Lemma missing_successor_reruns_task_witness :
  ∃ w1,
    executeTask relayingEngine 2 "R" JNull initialWorld
    = (Thrown (TaskNotFound (JStr "missing")), w1)
    ∧ executeCalls (trace w1) = executeCalls (trace initialWorld) ++ ["R"; "R"; "R"]
    ∧ getTaskExecutionCount "R" (ctx w1)
      = getTaskExecutionCount "R" (ctx initialWorld) + 3
    ∧ "R" ∈ completedTasks (state (ctx w1)).
Proof.
  apply (missing_successor_reruns_task relayingEngine 0 relaying "R" JNull (JStr "r")
           "missing" initialWorld).
  - reflexivity.
  - reflexivity.
  - intros rd w. reflexivity.
  - reflexivity.
  - intros result. reflexivity.
  - discriminate.
  - discriminate.
  - reflexivity.
  - split; [reflexivity | split; [reflexivity | apply not_elem_of_empty]].
Defined.

Lemma onErrorCalls_app tr1 tr2 :
  onErrorCalls (tr1 ++ tr2) = onErrorCalls tr1 ++ onErrorCalls tr2.
Proof. apply omap_app. Qed.

(** The turn of the [catch] block in which a handler's result is
    taken: the task is recorded as complete with that result, and
    [executeTask] returns it. *)
Lemma handleError_result eng exec config taskName data handler e attempt again w
    errorResult retry result :
  handlerReturns eng taskName handler data errorResult →
  getProp errorResult "retry" = Some retry →
  truthy retry && (attempt <=? retries config)%nat = false →
  getProp errorResult "result" = Some result →
  isUndefined result = false →
  truthy (default JUndef (getProp errorResult "next")) = false →
  handleError eng exec config taskName data handler e attempt again w
  = (Returned result,
     persist eng (markTaskComplete taskName result (observe (OnErrorCalled taskName e) w))).
Proof.
  intros Hh Hretry Hstop Hresult Hdef Hnext. unfold handleError.
  rewrite Hh, Hretry, Hstop, Hresult.
  change (default JUndef (Some result)) with result. rewrite Hdef.
  unfold dispatchErrorNext. by rewrite Hnext.
Qed.

(** The attempt after which the handler's result is taken. *)
Lemma attempt_with_result eng exec config taskName data handler e
    errorResult retry result k attempt taskRedirect w :
  tasks eng !! taskName = Some config →
  onError config = Some handler →
  isBreakpointError e = false →
  alwaysThrowsError eng config taskName data e →
  handlerReturns eng taskName handler data errorResult →
  getProp errorResult "retry" = Some retry →
  getProp errorResult "result" = Some result →
  isUndefined result = false →
  truthy (default JUndef (getProp errorResult "next")) = false →
  (attempt ≤ retries config)%nat →
  truthy retry && (attempt + 1 <=? retries config)%nat = false →
  ∃ w1,
    attemptLoop eng exec config taskName data (S k) attempt taskRedirect w
    = (Returned result, w1)
    ∧ executeCalls (trace w1) = executeCalls (trace w) ++ [taskName]
    ∧ onErrorCalls (trace w1) = onErrorCalls (trace w) ++ [taskName]
    ∧ (hardAborted (ctx w1) = false →
       taskName ∈ completedTasks (state (ctx w1))
       ∧ taskData (state (ctx w1)) !! taskName = Some result).
Proof.
  intros Hreg Hhandler He Hthrows Hh Hretry Hresult Hdef Hnext Hle Hstop.
  destruct (Hthrows taskRedirect w) as (rd1 & w0 & Hrun).
  pose proof (invokeExecute_trace _ _ _ _ _ _ _ _ _ Hreg Hrun He) as Ht0.
  rewrite attemptLoop_unfold.
  rewrite (proj2 (Nat.leb_le attempt (retries config))) by lia.
  rewrite (tryAttempt_rejected _ _ _ _ _ _ _ _ _ _ Hrun).
  unfold catchAttempt. rewrite He, Hhandler.
  rewrite (handleError_result _ _ _ _ _ _ _ _ _ _ errorResult retry result Hh Hretry);
    try done.
  eexists. split; [reflexivity|].
  rewrite persist_executeCalls, markTaskComplete_executeCalls, persist_ctx.
  cbn [observe trace ctx]. rewrite executeCalls_app, endTaskTiming_trace, Ht0.
  rewrite executeCalls_app. simpl. rewrite !app_nil_r.
  split; [done|]. split.
  - unfold persist, saveWorkflow, markTaskComplete.
    destruct (persistence eng), (hardAborted _); simpl;
      rewrite ?onErrorCalls_app, ?endTaskTiming_trace, ?Ht0, ?onErrorCalls_app; simpl;
      by rewrite ?app_nil_r.
  - intros Hab.
    assert (hardAborted (ctx (observe (OnErrorCalled taskName e)
                                (endTaskTiming taskName (Some e) w0))) = false) as Hab0.
    { destruct (hardAborted (ctx (observe (OnErrorCalled taskName e)
                                    (endTaskTiming taskName (Some e) w0)))) eqn:E; [|done].
      rewrite markTaskComplete_hardAborted in Hab by exact E. congruence. }
    destruct (markTaskComplete_live taskName result _ Hab0) as (_ & _ & Hin & _ & Hd & _).
    done.
Qed.

Lemma attemptLoop_retry_then_result eng exec config taskName data handler e
    errorResult retry result :
  tasks eng !! taskName = Some config →
  onError config = Some handler →
  isBreakpointError e = false →
  alwaysThrowsError eng config taskName data e →
  handlerReturns eng taskName handler data errorResult →
  getProp errorResult "retry" = Some retry →
  truthy retry = true →
  getProp errorResult "result" = Some result →
  isUndefined result = false →
  truthy (default JUndef (getProp errorResult "next")) = false →
  ∀ k attempt taskRedirect w,
    attempt + k = retries config →
    ∃ w1,
      attemptLoop eng exec config taskName data (S k) attempt taskRedirect w
      = (Returned result, w1)
      ∧ executeCalls (trace w1) = executeCalls (trace w) ++ replicate (S k) taskName
      ∧ onErrorCalls (trace w1) = onErrorCalls (trace w) ++ replicate (S k) taskName
      ∧ (hardAborted (ctx w1) = false →
         taskName ∈ completedTasks (state (ctx w1))
         ∧ taskData (state (ctx w1)) !! taskName = Some result).
Proof.
  intros Hreg Hhandler He Hthrows Hh Hretry Htruthy Hresult Hdef Hnext.
  induction k as [|k IH]; intros attempt rd w Hk.
  - apply (attempt_with_result eng exec config taskName data handler e errorResult
             retry result); try done; [lia|].
    rewrite Htruthy. simpl. apply Nat.leb_gt. lia.
  - destruct (Hthrows rd w) as (rd1 & w0 & Hrun).
    pose proof (invokeExecute_trace _ _ _ _ _ _ _ _ _ Hreg Hrun He) as Ht0.
    rewrite attemptLoop_unfold.
    rewrite (proj2 (Nat.leb_le attempt (retries config))) by lia.
    rewrite (tryAttempt_rejected _ _ _ _ _ _ _ _ _ _ Hrun).
    unfold catchAttempt. rewrite He, Hhandler.
    unfold handleError. rewrite Hh, Hretry, Htruthy.
    rewrite (proj2 (Nat.leb_le (attempt + 1) (retries config))) by lia. simpl.
    destruct (IH (attempt + 1) rd1 (observe (OnErrorCalled taskName e)
                                      (endTaskTiming taskName (Some e) w0)))
      as (w1 & Hloop & Hcalls & Hhandlers & Hstate); [lia|].
    exists w1. split; [exact Hloop|]. rewrite Hcalls, Hhandlers.
    cbn [observe trace ctx].
    rewrite executeCalls_app, onErrorCalls_app, endTaskTiming_trace, Ht0.
    rewrite executeCalls_app, onErrorCalls_app. simpl. rewrite !app_nil_r.
    split; [by rewrite <- app_assoc|]. split; [by rewrite <- app_assoc|done].
Qed.

(** X4: a task whose [execute] throws and whose error handler returns
    a [result] (and no successor).  [executeTask] returns that result
    instead of throwing.  If the handler's [retry] is falsy, [execute]
    has been called once, whatever [retryCount] says; if it is truthy,
    once per allowed attempt, the handler after each.  Unless the
    workflow ends hard-aborted, the task is complete with the handler's
    result as its data. *)
Theorem handler_result_replaces_error eng fuel taskName config handler data e
    errorResult retry result w :
  tasks eng !! taskName = Some config →
  onError config = Some handler →
  isBreakpointError e = false →
  alwaysThrowsError eng config taskName data e →
  handlerReturns eng taskName handler data errorResult →
  getProp errorResult "retry" = Some retry →
  getProp errorResult "result" = Some result →
  isUndefined result = false →
  truthy (default JUndef (getProp errorResult "next")) = false →
  dispatchable config taskName w →
  let attempts := if truthy retry then S (retries config) else 1 in
  ∃ w1,
    executeTask eng (S fuel) taskName data w = (Returned result, w1)
    ∧ executeCalls (trace w1) = executeCalls (trace w) ++ replicate attempts taskName
    ∧ onErrorCalls (trace w1) = onErrorCalls (trace w) ++ replicate attempts taskName
    ∧ (hardAborted (ctx w1) = false →
       taskName ∈ completedTasks (state (ctx w1))
       ∧ taskData (state (ctx w1)) !! taskName = Some result).
Proof.
  intros Hreg Hhandler He Hthrows Hh Hretry Hresult Hdef Hnext Hdisp attempts.
  rewrite (executeTask_enters _ _ _ _ _ _ Hreg Hdisp).
  rewrite <- (enter_trace taskName w). unfold attempts.
  destruct (truthy retry) eqn:Htruthy.
  - apply (attemptLoop_retry_then_result eng (executeTask eng fuel) config taskName data
             handler e errorResult retry result); done.
  - apply (attempt_with_result eng (executeTask eng fuel) config taskName data handler e
             errorResult retry result); try done; [lia|].
    by rewrite Htruthy.
Qed.

Lemma handler_result_replaces_error_witness :
  (∃ w1,
     executeTask (rescuedEngine false) 1 "F" JNull initialWorld
     = (Returned (JStr "fallback"), w1)
     ∧ executeCalls (trace w1) = executeCalls (trace initialWorld) ++ ["F"]
     ∧ onErrorCalls (trace w1) = onErrorCalls (trace initialWorld) ++ ["F"]
     ∧ (hardAborted (ctx w1) = false →
        "F" ∈ completedTasks (state (ctx w1))
        ∧ taskData (state (ctx w1)) !! "F" = Some (JStr "fallback")))
  ∧ (∃ w1,
       executeTask (rescuedEngine true) 1 "F" JNull initialWorld
       = (Returned (JStr "fallback"), w1)
       ∧ executeCalls (trace w1) = executeCalls (trace initialWorld) ++ ["F"; "F"; "F"]
       ∧ onErrorCalls (trace w1) = onErrorCalls (trace initialWorld) ++ ["F"; "F"; "F"]
       ∧ (hardAborted (ctx w1) = false →
          "F" ∈ completedTasks (state (ctx w1))
          ∧ taskData (state (ctx w1)) !! "F" = Some (JStr "fallback"))).
Proof.
  split.
  - apply (handler_result_replaces_error (rescuedEngine false) 0 "F" (rescued false)
             (λ _ _, Return (JObj [("retry", JBool false); ("result", JStr "fallback")]))
             JNull (UserError "boom")
             (JObj [("retry", JBool false); ("result", JStr "fallback")])
             (JBool false) (JStr "fallback") initialWorld).
    + reflexivity.
    + reflexivity.
    + reflexivity.
    + intros rd w. eexists _, _. reflexivity.
    + intros e w. reflexivity.
    + reflexivity.
    + reflexivity.
    + reflexivity.
    + reflexivity.
    + split; [reflexivity | split; [reflexivity | apply not_elem_of_empty]].
  - apply (handler_result_replaces_error (rescuedEngine true) 0 "F" (rescued true)
             (λ _ _, Return (JObj [("retry", JBool true); ("result", JStr "fallback")]))
             JNull (UserError "boom")
             (JObj [("retry", JBool true); ("result", JStr "fallback")])
             (JBool true) (JStr "fallback") initialWorld).
    + reflexivity.
    + reflexivity.
    + reflexivity.
    + intros rd w. eexists _, _. reflexivity.
    + intros e w. reflexivity.
    + reflexivity.
    + reflexivity.
    + reflexivity.
    + reflexivity.
    + split; [reflexivity | split; [reflexivity | apply not_elem_of_empty]].
Defined.

End RetryFacts.

(** ** The timing summaries *)

Module TimingFacts.
Import Workflow Observations Samples Progress WorkflowFacts ProgressFacts.

Lemma statsOf_bounded timings :
  (Timing.failures (Timing.statsOf timings) ≤ Timing.attempts (Timing.statsOf timings))%nat.
Proof. simpl. apply List.filter_length_le. Qed.

(** What the [forEach] has computed when it is over. *)
Lemma totalsOf_spec (taskSummary : gmap string Timing.TaskStats) :
  map_Forall (λ _ stats, (Timing.failures stats ≤ Timing.attempts stats)%nat) taskSummary →
  let totals := Timing.totalsOf taskSummary in
  (Timing.fails totals ≤ Timing.runs totals)%nat
  ∧ (Timing.failedCount totals ≤ Timing.fails totals)%nat
  ∧ (Timing.failedCount totals ≤ size taskSummary)%nat
  ∧ ((0 < Timing.failedCount totals)%nat
     ↔ ∃ t stats, taskSummary !! t = Some stats ∧ (0 < Timing.failures stats)%nat).
Proof.
  unfold Timing.totalsOf.
  apply (map_fold_weak_ind
           (λ totals (m : gmap string Timing.TaskStats),
              map_Forall (λ _ stats,
                (Timing.failures stats ≤ Timing.attempts stats)%nat) m →
              (Timing.fails totals ≤ Timing.runs totals)%nat
              ∧ (Timing.failedCount totals ≤ Timing.fails totals)%nat
              ∧ (Timing.failedCount totals ≤ size m)%nat
              ∧ ((0 < Timing.failedCount totals)%nat
                 ↔ ∃ t stats, m !! t = Some stats ∧ (0 < Timing.failures stats)%nat))).
  - intros _. simpl. rewrite map_size_empty. split_and!; try lia.
    split; [lia|]. intros (t & stats & H & _). by rewrite lookup_empty in H.
  - intros i x m r Hi IH Hall.
    apply map_Forall_insert in Hall as [Hx Hall]; [|done].
    destruct (IH Hall) as (H1 & H2 & H3 & H4).
    rewrite map_size_insert_None by done. simpl.
    destruct (0 <? Timing.failures x)%nat eqn:E.
    + apply Nat.ltb_lt in E. split_and!; try lia.
      split; [|lia]. intros _. exists i, x. by rewrite lookup_insert_eq.
    + apply Nat.ltb_ge in E. split_and!; try lia.
      rewrite H4. split.
      * intros (t & stats & Ht & Hs). exists t, stats. split; [|done].
        rewrite lookup_insert_ne; [done|]. intros ->. by rewrite Hi in Ht.
      * intros (t & stats & Ht & Hs). destruct (decide (i = t)) as [->|Hne].
        -- rewrite lookup_insert_eq in Ht. inversion Ht; subst. lia.
        -- rewrite lookup_insert_ne in Ht by done. eauto.
Qed.

Lemma summary_bounded c :
  map_Forall (λ _ stats, (Timing.failures stats ≤ Timing.attempts stats)%nat)
             (Timing.getTaskTimingSummary c).
Proof.
  intros t stats H. unfold Timing.getTaskTimingSummary in H.
  rewrite lookup_fmap in H. destruct (taskTimings c !! t) as [timings|]; [|done].
  inversion H; subst. apply statsOf_bounded.
Qed.

Lemma summary_failures t c :
  (0 < failuresOf t c)%nat
  ↔ ∃ stats, Timing.getTaskTimingSummary c !! t = Some stats
             ∧ (0 < Timing.failures stats)%nat.
Proof.
  unfold failuresOf, timingsOf, Timing.getTaskTimingSummary. rewrite lookup_fmap.
  destruct (taskTimings c !! t) as [timings|]; simpl.
  - split; [eauto|]. by intros (stats & [= <-] & H).
  - split; [lia|]. by intros (stats & H & _).
Qed.

(** The summary says [failed] exactly when the workflow was aborted or
    some task has a failed record. *)
Lemma summary_status c :
  Timing.status (Timing.getMainTimingSummary c) = failed
  ↔ aborted c = true ∨ ∃ t, (0 < failuresOf t c)%nat.
Proof.
  destruct (totalsOf_spec _ (summary_bounded c)) as (_ & _ & _ & H).
  unfold Timing.getMainTimingSummary. simpl.
  destruct (aborted c); simpl; [by split; auto|].
  destruct (0 <? Timing.failedCount _)%nat eqn:E.
  - apply Nat.ltb_lt in E. apply H in E as (t & stats & Ht & Hs).
    split; [|done]. intros _. right. exists t. apply summary_failures. eauto.
  - apply Nat.ltb_ge in E. split; [done|]. intros [?|[t Ht]]; [done|].
    apply summary_failures in Ht as (stats & Ht & Hs).
    assert (0 < Timing.failedCount (Timing.totalsOf (Timing.getTaskTimingSummary c)))%nat
      by (apply H; eauto).
    lia.
Qed.


Lemma runBody_timings eng taskName b body :
  ∀ left taskRedirect w,
    taskTimings (ctx (runBody eng taskName b left body taskRedirect w).2)
    = taskTimings (ctx w).
Proof.
  assert (∀ t d w, taskTimings (ctx (markTaskComplete t d w)) = taskTimings (ctx w)) as Hm.
  { intros t d w. unfold markTaskComplete. by destruct (hardAborted (ctx w)). }
  assert (∀ t d w, taskTimings (ctx (createBreakpoint eng t d w).2) = taskTimings (ctx w))
    as Hb.
  { intros t d w. unfold createBreakpoint. case_bool_decide; [|done]. simpl.
    by rewrite persist_ctx. }
  induction body as [v|e|n k IH|d k IH|gr k IH|ms k IH|k IH];
    intros left rd w; simpl; try done.
  - destruct (interruptClosure b).
    + specialize (Hb taskName d (markTaskComplete taskName d w)).
      destruct (createBreakpoint eng taskName d (markTaskComplete taskName d w))
        as [[e|] w2]; simpl in *; by rewrite Hb, Hm.
    + specialize (Hb taskName d w).
      by destruct (createBreakpoint eng taskName d w) as [[e|] w2].
    + apply IH.
  - by rewrite IH.
  - destruct left as [budget|]; [|apply IH].
    destruct (budget <=? ms)%Z; [done|apply IH].
Qed.

(** When the [catch] block has closed the timing of the attempt, the
    task has a failed record. *)
Lemma failed_attempt_recorded eng config taskName data taskRedirect w e taskRedirect1 w1 :
  invokeExecute eng config taskName data taskRedirect (enter taskName w)
  = (Rejected e, taskRedirect1, w1) →
  (0 < failuresOf taskName (ctx (endTaskTiming taskName (Some e) w1)))%nat.
Proof.
  intros Hrun. unfold invokeExecute in Hrun.
  pose proof (runBody_timings eng taskName (executeBundle config) (execute config data)
                (deadline (executeBundle config)) taskRedirect
                (observe (ExecuteCalled taskName data) (enter taskName w))) as Ht.
  rewrite Hrun in Ht. cbn [snd observe ctx] in Ht.
  assert (taskTimings (ctx (enter taskName w)) !! taskName
          = Some (timingsOf taskName (ctx w) ++ [mkTiming false success None])) as He.
  { unfold enter, timingsOf. destruct (isTaskComplete taskName (ctx w)); simpl;
      by rewrite lookup_insert_eq. }
  unfold failuresOf, timingsOf, endTaskTiming. rewrite Ht, He. simpl.
  rewrite lookup_insert_eq. simpl.
  rewrite endLast_snoc, List.filter_app, length_app. simpl. lia.
Qed.



End TimingFacts.

(** ** Durations as strings *)

Module DurationFacts.
Import Stdlib.Strings.Ascii Durations.

Lemma append_assoc (a b c : string) : (a +:+ b) +:+ c = a +:+ (b +:+ c).
Proof.
  induction a as [|x a IH]; [reflexivity|].
  change (String x ((a +:+ b) +:+ c) = String x (a +:+ (b +:+ c))). by rewrite IH.
Qed.

Lemma digitOf_pretty d : (d < 10)%N → digitOf (pretty_N_char d) = Some d.
Proof.
  intros H.
  assert (d = 0 ∨ d = 1 ∨ d = 2 ∨ d = 3 ∨ d = 4 ∨ d = 5 ∨ d = 6 ∨ d = 7 ∨ d = 8 ∨ d = 9)%N
    as Hd by lia.
  repeat (destruct Hd as [->|Hd]; [reflexivity|]). by subst.
Qed.

Lemma digit_not_space c d : digitOf c = Some d → Ascii.eqb c " " = false.
Proof.
  intros H. destruct (Ascii.eqb_spec c " ") as [->|]; [|done]. discriminate.
Qed.

(** The digits [pretty] writes: in front of what was there, no space
    among them, and read back to the number written. *)
Lemma pretty_go_digits x :
  ∀ s, (0 < x)%N →
    ∃ ds k,
      pretty_N_go x s = ds +:+ s
      ∧ (∀ t, split " " (ds +:+ t)
              = match split " " t with
                | first :: others => (ds +:+ first) :: others
                | [] => [ds]
                end)
      ∧ (∀ acc t, digitsPrefix acc (ds +:+ t) = digitsPrefix (acc * 10 ^ k + x) t)
      ∧ (∃ c rest d, ds = String c rest ∧ digitOf c = Some d).
Proof.
  induction (N.lt_wf_0 x) as [x _ IH]. intros s Hx.
  rewrite pretty_N_go_step by done.
  assert (x `mod` 10 < 10)%N as Hmod by (apply N.mod_lt; lia).
  pose proof (digitOf_pretty _ Hmod) as Hdigit.
  pose proof (N.div_mod x 10 ltac:(lia)) as Hdiv.
  destruct (decide (x `div` 10 = 0)%N) as [Hz|Hnz].
  - rewrite Hz, pretty_N_go_0.
    exists (String (pretty_N_char (x `mod` 10)) ""), 1%N. split_and!.
    + done.
    + intros t. simpl. rewrite (digit_not_space _ _ Hdigit).
      change ("" +:+ t) with t. destruct (split " " t); reflexivity.
    + intros acc t. simpl. rewrite Hdigit. f_equal. lia.
    + eauto.
  - destruct (IH (x `div` 10)%N) with (s := String (pretty_N_char (x `mod` 10)) s)
      as (ds & k & Heq & Hsplit & Hread & (c & rest & d & Hds & Hc)).
    { apply N.div_lt; lia. }
    { lia. }
    exists (ds +:+ String (pretty_N_char (x `mod` 10)) ""), (k + 1)%N.
    assert (∀ t, (ds +:+ String (pretty_N_char (x `mod` 10)) "") +:+ t
                 = ds +:+ String (pretty_N_char (x `mod` 10)) t) as Happ.
    { intros t. by rewrite append_assoc. }
    split_and!.
    + by rewrite Heq, Happ.
    + intros t. rewrite Happ, Hsplit. simpl. rewrite (digit_not_space _ _ Hdigit).
      destruct (split " " t); by rewrite ?Happ.
    + intros acc t. rewrite Happ, Hread. simpl. rewrite Hdigit. f_equal.
      rewrite N.pow_add_r. lia.
    + exists c, (rest +:+ String (pretty_N_char (x `mod` 10)) ""), d.
      split; [|done]. by rewrite Hds.
Qed.

(** The same for the whole numeral, zero included. *)
Lemma pretty_digits (ms : N) :
  ∃ c rest d,
    pretty ms = String c rest
    ∧ digitOf c = Some d
    ∧ (∀ t, split " " (pretty ms +:+ t)
            = match split " " t with
              | first :: others => (pretty ms +:+ first) :: others
              | [] => [pretty ms]
              end)
    ∧ (∀ t, digitsPrefix 0 (pretty ms +:+ t) = digitsPrefix ms t).
Proof.
  unfold pretty, pretty_N. case_decide as Hz.
  - subst. exists "0"%char, "", 0%N. split_and!; done.
  - destruct (pretty_go_digits ms "" ltac:(lia))
      as (ds & k & Heq & Hsplit & Hread & (c & rest & d & Hds & Hc)).
    assert (ds +:+ "" = ds) as Hnil.
    { clear. induction ds as [|x ds IH]; [done|].
      change (String x (ds +:+ "") = String x ds). by rewrite IH. }
    rewrite Heq, Hnil. exists c, rest, d. split_and!; done.
Qed.

Lemma wholeNumber_small (n : N) : (n ≤ 2 ^ 53)%N → wholeNumber n = Some n.
Proof. intros H. unfold wholeNumber. by rewrite (proj2 (N.leb_le _ _) H). Qed.

Lemma parseFloat_pretty (ms : N) t :
  (ms ≤ 2 ^ 53)%N →
  match t with
  | String c _ => digitOf c = None ∧ continuesNumber c = false
  | EmptyString => True
  end →
  parseFloat (pretty ms +:+ t) = Some ms.
Proof.
  intros Hms Ht. destruct (pretty_digits ms) as (c & rest & d & Heq & Hc & _ & Hread).
  unfold parseFloat. rewrite Hread. rewrite Heq.
  change (String c rest +:+ t) with (String c (rest +:+ t)). cbv beta iota. rewrite Hc.
  destruct t as [|c' t']; simpl; [by apply wholeNumber_small|].
  destruct Ht as [Hd Hn]. rewrite Hd, Hn. by apply wholeNumber_small.
Qed.

(** X7: [getMainTimingSummary] reads the total duration of a task back
    from the string [getTaskTimingSummary] made of it.  For a duration
    under a second that string is the number followed by [ms] without
    a space, so [parseDurationToMs] finds no unit and multiplies by
    60000; with the space it expects, it returns the number itself. *)
Theorem format_then_parse_scales (ms : N) (s : string) :
  formatDuration ms = Some s →
  s = pretty ms +:+ "ms"
  ∧ parseDurationToMs s = Some (ms * 60000)%N
  ∧ parseDurationToMs (pretty ms +:+ " ms") = Some ms.
Proof.
  unfold formatDuration. destruct (ms <? 1000)%N eqn:Hms; [|done]. intros [= <-].
  apply N.ltb_lt in Hms.
  assert (2 ^ 53 = 9007199254740992)%N as Hpow by reflexivity.
  destruct (pretty_digits ms) as (c & rest & d & Heq & Hc & Hsplit & Hread).
  split; [done|]. unfold parseDurationToMs. rewrite !Hsplit. simpl. split.
  - rewrite parseFloat_pretty by (done || lia). simpl.
    apply wholeNumber_small. lia.
  - rewrite parseFloat_pretty by (done || lia). simpl.
    rewrite wholeNumber_small by lia. f_equal. lia.
Qed.

Lemma format_then_parse_scales_witness :
  "250ms" = pretty 250%N +:+ "ms"
  ∧ parseDurationToMs "250ms" = Some (250 * 60000)%N
  ∧ parseDurationToMs (pretty 250%N +:+ " ms") = Some 250%N.
Proof. apply (format_then_parse_scales 250 "250ms"). reflexivity. Defined.

End DurationFacts.

(** *** The sequential and the parallel handler *)

Module SequentialFacts.
Import Graph GraphFacts Order Handlers.
Import SequentialEdgeHandler.

Lemma insertEdge_perm edge sorted : insertEdge edge sorted ≡ₚ edge :: sorted.
Proof.
  induction sorted as [|x rest IH]; simpl; [done|].
  destruct (priorityOf edge <=? priorityOf x)%Z; [done|].
  rewrite IH. apply Permutation_swap.
Qed.

Lemma sort_perm edges : sort edges ≡ₚ edges.
Proof.
  induction edges as [|edge rest IH]; simpl; [done|].
  by rewrite insertEdge_perm, IH.
Qed.

Lemma insertEdge_ascending edge sorted :
  ascending (priorityOf <$> sorted) → ascending (priorityOf <$> insertEdge edge sorted).
Proof.
  induction sorted as [|x rest IH]; simpl; [done|]. intros [Hx Hrest].
  destruct (priorityOf edge <=? priorityOf x)%Z eqn:E; simpl.
  - apply Z.leb_le in E. split; [|done]. apply Forall_cons. split; [done|].
    eapply Forall_impl; [exact Hx|]. simpl. intros k Hk. lia.
  - apply Z.leb_gt in E. split; [|by apply IH].
    rewrite (insertEdge_perm edge rest). simpl. apply Forall_cons. split; [lia|done].
Qed.

Lemma sort_ascending edges : ascending (priorityOf <$> sort edges).
Proof.
  induction edges as [|edge rest IH]; simpl; [done|]. by apply insertEdge_ascending.
Qed.

(** Edges of equal priority keep the order they had. *)
Lemma insertEdge_stable p edge sorted :
  filter (λ e, priorityOf e = p) (insertEdge edge sorted)
  = filter (λ e, priorityOf e = p) (edge :: sorted).
Proof.
  induction sorted as [|x rest IH]; simpl; [done|].
  destruct (priorityOf edge <=? priorityOf x)%Z eqn:E; [done|].
  apply Z.leb_gt in E. rewrite filter_cons, IH, !filter_cons.
  destruct (decide (priorityOf x = p)), (decide (priorityOf edge = p)); try done. lia.
Qed.

Lemma sort_stable p edges :
  filter (λ e, priorityOf e = p) (sort edges) = filter (λ e, priorityOf e = p) edges.
Proof.
  induction edges as [|edge rest IH]; simpl; [done|].
  rewrite insertEdge_stable, !filter_cons, IH. done.
Qed.

(** The loop stops at the first edge whose failure the fallback does
    not absorb; up to there, one call per edge. *)
Lemma runEdges_calls g src edges :
  ∀ w, ∃ ran,
    ran `prefix_of` edges
    ∧ calls (runEdges g edges src w).2 = calls w ++ ((λ e, NodeExecuted (to e) src) <$> ran)
    ∧ (∀ r, (runEdges g edges src w).1 = inl r → ran = edges).
Proof.
  induction edges as [|edge rest IH]; intros w.
  - exists []. simpl. by rewrite app_nil_r.
  - simpl. unfold bind.
    pose proof (withFallback_executeNode_calls g edge (to edge) src w) as Hcall.
    destruct (withFallback g edge (executeNode g (to edge) src) w) as [[a|e] w1];
      simpl in Hcall.
    + destruct (IH w1) as (ran & Hpre & Hcalls & Hall).
      exists (edge :: ran). split; [by apply prefix_cons|].
      split; [rewrite Hcalls, Hcall; simpl; by rewrite <- app_assoc|].
      intros r Hr. by rewrite (Hall r Hr).
    + exists [edge]. split; [apply prefix_cons, prefix_nil|]. simpl. done.
Qed.


End SequentialFacts.

Module ParallelFacts.
Import Graph GraphFacts Handlers.
Import ParallelEdgeHandler.

Lemma settleAll_calls {C} g src (edges : list (GraphEdge C)) :
  ∀ first w,
    calls (settleAll g edges src first w).2
    = calls w ++ ((λ e, NodeExecuted (to e) src) <$> edges)
    ∧ ((settleAll g edges src first w).1 = inl tt → first = None).
Proof.
  induction edges as [|edge rest IH]; intros first w; simpl.
  - rewrite app_nil_r. split; [done|]. by destruct first.
  - pose proof (withFallback_executeNode_calls g edge (to edge) src w) as Hcall.
    destruct (withFallback g edge (executeNode g (to edge) src) w) as [[a|e] w1];
      simpl in Hcall.
    + destruct (IH first w1) as [Hcalls Hfirst].
      rewrite Hcalls, Hcall. by rewrite <- app_assoc.
    + destruct (IH (Some (default e first)) w1) as [Hcalls Hfirst].
      rewrite Hcalls, Hcall. split; [by rewrite <- app_assoc|].
      intros H. by apply Hfirst in H.
Qed.

(** X9: the parallel handler starts the destination of every edge,
    in the order of the array, whether or not an earlier one has
    failed; and when it returns, it returns the source response. *)
Theorem parallel_runs_every_edge {C} g (edges : list (GraphEdge C)) src w :
  calls (handle g edges src w).2 = calls w ++ ((λ e, NodeExecuted (to e) src) <$> edges)
  ∧ (∀ r, (handle g edges src w).1 = inl r → r = src).
Proof.
  destruct (settleAll_calls g src edges None w) as [Hcalls _].
  unfold handle, bind.
  destruct (settleAll g edges src None w) as [[a|e] w1]; simpl in *.
  - split; [done|]. by intros r [= <-].
  - split; [done|]. intros r Hr. discriminate.
Qed.

End ParallelFacts.

(** *** The revision handler and the loop handler *)

Module TranscriptFacts.
Import Graph GraphSamples GraphFacts Handlers HandlerSamples.

Lemma default_last_cons {A} (l : list A) :
  ∀ c x, default c (last (x :: l)) = default x (last l).
Proof.
  induction l as [|y l IH]; intros c x; [done|].
  change (last (x :: y :: l)) with (last (y :: l)). by rewrite !IH.
Qed.

Lemma onGraph_responses {A} (f : GraphState → (A + string) * GraphState) w :
  responses (onGraph f w).2 = responses w.
Proof. unfold onGraph. by destruct (f (graph w)). Qed.

Lemma reasoningFor_responses g node nodeId inp w :
  responses (LoopEdgeHandler.reasoningFor g node nodeId inp w).2 = responses w.
Proof.
  unfold LoopEdgeHandler.reasoningFor. destruct (enableReasoning node); [|done].
  unfold bind, record, modify. simpl.
  pose proof (onGraph_responses (processReasoningStep g node inp)
                (mkWorld (graph w) (responses w)
                         (calls w ++ [ReasoningStep (name node) inp]) (uuids w))) as H.
  destruct (onGraph (processReasoningStep g node inp) _) as [[r|e] w1]; simpl in *; done.
Qed.

(** One call of a node inside the loop handler: when it returns, it
    has pushed its response, and nothing else. *)
Lemma runNode_responses g node inp w r w1 :
  LoopEdgeHandler.runNode g node inp w = (inl r, w1) →
  ∃ nodeId, responses w1 = responses w ++ [mkResponse nodeId r].
Proof.
  unfold LoopEdgeHandler.runNode, bind, uuidv4. simpl.
  set (w0 := mkWorld (graph w) (responses w) (calls w) (S (uuids w))).
  pose proof (reasoningFor_responses g node (uuids w) inp w0) as H1.
  destruct (LoopEdgeHandler.reasoningFor g node (uuids w) inp w0) as [[reasoning|e] w2];
    simpl in *; [|done].
  unfold record, modify. simpl.
  set (w3 := mkWorld _ _ _ _).
  pose proof (onGraph_responses
                (processAgentMessage g (uuids w) node
                   (LoopEdgeHandler.withReasoning reasoning inp)) w3) as H2.
  destruct (onGraph _ w3) as [[r'|e] w4]; simpl in *; [|done].
  unfold pushResponse, modify. simpl. intros [= <- <-]. simpl.
  exists (uuids w). by rewrite H2, H1.
Qed.

(** The turns of the loop: two responses pushed per turn, each also
    added to [loopResponses]. *)
Lemma loopTurns_transcript g c toNode fromNode remaining :
  ∀ currentResponse loopResponses w final w1,
    LoopEdgeHandler.loopTurns g remaining c toNode fromNode currentResponse loopResponses w
    = (inl final, w1) →
    ∃ pushed turns,
      responses w1 = responses w ++ pushed
      ∧ final.2 = loopResponses ++ (response <$> pushed)
      ∧ final.1 = default currentResponse (last (response <$> pushed))
      ∧ length pushed = 2 * turns ∧ (turns ≤ remaining)%nat.
Proof.
  induction remaining as [|remaining IH]; intros current lrs w final w1 H.
  - inversion H; subst. exists [], 0. simpl. by rewrite !app_nil_r.
  - simpl in H. unfold bind in H.
    pose proof (onGraph_responses (shouldStop g (stopCondition c) current) w)
      as H0.
    destruct (onGraph (shouldStop g (stopCondition c) current) w)
      as [[stop|e] w2]; simpl in H0; [|done].
    destruct stop.
    { inversion H; subst. exists [], 0. simpl. rewrite !app_nil_r. split_and!; try done. lia. }
    unfold getNodeStates in H.
    destruct (LoopEdgeHandler.runNode g toNode _ w2) as [[toResponse|e] w3] eqn:E1; [|done].
    destruct (LoopEdgeHandler.runNode g fromNode toResponse w3)
      as [[fromResponse|e] w4] eqn:E2; [|done].
    apply runNode_responses in E1 as [id1 E1]. apply runNode_responses in E2 as [id2 E2].
    destruct (IH _ _ _ _ _ H) as (pushed & turns & Hr & Hl & Hc & Hlen & Hle).
    exists (mkResponse id1 toResponse :: mkResponse id2 fromResponse :: pushed), (S turns).
    split_and!.
    + rewrite Hr, E2, E1, H0. by rewrite <- !app_assoc.
    + rewrite Hl. simpl. by rewrite <- app_assoc.
    + rewrite Hc. cbn [fmap list_fmap response]. by rewrite !default_last_cons.
    + simpl. lia.
    + lia.
Qed.

(** The [for] loop of the loop handler over two stretches of edges. *)
Lemma loop_handleFrom_app g pre rest src :
  ∀ finalResponse w,
    LoopEdgeHandler.handleFrom g finalResponse (pre ++ rest) src w
    = match LoopEdgeHandler.handleFrom g finalResponse pre src w with
      | (inl r, w1) => LoopEdgeHandler.handleFrom g r rest src w1
      | (inr e, w1) => (inr e, w1)
      end.
Proof.
  induction pre as [|edge pre IH]; intros finalResponse w; [done|].
  simpl. unfold bind.
  destruct (withFallback g edge (LoopEdgeHandler.handleEdge g src edge) w)
    as [[r|e] w1]; [apply IH | done].
Qed.

(** X10: when the loop handler reaches an edge without
    [outputTransform] and the function it runs for that edge returns a
    response, that response is the transcript of the loop: the source
    response followed by every response pushed during the call, joined
    by blank lines.  Two responses are pushed per turn, the turns are
    at most [maxIterations] (3 when there is none), and the transcript
    is stored as the result of the source node of the edge, both nodes
    being marked completed.  If the edge is the last, the transcript
    is what the handler returns, whatever the edges before it gave. *)
Theorem loop_returns_transcript g src (pre : list (GraphEdge LoopConfig))
    (edge : GraphEdge LoopConfig) w0 r0 w final w1 :
  let c := default LoopEdgeHandler.emptyConfig (config edge) in
  LoopEdgeHandler.handle g pre src w0 = (inl r0, w) →
  LoopEdgeHandler.handleEdge g src edge w = (inl (Some final), w1) →
  outputTransform c = None →
  LoopEdgeHandler.handle g (pre ++ [edge]) src w0 = (inl final, w1)
  ∧ ∃ pushed turns,
      responses w1 = responses w ++ pushed
      ∧ final = join blankLine (src :: (response <$> pushed))
      ∧ length pushed = 2 * turns
      ∧ (turns ≤ Z.to_nat (default 3%Z (maxIterations c)))%nat
      ∧ results (graph w1) !! from edge = Some final
      ∧ from edge ∈ completed (graph w1) ∧ to edge ∈ completed (graph w1).
Proof.
  intros c Hpre H Hout. split.
  { unfold LoopEdgeHandler.handle in *. rewrite loop_handleFrom_app, Hpre.
    simpl. unfold bind, withFallback. by rewrite H. }
  unfold LoopEdgeHandler.handleEdge in H. fold c in H.
  destruct (getNode g (to edge)) as [toNode|]; [|done].
  destruct (getNode g (from edge)) as [fromNode|]; [|done].
  unfold bind in H.
  destruct (LoopEdgeHandler.loopTurns g _ c toNode fromNode src [src] w)
    as [[looped|e] w2] eqn:E; [|done].
  apply loopTurns_transcript in E as (pushed & turns & Hr & Hl & _ & Hlen & Hle).
  rewrite Hout in H. simpl in H. inversion H; subst. simpl.
  exists pushed, turns. rewrite Hl. split_and!; try done.
  - by rewrite lookup_insert_eq.
  - apply elem_of_union. left. by apply elem_of_singleton.
  - apply elem_of_union. right. apply elem_of_union. left. by apply elem_of_singleton.
Qed.

Lemma loop_returns_transcript_witness :
  LoopEdgeHandler.handle echoGraph ([idleEdge] ++ [oneTurnEdge]) "draft" emptyWorld
  = (inl ("draft" ++ blankLine ++ "answer" ++ blankLine ++ "answer")%string,
     (LoopEdgeHandler.handleEdge echoGraph "draft" oneTurnEdge
        (LoopEdgeHandler.handle echoGraph [idleEdge] "draft" emptyWorld).2).2)
  ∧ ∃ pushed turns,
      responses (LoopEdgeHandler.handleEdge echoGraph "draft" oneTurnEdge
                   (LoopEdgeHandler.handle echoGraph [idleEdge] "draft" emptyWorld).2).2
      = responses (LoopEdgeHandler.handle echoGraph [idleEdge] "draft" emptyWorld).2
        ++ pushed
      ∧ ("draft" ++ blankLine ++ "answer" ++ blankLine ++ "answer")%string
        = join blankLine ("draft" :: (response <$> pushed))
      ∧ length pushed = 2 * turns
      ∧ (turns ≤ Z.to_nat (default 3%Z (maxIterations
                                          (default LoopEdgeHandler.emptyConfig
                                                   (config oneTurnEdge)))))%nat
      ∧ results (graph (LoopEdgeHandler.handleEdge echoGraph "draft" oneTurnEdge
                          (LoopEdgeHandler.handle echoGraph [idleEdge] "draft"
                             emptyWorld).2).2) !! from oneTurnEdge
        = Some ("draft" ++ blankLine ++ "answer" ++ blankLine ++ "answer")%string
      ∧ from oneTurnEdge
        ∈ completed (graph (LoopEdgeHandler.handleEdge echoGraph "draft" oneTurnEdge
                              (LoopEdgeHandler.handle echoGraph [idleEdge] "draft"
                                 emptyWorld).2).2)
      ∧ to oneTurnEdge
        ∈ completed (graph (LoopEdgeHandler.handleEdge echoGraph "draft" oneTurnEdge
                              (LoopEdgeHandler.handle echoGraph [idleEdge] "draft"
                                 emptyWorld).2).2).
Proof.
  apply (loop_returns_transcript echoGraph "draft" [idleEdge] oneTurnEdge emptyWorld
           "draft" (LoopEdgeHandler.handle echoGraph [idleEdge] "draft" emptyWorld).2).
  - vm_compute. reflexivity.
  - vm_compute. reflexivity.
  - reflexivity.
Defined.

(** The turns of the revision: one response pushed per turn, none when
    the node is missing. *)
Lemma reviseTurns_transcript g c (edge : GraphEdge RevisionEdgeHandler.RevisionConfig)
    remaining :
  ∀ currentResponse w final w1,
    RevisionEdgeHandler.reviseTurns g remaining c edge currentResponse w = (inl final, w1) →
    ∃ pushed,
      responses w1 = responses w ++ pushed
      ∧ final = default currentResponse (last (response <$> pushed))
      ∧ (length pushed ≤ remaining)%nat
      ∧ (getNode g (to edge) = None → pushed = []).
Proof.
  induction remaining as [|remaining IH]; intros current w final w1 H.
  - inversion H; subst. exists []. simpl. by rewrite app_nil_r.
  - simpl in H. unfold bind in H.
    pose proof (onGraph_responses
                  (shouldStop g (RevisionEdgeHandler.stopCondition c) current) w) as H0.
    destruct (onGraph (shouldStop g (RevisionEdgeHandler.stopCondition c) current) w)
      as [[stop|e] w2]; simpl in H0; [|done].
    destruct stop.
    { inversion H; subst. exists []. simpl. rewrite app_nil_r. split_and!; try done. lia. }
    destruct (getNode g (to edge)) as [nextNode|] eqn:Hnode.
    2: { inversion H; subst. exists []. simpl. rewrite app_nil_r.
         split_and!; try done. lia. }
    unfold uuidv4 in H. simpl in H.
    set (w0 := mkWorld (graph w2) (responses w2) (calls w2) (S (uuids w2))) in H.
    pose proof (reasoningFor_responses g nextNode (uuids w2) current w0) as H1.
    destruct (LoopEdgeHandler.reasoningFor g nextNode (uuids w2) current w0)
      as [[reasoning|e] w3]; simpl in H1; [|done].
    unfold getNodeStates, record, modify in H. simpl in H.
    set (w4 := mkWorld _ _ _ _) in H.
    set (promptInput := LoopEdgeHandler.withReasoning reasoning _) in H.
    pose proof (onGraph_responses (processAgentMessage g (uuids w2) nextNode promptInput) w4)
      as H2.
    destruct (onGraph (processAgentMessage g (uuids w2) nextNode promptInput) w4)
      as [[r|e] w5]; simpl in H2; [|done].
    unfold pushResponse, modify in H. simpl in H.
    destruct (IH _ _ _ _ H) as (pushed & Hr & Hf & Hlen & _).
    exists (mkResponse (uuids w2) r :: pushed). split_and!.
    + rewrite Hr. simpl. rewrite H2. unfold w4. simpl. rewrite H1. unfold w0. simpl.
      rewrite H0. by rewrite <- app_assoc.
    + rewrite Hf. cbn [fmap list_fmap response]. by rewrite default_last_cons.
    + simpl. lia.
    + done.
Qed.

(** The [for] loop of the revision handler over two stretches of
    edges. *)
Lemma revision_handleFrom_app g pre rest src :
  ∀ finalResponse w,
    RevisionEdgeHandler.handleFrom g finalResponse (pre ++ rest) src w
    = match RevisionEdgeHandler.handleFrom g finalResponse pre src w with
      | (inl r, w1) => RevisionEdgeHandler.handleFrom g r rest src w1
      | (inr e, w1) => (inr e, w1)
      end.
Proof.
  induction pre as [|edge pre IH]; intros finalResponse w; [done|].
  simpl. unfold bind.
  destruct (withFallback g edge (RevisionEdgeHandler.handleEdge g src edge) w)
    as [[r|e] w1]; [apply IH | done].
Qed.

(** X11: when the revision handler reaches an edge and the function
    it runs for that edge returns, what that function returns is the
    last response pushed during the call, or the source response when
    none was pushed; it has pushed at most [maxIterations] responses
    (3 when there is none); and it has stored what it returns as the
    result of the destination and marked the destination completed,
    also when the graph has no such node and nothing was pushed.  If
    the edge is the last, this is what the handler returns: every
    edge starts again from the source response, and the revisions of
    the edges before are not in it. *)
Theorem revision_returns_last_response g src
    (pre : list (GraphEdge RevisionEdgeHandler.RevisionConfig))
    (edge : GraphEdge RevisionEdgeHandler.RevisionConfig) w0 r0 w final w1 :
  let c := default RevisionEdgeHandler.emptyConfig (config edge) in
  RevisionEdgeHandler.handle g pre src w0 = (inl r0, w) →
  RevisionEdgeHandler.handleEdge g src edge w = (inl final, w1) →
  RevisionEdgeHandler.handle g (pre ++ [edge]) src w0 = (inl final, w1)
  ∧ ∃ pushed,
      responses w1 = responses w ++ pushed
      ∧ final = default src (last (response <$> pushed))
      ∧ (length pushed
         ≤ Z.to_nat (default 3%Z (RevisionEdgeHandler.maxIterations c)))%nat
      ∧ (getNode g (to edge) = None → pushed = [] ∧ final = src)
      ∧ results (graph w1) !! to edge = Some final
      ∧ to edge ∈ completed (graph w1).
Proof.
  intros c Hpre H. split.
  { unfold RevisionEdgeHandler.handle in *. rewrite revision_handleFrom_app, Hpre.
    simpl. unfold bind, withFallback. by rewrite H. }
  unfold RevisionEdgeHandler.handleEdge in H. fold c in H.
  unfold bind in H.
  destruct (RevisionEdgeHandler.reviseTurns g _ c edge src w) as [[current|e] w2] eqn:E;
    [|done].
  apply reviseTurns_transcript in E as (pushed & Hr & Hf & Hlen & Hmissing).
  simpl in H. inversion H; subst. simpl.
  exists pushed. split_and!; try done.
  - intros Hnone. by rewrite (Hmissing Hnone).
  - by rewrite lookup_insert_eq.
  - apply elem_of_union. left. by apply elem_of_singleton.
Qed.

Lemma revision_returns_last_response_witness :
  (RevisionEdgeHandler.handle echoGraph ([reviseTwice] ++ [reviseNowhere]) "draft"
     emptyWorld
   = (inl "draft",
      (RevisionEdgeHandler.handleEdge echoGraph "draft" reviseNowhere
         (RevisionEdgeHandler.handle echoGraph [reviseTwice] "draft" emptyWorld).2).2)
   ∧ ∃ pushed,
       responses (RevisionEdgeHandler.handleEdge echoGraph "draft" reviseNowhere
                    (RevisionEdgeHandler.handle echoGraph [reviseTwice] "draft"
                       emptyWorld).2).2
       = responses (RevisionEdgeHandler.handle echoGraph [reviseTwice] "draft"
                      emptyWorld).2 ++ pushed
       ∧ "draft" = default "draft" (last (response <$> pushed))
       ∧ (length pushed
          ≤ Z.to_nat (default 3%Z (RevisionEdgeHandler.maxIterations
                                     (default RevisionEdgeHandler.emptyConfig
                                              (config reviseNowhere)))))%nat
       ∧ (getNode echoGraph (to reviseNowhere) = None → pushed = [] ∧ "draft" = "draft")
       ∧ results (graph (RevisionEdgeHandler.handleEdge echoGraph "draft" reviseNowhere
                           (RevisionEdgeHandler.handle echoGraph [reviseTwice] "draft"
                              emptyWorld).2).2) !! to reviseNowhere = Some "draft"
       ∧ to reviseNowhere
         ∈ completed (graph (RevisionEdgeHandler.handleEdge echoGraph "draft"
                               reviseNowhere
                               (RevisionEdgeHandler.handle echoGraph [reviseTwice] "draft"
                                  emptyWorld).2).2))
  ∧ (RevisionEdgeHandler.handle echoGraph ([] ++ [reviseTwice]) "draft" emptyWorld
     = (inl "answer",
        (RevisionEdgeHandler.handleEdge echoGraph "draft" reviseTwice emptyWorld).2)
     ∧ ∃ pushed,
         responses (RevisionEdgeHandler.handleEdge echoGraph "draft" reviseTwice
                      emptyWorld).2
         = responses emptyWorld ++ pushed
         ∧ "answer" = default "draft" (last (response <$> pushed))
         ∧ (length pushed
            ≤ Z.to_nat (default 3%Z (RevisionEdgeHandler.maxIterations
                                       (default RevisionEdgeHandler.emptyConfig
                                                (config reviseTwice)))))%nat
         ∧ (getNode echoGraph (to reviseTwice) = None → pushed = [] ∧ "answer" = "draft")
         ∧ results (graph (RevisionEdgeHandler.handleEdge echoGraph "draft" reviseTwice
                             emptyWorld).2) !! to reviseTwice = Some "answer"
         ∧ to reviseTwice
           ∈ completed (graph (RevisionEdgeHandler.handleEdge echoGraph "draft" reviseTwice
                                 emptyWorld).2)).
Proof.
  split.
  - apply (revision_returns_last_response echoGraph "draft" [reviseTwice] reviseNowhere
             emptyWorld "answer"
             (RevisionEdgeHandler.handle echoGraph [reviseTwice] "draft" emptyWorld).2).
    + vm_compute. reflexivity.
    + vm_compute. reflexivity.
  - apply (revision_returns_last_response echoGraph "draft" [] reviseTwice
             emptyWorld "draft" emptyWorld).
    + reflexivity.
    + vm_compute. reflexivity.
Defined.

End TranscriptFacts.

(** ** Markdown content *)

Module MarkdownFacts.
Import Stdlib.Strings.Ascii Markdown.

Lemma lastIndexOf_none c s : lastIndexOf c s = None ↔ includes c s = false.
Proof.
  induction s as [|x rest IH]; simpl; [done|].
  destruct (lastIndexOf c rest) as [i|].
  - split; [done|]. intros [_ H]%orb_false_iff. apply IH in H. done.
  - destruct (Ascii.eqb x c); simpl; [done|]. split; [intros _; by apply IH|done].
Qed.

(** Where the last occurrence is: the text splits there, and what
    follows the occurrence holds no other. *)
Lemma lastIndexOf_split c s i :
  lastIndexOf c s = Some i →
  ∃ rest, s = substringTo i s +:+ String c rest
          ∧ substringFrom i s = String c rest
          ∧ includes c rest = false.
Proof.
  revert i. induction s as [|x s IH]; intros i; simpl; [done|].
  destruct (lastIndexOf c s) as [j|] eqn:E.
  - intros [= <-]. destruct (IH j eq_refl) as (rest & H1 & H2 & H3).
    exists rest. simpl. split; [|done].
    change (String x (substringTo j s) +:+ String c rest)
      with (String x (substringTo j s +:+ String c rest)).
    by rewrite <- H1.
  - destruct (Ascii.eqb_spec x c) as [->|]; [|done]. intros [= <-].
    exists s. simpl. split; [done|]. split; [done|]. by apply lastIndexOf_none.
Qed.

Lemma lastIndexOf_app c before rest :
  includes c rest = false →
  lastIndexOf c (before +:+ String c rest) = Some (String.length before)
  ∧ substringTo (String.length before) (before +:+ String c rest) = before
  ∧ substringFrom (String.length before) (before +:+ String c rest) = String c rest.
Proof.
  intros H. apply lastIndexOf_none in H.
  induction before as [|x before (IH1 & IH2 & IH3)].
  - simpl. rewrite H, Ascii.eqb_refl. done.
  - change (String x before +:+ String c rest) with (String x (before +:+ String c rest)).
    simpl. rewrite IH1, IH2, IH3. done.
Qed.

(** What is returned is the text, or the text in front of its last
    [<] when no [>] follows it. *)
Lemma removeIncompleteTags_cut content :
  removeIncompleteTags content = content
  ∨ ∃ tail, content = removeIncompleteTags content +:+ String "<" tail
            ∧ includes "<" tail = false ∧ includes ">" tail = false.
Proof.
  unfold removeIncompleteTags.
  destruct (lastIndexOf "<" content) as [i|] eqn:E; [|by left].
  destruct (lastIndexOf_split _ _ _ E) as (tail & H1 & H2 & H3).
  rewrite H2. simpl. destruct (includes ">" tail) eqn:Hgt; simpl; [by left|].
  right. by exists tail.
Qed.

(** X12: [removeIncompleteTags] looks at the last [<] only.  A text
    without [<] is returned as it is.  A text that ends in [<] and a
    tail with no further [<] is cut in front of that [<] when the tail
    holds no [>], and returned as it is when the tail holds one.  So
    what is returned is always the text or the text in front of its
    last [<]. *)
Theorem removeIncompleteTags_cuts_last_open_tag :
  (∀ content, includes "<" content = false → removeIncompleteTags content = content)
  ∧ (∀ before tail,
       includes "<" tail = false →
       removeIncompleteTags (before +:+ String "<" tail)
       = if includes ">" tail then before +:+ String "<" tail else before)
  ∧ (∀ content,
       removeIncompleteTags content = content
       ∨ ∃ tail, content = removeIncompleteTags content +:+ String "<" tail
                 ∧ includes "<" tail = false ∧ includes ">" tail = false).
Proof.
  split; [|split].
  - intros content H. unfold removeIncompleteTags.
    by rewrite (proj2 (lastIndexOf_none _ _) H).
  - intros before tail H. unfold removeIncompleteTags.
    destruct (lastIndexOf_app "<" before tail H) as (-> & -> & ->). simpl.
    by destruct (includes ">" tail).
  - apply removeIncompleteTags_cut.
Qed.

Lemma normalizeContent_cons c c' rest :
  normalizeContent (String c (String c' rest))
  = if Ascii.eqb c "\" && Ascii.eqb c' "n"
    then String newline (normalizeContent rest)
    else String c (normalizeContent (String c' rest)).
Proof. reflexivity. Qed.

(** The result begins with [n] only if the text does. *)
Lemma normalizeContent_head content rest :
  normalizeContent content = String "n" rest → ∃ rest', content = String "n" rest'.
Proof.
  destruct content as [|c [|c' r]]; simpl; [done| |].
  - intros [= -> <-]. eauto.
  - destruct (Ascii.eqb c "\" && Ascii.eqb c' "n"); [done|].
    intros [= -> _]. eauto.
Qed.

Lemma hasEscapedNewline_cons c s :
  hasEscapedNewline (String c s)
  = match s with
    | String c' _ => Ascii.eqb c "\" && Ascii.eqb c' "n" || hasEscapedNewline s
    | EmptyString => false
    end.
Proof. reflexivity. Qed.

Lemma normalizeContent_no_escape n :
  ∀ content, (String.length content ≤ n)%nat →
             hasEscapedNewline (normalizeContent content) = false.
Proof.
  induction n as [n IH] using lt_wf_ind. intros content Hlen.
  destruct content as [|c [|c' r]]; [done|done|].
  simpl in Hlen. rewrite normalizeContent_cons.
  destruct (Ascii.eqb c "\" && Ascii.eqb c' "n") eqn:E.
  - rewrite hasEscapedNewline_cons.
    destruct (normalizeContent r) as [|x y] eqn:Er; [done|]. rewrite <- Er.
    rewrite (IH (String.length r)); [|lia|lia]. by rewrite orb_false_r.
  - rewrite hasEscapedNewline_cons.
    destruct (normalizeContent (String c' r)) as [|x y] eqn:Er; [done|]. rewrite <- Er.
    rewrite (IH (String.length (String c' r))); [|simpl; lia|lia].
    rewrite orb_false_r. destruct (Ascii.eqb_spec c "\") as [->|]; [|done]. simpl.
    destruct (Ascii.eqb_spec x "n") as [->|]; [|done].
    apply normalizeContent_head in Er as [r' [= -> _]]. done.
Qed.

Lemma normalizeContent_fixed content :
  hasEscapedNewline content = false → normalizeContent content = content.
Proof.
  induction content as [|c rest IH]; [done|].
  destruct rest as [|c' r]; [done|].
  rewrite hasEscapedNewline_cons. intros [H1 H2]%orb_false_iff.
  rewrite normalizeContent_cons. rewrite H1. by rewrite IH.
Qed.

Lemma normalizeContent_length content :
  (String.length (normalizeContent content) ≤ String.length content)%nat.
Proof.
  remember (String.length content) as n eqn:Hn. revert content Hn.
  induction n as [n IH] using lt_wf_ind. intros content ->.
  destruct content as [|c [|c' r]]; [done|done|].
  rewrite normalizeContent_cons. destruct (Ascii.eqb c "\" && Ascii.eqb c' "n").
  - simpl. specialize (IH (String.length r) ltac:(simpl; lia) r eq_refl). lia.
  - change (S (String.length (normalizeContent (String c' r)))
            ≤ S (String.length (String c' r)))%nat.
    specialize (IH (String.length (String c' r)) ltac:(simpl; lia) _ eq_refl). lia.
Qed.

Lemma hasEscapedNewline_prefix a b :
  hasEscapedNewline (a +:+ b) = false → hasEscapedNewline a = false.
Proof.
  induction a as [|c a IH]; [done|]. destruct a as [|c' a]; [done|].
  change (String c (String c' a) +:+ b) with (String c (String c' a +:+ b)).
  change (String c' a +:+ b) with (String c' (a +:+ b)) at 1.
  rewrite !hasEscapedNewline_cons. intros [H1 H2]%orb_false_iff.
  rewrite H1. by apply IH.
Qed.

(** X13: after [normalizeContent] no backslash is followed by [n]
    any more, nor is one in what [MarkdownContent] hands to the
    serializer; a text without such a pair is returned as it is, so a
    second call changes nothing; and the text never gets longer. *)
Theorem normalizeContent_removes_every_escape content :
  hasEscapedNewline (normalizeContent content) = false
  ∧ hasEscapedNewline (cleanedContent content) = false
  ∧ normalizeContent (normalizeContent content) = normalizeContent content
  ∧ (hasEscapedNewline content = false → normalizeContent content = content)
  ∧ (String.length (normalizeContent content) ≤ String.length content)%nat.
Proof.
  assert (hasEscapedNewline (normalizeContent content) = false) as H
    by by apply (normalizeContent_no_escape (String.length content)).
  split; [done|]. split; [|split; [by apply normalizeContent_fixed|]].
  - unfold cleanedContent.
    destruct (removeIncompleteTags_cut (normalizeContent content))
      as [->|(tail & Heq & _)]; [done|].
    rewrite Heq in H. by apply hasEscapedNewline_prefix in H.
  - split; [apply normalizeContent_fixed|apply normalizeContent_length].
Qed.

End MarkdownFacts.

(** ** Search results *)

Module SearchResultsFacts.
Import SearchResults.

Section Unique.

Variable hostname : string → option string.

Lemma sameHostname_valid result t :
  valid hostname result → valid hostname t →
  sameHostname hostname result t
  = Some (bool_decide (hostOf hostname t = hostOf hostname result)).
Proof.
  intros [hr Hr] [ht Ht]. unfold sameHostname, hostOf. rewrite Hr, Ht. simpl. f_equal.
  destruct (String.eqb_spec ht hr) as [->|Hne].
  - by rewrite bool_decide_eq_true_2.
  - by rewrite bool_decide_eq_false_2.
Qed.

(** On links that are URLs, [findIndex] returns the first position of
    the hostname. *)
Lemma findIndex_valid result self :
  valid hostname result → Forall (valid hostname) self →
  ∀ index,
    findIndex (sameHostname hostname result) self index
    = Some (if bool_decide (hostOf hostname result ∈ hostOf hostname <$> self)
            then Some (index + before hostname (hostOf hostname result) self)
            else None).
Proof.
  intros Hr. induction 1 as [|t rest Ht _ IH]; intros index; simpl.
  - done.
  - rewrite (sameHostname_valid _ _ Hr Ht).
    destruct (decide (hostOf hostname t = hostOf hostname result)) as [E|E].
    + rewrite !(bool_decide_eq_true_2 _ E).
      rewrite bool_decide_eq_true_2 by (rewrite <- E; apply list_elem_of_here).
      f_equal. f_equal. lia.
    + rewrite !(bool_decide_eq_false_2 _ E), IH. f_equal.
      destruct (decide (hostOf hostname result ∈ hostOf hostname <$> rest)) as [E1|E1].
      * rewrite (bool_decide_eq_true_2 _ E1).
        rewrite bool_decide_eq_true_2 by by apply list_elem_of_further. f_equal. lia.
      * rewrite (bool_decide_eq_false_2 _ E1).
        rewrite bool_decide_eq_false_2; [done|].
        intros [?|?]%elem_of_cons; [by apply E|by apply E1].
Qed.

Lemma before_lt (h : string) (results : list TSearchResult) :
  h ∈ hostOf hostname <$> results → before hostname h results < length results.
Proof.
  induction results as [|t rest IH]; simpl; [by intros ?%elem_of_nil|].
  intros [E|E]%elem_of_cons.
  - rewrite bool_decide_eq_true_2 by done. lia.
  - case_bool_decide; [lia|]. apply IH in E. lia.
Qed.

Lemma before_app_fresh (h : string) (pre post : list TSearchResult) :
  h ∉ hostOf hostname <$> pre →
  before hostname h (pre ++ post) = length pre + before hostname h post.
Proof.
  induction pre as [|t rest IH]; simpl; [done|]. intros Hn.
  rewrite bool_decide_eq_false_2.
  - f_equal. apply IH. intros ?. apply Hn. by apply list_elem_of_further.
  - intros E. apply Hn. rewrite <- E. apply list_elem_of_here.
Qed.

Lemma before_app_seen (h : string) (pre post : list TSearchResult) :
  h ∈ hostOf hostname <$> pre →
  before hostname h (pre ++ post) = before hostname h pre.
Proof.
  induction pre as [|t rest IH]; simpl; [by intros ?%elem_of_nil|].
  intros [E|E]%elem_of_cons.
  - by rewrite !bool_decide_eq_true_2.
  - case_bool_decide; [done|]. f_equal. by apply IH.
Qed.

(** On links that are URLs, the filter keeps the first result of
    each hostname. *)
Lemma filterFrom_valid remaining :
  ∀ pre seen,
    Forall (valid hostname) (pre ++ remaining) →
    (∀ h, h ∈ seen ↔ h ∈ hostOf hostname <$> pre) →
    filterFrom hostname (pre ++ remaining) (length pre) remaining
    = Some (firstPerHostname hostname seen remaining).
Proof.
  induction remaining as [|result rest IH]; intros pre seen Hvalid Hseen; [done|].
  assert (valid hostname result) as Hr.
  { apply Forall_app in Hvalid as [_ H]. by apply Forall_cons in H as [H _]. }
  assert (hostOf hostname result ∈ hostOf hostname <$> pre ++ result :: rest) as Hmem.
  { rewrite fmap_app. apply elem_of_app. right. apply list_elem_of_here. }
  assert (∀ seen',
            (∀ h, h ∈ seen' ↔ h ∈ hostOf hostname <$> pre ++ [result]) →
            filterFrom hostname (pre ++ result :: rest) (S (length pre)) rest
            = Some (firstPerHostname hostname seen' rest)) as Hrest.
  { intros seen' Hseen'. specialize (IH (pre ++ [result]) seen').
    rewrite <- app_assoc, length_app in IH. simpl in IH.
    replace (length pre + 1) with (S (length pre)) in IH by lia. by apply IH. }
  cbn [filterFrom firstPerHostname].
  rewrite (findIndex_valid _ _ Hr Hvalid), (bool_decide_eq_true_2 _ Hmem).
  destruct (decide (hostOf hostname result ∈ seen)) as [Hin|Hin].
  - rewrite (bool_decide_eq_true_2 _ Hin), (Hrest seen).
    2: { intros h. rewrite Hseen, fmap_app, elem_of_app. simpl. split; [auto|].
         intros [?|E%list_elem_of_singleton]; [done|]. subst. by apply Hseen. }
    rewrite bool_decide_eq_false_2; [done|]. intros [= E].
    apply Hseen in Hin. rewrite (before_app_seen _ _ _ Hin) in E.
    pose proof (before_lt _ _ Hin). lia.
  - rewrite (bool_decide_eq_false_2 _ Hin), (Hrest (hostOf hostname result :: seen)).
    2: { intros h. rewrite fmap_app, elem_of_app, elem_of_cons, Hseen. simpl.
         rewrite list_elem_of_singleton. tauto. }
    rewrite bool_decide_eq_true_2; [done|]. f_equal.
    rewrite before_app_fresh by (by rewrite <- Hseen).
    simpl. rewrite bool_decide_eq_true_2 by done. lia.
Qed.

(** A link that is no URL makes the filter throw. *)
Lemma findIndex_invalid result self index :
  ¬ valid hostname result → self ≠ [] →
  findIndex (sameHostname hostname result) self index = None.
Proof.
  intros Hr Hne. destruct self as [|t rest]; [done|]. simpl. unfold sameHostname.
  destruct (hostname (link t)); [|done].
  destruct (hostname (link result)) eqn:E; [|done]. exfalso. apply Hr.
  unfold valid. rewrite E. eauto.
Qed.

Lemma filterFrom_invalid self remaining :
  ∀ index,
    self ≠ [] →
    Exists (λ r, ¬ valid hostname r) remaining →
    filterFrom hostname self index remaining = None.
Proof.
  induction remaining as [|result rest IH]; intros index Hne Hex.
  - by apply Exists_nil in Hex.
  - simpl. apply Exists_cons in Hex as [Hbad|Hex].
    + by rewrite findIndex_invalid.
    + destruct (findIndex _ self 0); [|done]. by rewrite IH.
Qed.

Lemma firstPerHostname_spec results :
  ∀ seen,
    firstPerHostname hostname seen results `sublist_of` results
    ∧ NoDup (hostOf hostname <$> firstPerHostname hostname seen results)
    ∧ (∀ r, r ∈ firstPerHostname hostname seen results → hostOf hostname r ∉ seen)
    ∧ (∀ r, r ∈ results →
            hostOf hostname r ∈ seen
            ∨ ∃ k, k ∈ firstPerHostname hostname seen results
                   ∧ hostOf hostname k = hostOf hostname r).
Proof.
  induction results as [|result rest IH]; intros seen; simpl.
  - split_and!; [done|apply NoDup_nil_2|by intros r ?%elem_of_nil|by intros r ?%elem_of_nil].
  - case_bool_decide as E.
    + destruct (IH seen) as (H1 & H2 & H3 & H4). split_and!; try done.
      * by apply sublist_cons.
      * intros r [->|Hr]%elem_of_cons; [by left|by apply H4].
    + destruct (IH (hostOf hostname result :: seen)) as (H1 & H2 & H3 & H4).
      split_and!.
      * by apply sublist_skip.
      * simpl. apply NoDup_cons. split; [|done].
        intros (k & Hk & Hin)%list_elem_of_fmap. apply (H3 k Hin).
        rewrite <- Hk. apply list_elem_of_here.
      * intros r [->|Hr]%elem_of_cons; [done|].
        intros Hin. apply (H3 r Hr). by apply list_elem_of_further.
      * intros r [->|Hr]%elem_of_cons.
        -- right. exists result. split; [apply list_elem_of_here|done].
        -- destruct (H4 r Hr) as [[Heq|Hin]%elem_of_cons|(k & Hk & Heq)].
           ++ right. exists result. split; [apply list_elem_of_here|done].
           ++ by left.
           ++ right. exists k. split; [by apply list_elem_of_further|done].
Qed.

(** X14: [uniqueResults] throws exactly when some link is no URL.
    Otherwise it keeps, in their order, the first result of each
    hostname: what it returns is a sublist of the results, no two of the
    results kept have the same hostname, and every hostname of the
    results is the hostname of one that is kept. *)
Theorem uniqueResults_first_per_hostname (searchResults : list TSearchResult) :
  (uniqueResults hostname searchResults = None
   ↔ ∃ r, r ∈ searchResults ∧ hostname (link r) = None)
  ∧ (∀ kept,
       uniqueResults hostname searchResults = Some kept →
       kept = firstPerHostname hostname [] searchResults
       ∧ kept `sublist_of` searchResults
       ∧ NoDup (hostOf hostname <$> kept)
       ∧ ∀ r, r ∈ searchResults →
              ∃ k, k ∈ kept ∧ hostOf hostname k = hostOf hostname r).
Proof.
  unfold uniqueResults.
  destruct (decide (Forall (valid hostname) searchResults)) as [Hvalid|Hbad].
  - pose proof (filterFrom_valid searchResults [] [] Hvalid) as Heq. simpl in Heq.
    rewrite Heq by (intros h; split; by intros ?%elem_of_nil).
    destruct (firstPerHostname_spec searchResults []) as (H1 & H2 & H3 & H4).
    split.
    + split; [done|]. intros (r & Hr & Hnone).
      rewrite Forall_forall in Hvalid. destruct (Hvalid r Hr) as [h Hh]. congruence.
    + intros kept [= <-]. split_and!; try done.
      intros r Hr. destruct (H4 r Hr) as [?%elem_of_nil|?]; done.
  - apply not_Forall_Exists in Hbad; [|apply _].
    assert (searchResults ≠ []) as Hne by (intros ->; by apply Exists_nil in Hbad).
    rewrite (filterFrom_invalid _ _ 0 Hne Hbad). split; [|done].
    split; [|done]. intros _. apply Exists_exists in Hbad as (r & Hr & Hn).
    exists r. split; [done|]. destruct (hostname (link r)) eqn:E; [|done].
    exfalso. apply Hn. unfold valid. rewrite E. eauto.
Qed.

End Unique.

End SearchResultsFacts.

(** ** Data that holds no envelope *)

Module PlainDataFacts.
Import Snapshot PlainData SnapshotFacts.

Lemma plainData_obj_unfold props :
  plainData (JObj props)
  = negb (isSetEnvelope props) && negb (isMapEnvelope props) && ownKeys props
    && forallb (λ kv, plainData kv.2) props.
Proof.
  simpl. f_equal. induction props as [|[k v] l IH]; simpl; [done|]. by rewrite IH.
Qed.

Lemma setOwn_length key value props :
  length (setOwn key value props)
  = (length props + if existsb (String.eqb key) props.*1 then 0 else 1)%nat.
Proof.
  induction props as [|[k v] rest IH]; simpl; [done|].
  rewrite (String.eqb_sym key k). destruct (String.eqb k key); simpl; [lia|].
  by rewrite IH.
Qed.

Lemma distinctKeysFrom_ext l :
  ∀ seen seen',
    (∀ x, existsb (String.eqb x) seen = existsb (String.eqb x) seen') →
    distinctKeysFrom seen l = distinctKeysFrom seen' l.
Proof.
  induction l as [|[k v] l IH]; intros seen seen' H; simpl; [done|].
  rewrite (H k). f_equal. apply IH. intros x. simpl. by rewrite (H x).
Qed.

(** The loop adds at most one property per entry, and one per entry
    only when no key comes twice and none is [__proto__]. *)
Lemma deserializeInto_length l :
  ∀ result,
    (length (deserializeInto result l) ≤ length result + length l)%nat
    ∧ (length (deserializeInto result l) = (length result + length l)%nat →
       distinctKeysFrom result.*1 l = true
       ∧ forallb (λ kv, negb (String.eqb kv.1 "__proto__")) l = true).
Proof.
  unfold deserializeInto.
  induction l as [|[k v] l IH]; intros result; simpl; [split; [lia|done]|].
  destruct (IH (assignProp k (deserializeState v) result)) as [Hle Heq].
  unfold assignProp in *. destruct (String.eqb k "__proto__") eqn:Hp.
  { split; [lia|]. intros E. lia. }
  rewrite setOwn_length in Hle, Heq.
  destruct (existsb (String.eqb k) result.*1) eqn:Hk.
  { split; [lia|]. intros E. lia. }
  split; [lia|]. intros E. destruct Heq as [Hd Hf]; [lia|]. split; [|done].
  simpl. rewrite <- Hd. apply distinctKeysFrom_ext. intros x.
  rewrite setOwn_new by done. rewrite fmap_app, existsb_app. simpl.
  by rewrite orb_false_r, orb_comm.
Qed.

Lemma deserializeProps_fixed props : deserializeProps props = props → ownKeys props = true.
Proof.
  intros H. destruct (deserializeInto_length props []) as [_ Heq].
  unfold deserializeProps in H. rewrite H in Heq.
  destruct (Heq eq_refl) as [Hd Hf]. apply andb_true_iff. split; [exact Hd|exact Hf].
Qed.

(** X15: [deserializeState] returns its argument unchanged exactly
    when the argument is made of primitives, arrays and plain objects
    and none of its objects has the shape of a serialized [Set] or
    [Map] or an own key [__proto__]: on such data the restoring of a
    snapshot changes nothing, and on any other it does. *)
Theorem deserializeState_fixes_plain_data v :
  deserializeState v = v ↔ plainData v = true.
Proof.
  induction v as [| |b|n|s|l IH|l IH|l IH|l IH|v IH] using JsVal_nested_ind;
    try done.
  - (* array *)
    simpl. split.
    + intros [= H]. induction IH as [|x l Hx _ IHl]; simpl in *; [done|].
      inversion H as [[H1 H2]]. rewrite !H1, !H2.
      rewrite (proj1 Hx H1), (IHl H2). done.
    + intros H. f_equal. induction IH as [|x l Hx _ IHl]; simpl in *; [done|].
      apply andb_true_iff in H as [H1 H2]. by rewrite (proj2 Hx H1), (IHl H2).
  - (* plain object *)
    rewrite deserialize_obj_unfold, plainData_obj_unfold.
    destruct (isSetEnvelope l).
    { simpl. split; [|done]. by destruct (default JUndef (lookupProp "value" l)). }
    destruct (isMapEnvelope l); [done|]. simpl. split.
    + intros [= H]. rewrite (deserializeProps_fixed l H). simpl.
      rewrite (deserializeProps_ownKeys l (deserializeProps_fixed l H)) in H.
      induction IH as [|[k x] l Hx _ IHl]; simpl in *; [done|].
      inversion H as [[H1 H2]]. rewrite !H1, !H2.
      rewrite (proj1 Hx H1), (IHl H2). done.
    + intros [HK H]%andb_true_iff. f_equal. rewrite (deserializeProps_ownKeys l HK).
      clear HK. induction IH as [|[k x] l Hx _ IHl]; simpl in *; [done|].
      apply andb_true_iff in H as [H1 H2]. by rewrite (proj2 Hx H1), (IHl H2).
Qed.

End PlainDataFacts.
